(** * textarea-autocomplete: the language-model core

    A shallow embedding of the n-gram engine of the repository:
    - [NGramStore]            (models/stupid-backoff/store.ts),
    - [StupidBackoffModel]    (models/stupid-backoff/model.ts),
    - [AdvancedTokenizer]     (models/stupid-backoff/tokenizer.ts),
    - [PPMModel]              (models/PPM/google.ts, PPM-C with exclusion),
    - [PPM]                   (models/PPM/ppm.ts, constructor only).

    JavaScript numbers that hold counts and token identifiers are natural
    numbers; scores are exact rationals ([Q]), so a property that the source
    computes in floating point is stated here for the exact quotient. *)

From stdpp Require Import base list gmap strings pretty.
From Stdlib Require Import Ascii QArith Lqa Sorted.
From Equations.Prop Require Import Equations Logic.

Local Open Scope nat_scope.

(** ** Token identifiers *)

(** [TokenID = number]; identifiers are array indices of [idToWord]. *)
Abbreviation TokenID := nat (only parsing).

(* ===================================================================== *)
(** ** store.ts: [NGramStore] *)
(* ===================================================================== *)

Module NGramStore.

(** [toKey(ids) = ids.join(",")]: decimal numerals separated by commas. *)
Definition toKey (ids : list TokenID) : string :=
  String.concat "," (pretty <$> ids).

Record t := mk {
  counts : gmap string nat;
  contextMap : gmap string (gset TokenID);
  totalTokens : nat
}.

(** A freshly constructed store: two empty maps and a zero total. *)
Definition create : t :=
  {| counts := ∅; contextMap := ∅; totalTokens := 0 |}.

(** [ngram.slice(0, -1)] *)
Definition slice_init (ngram : list TokenID) : list TokenID :=
  take (length ngram - 1) ngram.

Definition increment (ngram : list TokenID) (s : t) : t :=
  let key := toKey ngram in
  let currentCount := default 0 (counts s !! key) in
  let counts' := <[key := currentCount + 1]> (counts s) in
  let totalTokens' :=
    if decide (length ngram = 1) then S (totalTokens s) else totalTokens s in
  let contextMap' :=
    if decide (1 < length ngram) then
      match last ngram with
      | Some candidate =>
          let contextKey := toKey (slice_init ngram) in
          let cm :=
            match contextMap s !! contextKey with
            | Some _ => contextMap s
            | None => <[contextKey := ∅]> (contextMap s)
            end in
          <[contextKey := default ∅ (cm !! contextKey) ∪ {[candidate]}]> cm
      | None => contextMap s
      end
    else contextMap s in
  {| counts := counts'; contextMap := contextMap'; totalTokens := totalTokens' |}.

Definition getCount (s : t) (ngram : list TokenID) : nat :=
  default 0 (counts s !! toKey ngram).

Definition getTotalTokens (s : t) : nat := totalTokens s.

Definition getCandidates (s : t) (context : list TokenID) : gset TokenID :=
  default ∅ (contextMap s !! toKey context).

(** The store after a sequence of insertions, oldest first. *)
Definition inserted (ngrams : list (list TokenID)) (s : t) : t :=
  foldl (λ acc g, increment g acc) s ngrams.

End NGramStore.

(* ===================================================================== *)
(** ** tokenizer.ts: [AdvancedTokenizer] *)
(* ===================================================================== *)

(** A JavaScript string is modelled as the list of its code points: the
    token regex carries the [u] flag and so advances code point by code
    point.  [length] of a JS string counts UTF-16 code units. *)
Abbreviation text := (list N) (only parsing).

Definition text_of_string (s : string) : list N :=
  N_of_ascii <$> String.list_ascii_of_string s.

Definition utf16_length (w : text) : nat :=
  foldr (λ c acc, (if (c <? 65536)%N then 1 else 2) + acc) 0 w.

(** What the JavaScript runtime supplies: the Unicode property classes
    [\p{L}] and [\p{N}], [String.prototype.normalize('NFC')] and
    [String.prototype.toLocaleLowerCase('ru')]. *)
Class UnicodeTables := {
  isLetter : N → bool;
  isNumber : N → bool;
  normalizeNFC : text → text;
  toLocaleLowerCase : text → text
}.

Module AdvancedTokenizer.

Definition UNK : text := text_of_string "<UNK>".
Definition BOS : text := text_of_string "<S>".
Definition EOS : text := text_of_string "</S>".

(** [Partial<TokenizerConfig>]: every field may be left out. *)
Record PartialConfig := {
  p_normalizeYo : option bool;
  p_minWordLength : option Z
}.

Record TokenizerConfig := {
  normalizeYo : bool;
  minWordLength : Z
}.

(** [{ normalizeYo: true, minWordLength: 1, ...config }] *)
Definition mergeConfig (c : PartialConfig) : TokenizerConfig :=
  {| normalizeYo := default true (p_normalizeYo c);
     minWordLength := default 1%Z (p_minWordLength c) |}.

(** The two directions of the vocabulary. *)
Record Vocab := {
  wordToId : gmap (list N) TokenID;
  idToWord : list (list N)
}.

Record t := mk {
  vocab : Vocab;
  UNK_ID : TokenID;
  BOS_ID : TokenID;
  EOS_ID : TokenID;
  config : TokenizerConfig
}.

Definition registerToken (word : text) (v : Vocab) : TokenID * Vocab :=
  match wordToId v !! word with
  | Some id => (id, v)
  | None =>
      let id := length (idToWord v) in
      (id, {| wordToId := <[word := id]> (wordToId v);
              idToWord := idToWord v ++ [word] |})
  end.

Definition create (c : PartialConfig) : t :=
  let v0 := {| wordToId := ∅; idToWord := [] |} in
  let '(unk, v1) := registerToken UNK v0 in
  let '(bos, v2) := registerToken BOS v1 in
  let '(eos, v3) := registerToken EOS v2 in
  {| vocab := v3; UNK_ID := unk; BOS_ID := bos; EOS_ID := eos;
     config := mergeConfig c |}.

Definition getId (tk : t) (word : text) : TokenID :=
  default (UNK_ID tk) (wordToId (vocab tk) !! word).

Definition getWord (tk : t) (id : TokenID) : text :=
  default UNK (idToWord (vocab tk) !! id).

Definition getVocabSize (tk : t) : nat := length (idToWord (vocab tk)).

(** One result of [tokenRegex.exec]: group 1 (a word) or group 2 (a run of
    sentence punctuation); exactly one of the two groups takes part in a
    match and it is never empty. *)
Inductive Match :=
| MWord (word : list N)
| MPunct (punctuation : list N).

Definition isHyphen (c : N) : bool := (c =? 45)%N.

(** The class [[.?!;]]. *)
Definition isSentencePunct (c : N) : bool :=
  (c =? 46)%N || (c =? 63)%N || (c =? 33)%N || (c =? 59)%N.

(** [p+] after its first character: the longest run, and what follows. *)
Fixpoint span (p : N → bool) (s : text) : list N * list N :=
  match s with
  | c :: s' =>
      if p c then let '(m, r) := span p s' in (c :: m, r) else ([], s)
  | [] => ([], [])
  end.

Section with_tables.
Context {U : UnicodeTables}.

(** [[\p{L}-]*\p{L}] with the star greedy: take a class character and go
    on; when what follows cannot be completed, give the character back and
    let the closing [\p{L}] match it. *)
Fixpoint greedyTail (s : text) : option (list N * list N) :=
  match s with
  | c :: s' =>
      if isLetter c || isHyphen c then
        match greedyTail s' with
        | Some (m, r) => Some (c :: m, r)
        | None => if isLetter c then Some ([c], s') else None
        end
      else None
  | [] => None
  end.

(** The regex tried at the start of [s], alternatives in source order:
    [\p{L}[\p{L}-]*\p{L}], [\p{L}+], [\p{N}+], then [[.?!;]+]. *)
Definition matchAt (s : text) : option (Match * list N) :=
  match s with
  | c :: s' =>
      match (if isLetter c then greedyTail s' else None) with
      | Some (m, r) => Some (MWord (c :: m), r)
      | None =>
          if isLetter c then
            let '(m, r) := span isLetter s' in Some (MWord (c :: m), r)
          else if isNumber c then
            let '(m, r) := span isNumber s' in Some (MWord (c :: m), r)
          else if isSentencePunct c then
            let '(m, r) := span isSentencePunct s' in Some (MPunct (c :: m), r)
          else None
      end
  | [] => None
  end.

Lemma span_shorter (p : N → bool) (s : text) :
  length (span p s).2 ≤ length s.
Proof.
  induction s as [|c s IH]; simpl; [lia|].
  destruct (p c); [|simpl; lia]. destruct (span p s); simpl in *; lia.
Qed.

Lemma greedyTail_shorter (s m r : text) :
  greedyTail s = Some (m, r) → length r < length s.
Proof.
  revert m r. induction s as [|c s IH]; intros m r; simpl; [done|].
  destruct (isLetter c || isHyphen c); [|done].
  destruct (greedyTail s) as [[m' r']|].
  - intros [= <- <-]. specialize (IH _ _ eq_refl). lia.
  - destruct (isLetter c); [|done]. intros [= <- <-]. lia.
Qed.

Lemma matchAt_shorter (s : text) (m : Match) (r : text) :
  matchAt s = Some (m, r) → length r < length s.
Proof.
  destruct s as [|c s]; simpl; [done|].
  destruct (isLetter c) eqn:HL.
  - destruct (greedyTail s) as [[m' r']|] eqn:HG.
    + intros [= <- <-]. apply greedyTail_shorter in HG. lia.
    + pose proof (span_shorter isLetter s).
      destruct (span isLetter s). intros [= <- <-]. simpl in *; lia.
  - destruct (isNumber c).
    + pose proof (span_shorter isNumber s).
      destruct (span isNumber s). intros [= <- <-]. simpl in *; lia.
    + destruct (isSentencePunct c); [|done].
      pose proof (span_shorter isSentencePunct s).
      destruct (span isSentencePunct s). intros [= <- <-]. simpl in *; lia.
Qed.

(** [while ((match = tokenRegex.exec(text)) !== null)]: with the [g] flag
    every call resumes after the previous match; where nothing matches the
    search moves one code point on. *)
Equations? execAll (s : list N) : list Match by wf (length s) lt :=
  execAll [] := [];
  execAll (c :: s') with inspect (matchAt (c :: s')) := {
    | exist _ (Some (m, r)) Hm := m :: execAll r;
    | exist _ None _ := execAll s' }.
Proof.
  exact (matchAt_shorter (c :: s') m r Hm).
Qed.

(** [preprocessText]: NFC, locale lower case, then U+0451 to U+0435. *)
Definition preprocessText (cfg : TokenizerConfig) (s : text) : list N :=
  let clean := normalizeNFC s in
  let clean := toLocaleLowerCase clean in
  if normalizeYo cfg
  then (λ c, if (c =? 1105)%N then 1077%N else c) <$> clean
  else clean.

(** The loop variables of [tokenize]. *)
Record LoopState := {
  result : list TokenID;
  isSentenceStart : bool;
  voc : Vocab
}.

Definition step (tk : t) (st : LoopState) (m : Match) : LoopState :=
  match m with
  | MWord word =>
      if (Z.of_nat (utf16_length word) <? minWordLength (config tk))%Z
      then st
      else
        let '(id, v') := registerToken word (voc st) in
        {| result := result st ++ [id]; isSentenceStart := false; voc := v' |}
  | MPunct _ =>
      if negb (isSentenceStart st) then
        {| result := result st ++ [EOS_ID tk; BOS_ID tk];
           isSentenceStart := true; voc := voc st |}
      else st
  end.

(** The closing of the stream after the loop. *)
Definition closeStream (tk : t) (result : list TokenID) : list TokenID :=
  if decide (last result = Some (BOS_ID tk)) then removelast result
  else if decide (last result ≠ Some (EOS_ID tk)) then result ++ [EOS_ID tk]
  else result.

Definition tokenize (tk : t) (s : text) : list TokenID * t :=
  let normalizedText := preprocessText (config tk) s in
  let st0 := {| result := [BOS_ID tk]; isSentenceStart := true;
                voc := vocab tk |} in
  let st := foldl (step tk) st0 (execAll normalizedText) in
  (closeStream tk (result st),
   {| vocab := voc st; UNK_ID := UNK_ID tk; BOS_ID := BOS_ID tk;
      EOS_ID := EOS_ID tk; config := config tk |}).

End with_tables.
End AdvancedTokenizer.

(** The ASCII rows of the tables: Latin letters, decimal digits, NFC the
    identity and lower-casing of A-Z.  Used to run the tokenizer on
    concrete ASCII text. *)
Definition AsciiTables : UnicodeTables :=
  {| isLetter c := ((65 <=? c) && (c <=? 90) || (97 <=? c) && (c <=? 122))%N;
     isNumber c := ((48 <=? c) && (c <=? 57))%N;
     normalizeNFC s := s;
     toLocaleLowerCase s :=
       (λ c, if ((65 <=? c) && (c <=? 90))%N then (c + 32)%N else c) <$> s |}.

(* ===================================================================== *)
(** ** model.ts: [StupidBackoffModel] *)
(* ===================================================================== *)

(** A count as a rational number. *)
Definition QofNat (k : nat) : Q := inject_Z (Z.of_nat k).

Module StupidBackoffModel.

(** [const ALPHA = 0.4] *)
Definition ALPHA : Q := 4 # 10.

Record t := mk {
  tokenizer : AdvancedTokenizer.t;
  store : NGramStore.t;
  n : Z
}.

(** The constructor stores its three arguments; nothing is checked. *)
Definition new (order : Z) (tokenizer : AdvancedTokenizer.t)
    (store : NGramStore.t) : t :=
  {| tokenizer := tokenizer; store := store; n := order |}.

(** [tokens.slice(a, b)] for [0 ≤ a ≤ b]. *)
Definition slice (a b : nat) (tokens : list TokenID) : list TokenID :=
  take (b - a) (drop a tokens).

(** The two nested loops of [train], over the token array.  [k] runs from
    1 to [n]; [i - k + 1 < 0] skips the orders for which the history is
    too short. *)
Definition train_at (order : Z) (tokens : list TokenID) (s : NGramStore.t)
    (i : nat) : NGramStore.t :=
  foldl (λ s k,
           if decide (i + 1 < k) then s
           else NGramStore.increment (slice (i + 1 - k) (i + 1) tokens) s)
        s (seq 1 (Z.to_nat order)).

Definition train_tokens (order : Z) (tokens : list TokenID)
    (s : NGramStore.t) : NGramStore.t :=
  foldl (train_at order tokens) s (seq 0 (length tokens)).

Section with_tables.
Context {U : UnicodeTables}.

Definition train (m : t) (s : text) : t :=
  let '(tokens, tk') := AdvancedTokenizer.tokenize (tokenizer m) s in
  {| tokenizer := tk';
     store := train_tokens (n m) tokens (store m);
     n := n m |}.

(** The model after [train] was called on each text in turn. *)
Definition trained (m : t) (texts : list (list N)) : t := foldl train m texts.

End with_tables.

(** [getScore]; [order === 1] is the empty context. *)
Fixpoint getScore (s : NGramStore.t) (candidate : TokenID)
    (context : list TokenID) : Q :=
  let ngram := context ++ [candidate] in
  let countNgram := NGramStore.getCount s ngram in
  match context with
  | [] =>
      let total := NGramStore.getTotalTokens s in
      if decide (0 < total) then (QofNat countNgram / QofNat total)%Q else 0%Q
  | _ :: shortenedContext =>
      if decide (0 < countNgram) then
        let countContext := NGramStore.getCount s context in
        if decide (0 < countContext)
        then (QofNat countNgram / QofNat countContext)%Q
        else 0%Q
      else (ALPHA * getScore s candidate shortenedContext)%Q
  end.

(** [getStupidBackoffModel()]: trigrams, default tokenizer, empty store. *)
Definition getStupidBackoffModel : t :=
  new 3 (AdvancedTokenizer.create
           {| AdvancedTokenizer.p_normalizeYo := None;
              AdvancedTokenizer.p_minWordLength := None |})
        NGramStore.create.

End StupidBackoffModel.

(* ===================================================================== *)
(** ** PPM/ppm.ts: the constructor of [PPM] *)
(* ===================================================================== *)

Module PPM.

Record t := mk { order : Z }.

(** [constructor(order: number = 4)]: throws for [order <= 0]. *)
Definition new (order : option Z) : string + t :=
  let order := default 4%Z order in
  if (order <=? 0)%Z then inl "Order must be > 0"%string
  else inr {| order := order |}.

End PPM.

(* ===================================================================== *)
(** ** PPM/google.ts: [PPMModel], PPM-C with exclusion *)
(* ===================================================================== *)

(** A JavaScript [Map] keeps its keys in insertion order, and [Set]
    likewise; both are lists here, a key appearing once. *)
Section jsmap.
Context {V : Type}.

Fixpoint jsmap_get (m : list (string * V)) (k : string) : option V :=
  match m with
  | (k', v) :: m' => if String.eqb k' k then Some v else jsmap_get m' k
  | [] => None
  end.

Fixpoint jsmap_set (m : list (string * V)) (k : string) (v : V)
    : list (string * V) :=
  match m with
  | (k', v') :: m' =>
      if String.eqb k' k then (k', v) :: m' else (k', v') :: jsmap_set m' k v
  | [] => [(k, v)]
  end.

End jsmap.

Definition jsset_has (s : list string) (k : string) : bool :=
  existsb (String.eqb k) s.

Definition jsset_add (s : list string) (k : string) : list string :=
  if jsset_has s k then s else s ++ [k].

Module PPMModel.

#[local] Unset Elimination Schemes.
Inductive ContextNode := Node {
  counts : list (string * nat);
  children : list (string * ContextNode);
  totalCount : nat
}.
#[local] Set Elimination Schemes.

(** [new ContextNode()] *)
Definition emptyNode : ContextNode :=
  {| counts := []; children := []; totalCount := 0 |}.

Definition addToken (token : string) (node : ContextNode) : ContextNode :=
  let currentCount := default 0 (jsmap_get (counts node) token) in
  {| counts := jsmap_set (counts node) token (currentCount + 1);
     children := children node;
     totalCount := S (totalCount node) |}.

Definition distinctCount (node : ContextNode) : nat := length (counts node).

Record t := mk {
  maxOrder : Z;
  root : ContextNode;
  vocabulary : list string
}.

(** [constructor(config = { order: 3 })]: nothing is checked. *)
Definition new (config : option Z) : t :=
  {| maxOrder := default 3%Z config; root := emptyNode; vocabulary := [] |}.

Fixpoint updateTrie (context : list string) (token : string)
    (currentNode : ContextNode) : ContextNode :=
  match context with
  | [] => addToken token currentNode
  | word :: context' =>
      let child := default emptyNode (jsmap_get (children currentNode) word) in
      {| counts := counts currentNode;
         children := jsmap_set (children currentNode) word
                       (updateTrie context' token child);
         totalCount := totalCount currentNode |}
  end.

Fixpoint findNode (currentNode : ContextNode) (context : list string)
    : option ContextNode :=
  match context with
  | [] => Some currentNode
  | word :: context' =>
      match jsmap_get (children currentNode) word with
      | Some nextNode => findNode nextNode context'
      | None => None
      end
  end.

(** The body of the loop over positions in [train]: orders 0, 1, ... up to
    [maxOrder], left as soon as [i - order < 0]. *)
Definition train_at (maxOrder : Z) (tokens : list string) (r : ContextNode)
    (i : nat) : ContextNode :=
  match tokens !! i with
  | Some currentToken =>
      foldl (λ r order,
               if decide (i < order) then r
               else updateTrie (take order (drop (i - order) tokens))
                               currentToken r)
            r (seq 0 (Z.to_nat (maxOrder + 1)))
  | None => r
  end.

Definition train (m : t) (tokens : list string) : t :=
  match tokens with
  | [] => m
  | _ =>
      {| maxOrder := maxOrder m;
         root := foldl (train_at (maxOrder m) tokens) (root m)
                       (seq 0 (length tokens));
         vocabulary := foldl jsset_add (vocabulary m) tokens |}
  end.

(** [history.slice(start)]: a negative [start] counts from the end, and
    [slice(-0)] is [slice(0)], the whole array. *)
Definition slice_from (start : Z) (history : list string) : list string :=
  if (start <? 0)%Z
  then drop (length history - Z.to_nat (- start)) history
  else drop (Z.to_nat start) history.

Definition escapeProb (node : ContextNode) : Q :=
  (QofNat (distinctCount node) /
   QofNat (totalCount node + distinctCount node))%Q.

(** The loop over [node.counts]: a token that is not excluded receives
    [count / denominator * currentWeight] and becomes excluded. *)
Definition distribute (node : ContextNode) (currentWeight : Q)
    (acc : list (string * Q) * list string) : list (string * Q) * list string :=
  let denominator := totalCount node + distinctCount node in
  foldl (λ '(results, excluded) '(token, count),
           if jsset_has excluded token then (results, excluded)
           else
             let rawProb := (QofNat count / QofNat denominator)%Q in
             let finalProb := (rawProb * currentWeight)%Q in
             (jsmap_set results token
                (default 0%Q (jsmap_get results token) + finalProb)%Q,
              jsset_add excluded token))
        acc (counts node).

Definition handleOrderMinusOne (m : t) (results : list (string * Q))
    (excluded : list string) (weight : Q) : list (string * Q) :=
  let vocabSize := Z.of_nat (length (vocabulary m)) in
  let observedSize := Z.of_nat (length excluded) in
  let unpredictedCount := (vocabSize - observedSize)%Z in
  if (unpredictedCount <=? 0)%Z then results
  else
    let probPerToken := (weight / inject_Z unpredictedCount)%Q in
    foldl (λ results token,
             if jsset_has excluded token then results
             else jsmap_set results token probPerToken)
          results (vocabulary m).

(** [if (currentWeight < 1e-9) return] *)
Definition WEIGHT_CUTOFF : Q := 1 # 1000000000.

Definition Qltb (a b : Q) : bool := negb (Qle_bool b a).

(** [calculateProbabilitiesRecursive], by cases on [context.length]: every
    recursive call of the source is on [context.slice(1)] of a non-empty
    context; the root always exists, so the order -1 branch is entered
    from the empty context only.  [cutoff] is the early-exit threshold
    (the source fixes it to [WEIGHT_CUTOFF]; 0 disables it). *)
Fixpoint calculateProbabilitiesRecursive (cutoff : Q) (m : t)
    (context : list string) (results : list (string * Q))
    (excluded : list string) (currentWeight : Q)
    : list (string * Q) * list string :=
  if Qltb currentWeight cutoff then (results, excluded)
  else
    match context with
    | [] =>
        match findNode (root m) [] with
        | None => (handleOrderMinusOne m results excluded currentWeight,
                   excluded)
        | Some node =>
            let '(results', excluded') :=
              distribute node currentWeight (results, excluded) in
            (handleOrderMinusOne m results' excluded'
               (currentWeight * escapeProb node)%Q, excluded')
        end
    | _ :: shortened =>
        match findNode (root m) context with
        | None =>
            calculateProbabilitiesRecursive cutoff m shortened results
              excluded currentWeight
        | Some node =>
            let '(results', excluded') :=
              distribute node currentWeight (results, excluded) in
            calculateProbabilitiesRecursive cutoff m shortened results'
              excluded' (currentWeight * escapeProb node)%Q
        end
    end.

(** [Array.prototype.sort((a, b) => b.probability - a.probability)]: a
    stable sort, larger probabilities first. *)
Fixpoint insert_desc (x : string * Q) (l : list (string * Q))
    : list (string * Q) :=
  match l with
  | y :: l' => if Qltb x.2 y.2 then y :: insert_desc x l' else x :: l
  | [] => [x]
  end.

Definition sort_desc (l : list (string * Q)) : list (string * Q) :=
  foldr insert_desc [] l.

Definition predict_with (cutoff : Q) (m : t) (history : list string)
    : list (string * Q) :=
  let relevantHistory := slice_from (- maxOrder m) history in
  let '(probabilities, _) :=
    calculateProbabilitiesRecursive cutoff m relevantHistory [] [] 1%Q in
  sort_desc probabilities.

Definition predict (m : t) (history : list string) : list (string * Q) :=
  predict_with WEIGHT_CUTOFF m history.

(** The sum of the scores of a prediction. *)
Definition total_mass (l : list (string * Q)) : Q :=
  foldr (λ p acc, (p.2 + acc)%Q) 0%Q l.

(** The score of one token in a prediction, 0 when it is absent. *)
Definition score_of (l : list (string * Q)) (token : string) : Q :=
  default 0%Q (jsmap_get l token).

End PPMModel.

(** The weighted-blend [PPMModel] (interpolation with weights [2^order])
    has a constructor of the same kind: [maxOrder = 4] by default, stored
    unchecked. *)
Module BlendPPMModel.

Record t := mk { maxOrder : Z; vocabulary : list string }.

Definition new (maxOrder : option Z) : t :=
  {| maxOrder := default 4%Z maxOrder; vocabulary := [] |}.

End BlendPPMModel.

(* ===================================================================== *)
(** ** Notions used to state the properties *)
(* ===================================================================== *)

(** How many times [g] occurs in a list of n-grams. *)
Definition occurrences (g : list TokenID) (L : list (list TokenID)) : nat :=
  length (filter (λ g', g' = g) L).

(** The n-grams that [train] inserts for position [i], and for a whole
    token array, in insertion order. *)
Definition ngrams_at (order : Z) (tokens : list TokenID) (i : nat)
    : list (list TokenID) :=
  flat_map (λ k, if decide (i + 1 < k) then []
                 else [StupidBackoffModel.slice (i + 1 - k) (i + 1) tokens])
           (seq 1 (Z.to_nat order)).

Definition ngrams_of (order : Z) (tokens : list TokenID)
    : list (list TokenID) :=
  flat_map (ngrams_at order tokens) (seq 0 (length tokens)).

(** The store of a model of the given order after training on each token
    array in turn, starting from an empty store. *)
Definition trained_store (order : Z) (tokss : list (list TokenID))
    : NGramStore.t :=
  foldl (λ s tokens, StupidBackoffModel.train_tokens order tokens s)
        NGramStore.create tokss.

(** The tokenizer after it has tokenized each text in turn. *)
Definition tokenizer_after {U : UnicodeTables}
    (cfg : AdvancedTokenizer.PartialConfig) (texts : list (list N))
    : AdvancedTokenizer.t :=
  foldl (λ tk s, (AdvancedTokenizer.tokenize tk s).2)
        (AdvancedTokenizer.create cfg) texts.

(** Facts about the runtime tables that the tokenizer relies on: [<]
    (U+003C), the first character of the marker words, is neither a letter
    nor a number, and the empty string normalizes and lower-cases to
    itself. *)
Class TablesFacts (U : UnicodeTables) : Prop := {
  lt_not_letter : isLetter 60 = false;
  lt_not_number : isNumber 60 = false;
  normalizeNFC_nil : normalizeNFC [] = [];
  toLocaleLowerCase_nil : toLocaleLowerCase [] = []
}.

(** A word as group 1 of the regex yields it: it starts with a letter or a
    number. *)
Definition word_head_ok {U : UnicodeTables} (w : list N) : Prop :=
  ∃ c w', w = c :: w' ∧ (isLetter c = true ∨ isNumber c = true).

(** The two tables of the vocabulary agree, and the markers sit at the
    indices the constructor gave them. *)
Definition vocab_ok (v : AdvancedTokenizer.Vocab) : Prop :=
  (∀ w i, AdvancedTokenizer.wordToId v !! w = Some i →
          AdvancedTokenizer.idToWord v !! i = Some w) ∧
  AdvancedTokenizer.idToWord v !! 1 = Some AdvancedTokenizer.BOS ∧
  AdvancedTokenizer.idToWord v !! 2 = Some AdvancedTokenizer.EOS.

Definition tokenizer_ok (tk : AdvancedTokenizer.t) : Prop :=
  vocab_ok (AdvancedTokenizer.vocab tk) ∧
  AdvancedTokenizer.BOS_ID tk = 1 ∧ AdvancedTokenizer.EOS_ID tk = 2.

(** The shape of [result] while the loop of [tokenize] runs, together with
    the flag [isSentenceStart]. *)
Inductive open_stream : list TokenID → bool → Prop :=
| os_start : open_stream [1] true
| os_word res b id :
    open_stream res b → id ≠ 1 → id ≠ 2 → open_stream (res ++ [id]) false
| os_punct res :
    open_stream res false → open_stream (res ++ [2; 1]) true.

(** The invariant of the loop in [tokenize]. *)
Definition loop_ok (st : AdvancedTokenizer.LoopState) : Prop :=
  vocab_ok (AdvancedTokenizer.voc st) ∧
  open_stream (AdvancedTokenizer.result st)
              (AdvancedTokenizer.isSentenceStart st).

(** Boundary closure of a token stream: it does not end with [bos], and
    every [eos] that is not the final token is followed by [bos]. *)
Definition stream_closed (bos eos : TokenID) (toks : list TokenID) : Prop :=
  last toks ≠ Some bos ∧
  ∀ i, toks !! i = Some eos → S i < length toks → toks !! S i = Some bos.

(** The loop of [tokenize] with the identifier of every word read from a
    fixed table [f] instead of the growing vocabulary. *)
Definition lookup_step (tk : AdvancedTokenizer.t) (f : list N → TokenID)
    (acc : list TokenID * bool) (m : AdvancedTokenizer.Match)
    : list TokenID * bool :=
  match m with
  | AdvancedTokenizer.MWord word =>
      if (Z.of_nat (utf16_length word) <?
          AdvancedTokenizer.minWordLength (AdvancedTokenizer.config tk))%Z
      then acc
      else (acc.1 ++ [f word], false)
  | AdvancedTokenizer.MPunct _ =>
      if negb acc.2
      then (acc.1 ++ [AdvancedTokenizer.EOS_ID tk; AdvancedTokenizer.BOS_ID tk],
            true)
      else acc
  end.

(** A freshly constructed Stupid Backoff model: any order, any tokenizer
    configuration, an empty store. *)
Definition fresh_model (order : Z) (cfg : AdvancedTokenizer.PartialConfig)
    : StupidBackoffModel.t :=
  StupidBackoffModel.new order (AdvancedTokenizer.create cfg)
    NGramStore.create.

(** The candidate index read as the spec words it, for every context: [c]
    is a candidate of [C] exactly when some inserted n-gram is [C]
    followed by [c]. *)
Definition candidate_index_exact (L : list (list TokenID))
    (C : list TokenID) (c : TokenID) : Prop :=
  c ∈ NGramStore.getCandidates (NGramStore.inserted L NGramStore.create) C ↔
  C ++ [c] ∈ L.

(** The default tokenizer configuration, [new AdvancedTokenizer()]. *)
Definition default_config : AdvancedTokenizer.PartialConfig :=
  {| AdvancedTokenizer.p_normalizeYo := None;
     AdvancedTokenizer.p_minWordLength := None |}.

(** The first suggestion of a prediction is [token] with a score equal to
    [q]. *)
Definition top1_is (l : list (string * Q)) (token : string) (q : Q) : Prop :=
  match l with
  | (t, p) :: _ => t = token ∧ (p == q)%Q
  | [] => False
  end.

(** The scores of a prediction summed over a vocabulary. *)
Definition mass_over (vocabulary : list string) (l : list (string * Q)) : Q :=
  foldr (λ token acc, (PPMModel.score_of l token + acc)%Q) 0%Q vocabulary.

(** A key fragment without the separator of [toKey]. *)
Fixpoint comma_free (s : string) : bool :=
  match s with
  | EmptyString => true
  | String c r => negb (Ascii.eqb c ","%char) && comma_free r
  end.

(** The words of a match list that pass the length filter. *)
Definition accepted (tk : AdvancedTokenizer.t) (m : AdvancedTokenizer.Match)
    (w : list N) : Prop :=
  m = AdvancedTokenizer.MWord w ∧
  (Z.of_nat (utf16_length w) <?
   AdvancedTokenizer.minWordLength (AdvancedTokenizer.config tk))%Z = false.

(** The model of the spec's scenario: order 2, trained once on
    [the cat sat]. *)
Definition the_cat_sat : PPMModel.t :=
  PPMModel.train (PPMModel.new (Some 2%Z)) ["the"; "cat"; "sat"]%string.

(** How many times [g] occurs in [tokens] as a window of consecutive
    tokens: the number of start positions [j] with
    [tokens.slice(j, j + g.length)] equal to [g]. *)
Definition window_count (g tokens : list TokenID) : nat :=
  length (filter (λ j, take (length g) (drop j tokens) = g)
                 (seq 0 (length tokens + 1 - length g))).

(* ===================================================================== *)
(** ** store.ts and model.ts once more: [predict] *)
(* ===================================================================== *)

(** [predict] iterates over the candidate sets, and a JavaScript [Set]
    iterates in insertion order.  [OrderedStore] is [NGramStore] with every
    candidate set kept as the list of its members in insertion order;
    [forget] drops the order and gives back the store above. *)
Definition oset_add (s : list TokenID) (x : TokenID) : list TokenID :=
  if decide (x ∈ s) then s else s ++ [x].

Module OrderedStore.

Record t := mk {
  counts : gmap string nat;
  contextMap : gmap string (list TokenID);
  totalTokens : nat
}.

Definition create : t :=
  {| counts := ∅; contextMap := ∅; totalTokens := 0 |}.

Definition increment (ngram : list TokenID) (s : t) : t :=
  let key := NGramStore.toKey ngram in
  let currentCount := default 0 (counts s !! key) in
  let counts' := <[key := currentCount + 1]> (counts s) in
  let totalTokens' :=
    if decide (length ngram = 1) then S (totalTokens s) else totalTokens s in
  let contextMap' :=
    if decide (1 < length ngram) then
      match last ngram with
      | Some candidate =>
          let contextKey := NGramStore.toKey (NGramStore.slice_init ngram) in
          let cm :=
            match contextMap s !! contextKey with
            | Some _ => contextMap s
            | None => <[contextKey := []]> (contextMap s)
            end in
          <[contextKey := oset_add (default [] (cm !! contextKey)) candidate]>
            cm
      | None => contextMap s
      end
    else contextMap s in
  {| counts := counts'; contextMap := contextMap'; totalTokens := totalTokens' |}.

(** [getCandidates]: the members in iteration order. *)
Definition getCandidates (s : t) (context : list TokenID) : list TokenID :=
  default [] (contextMap s !! NGramStore.toKey context).

Definition forget (s : t) : NGramStore.t :=
  {| NGramStore.counts := counts s;
     NGramStore.contextMap := list_to_set <$> contextMap s;
     NGramStore.totalTokens := totalTokens s |}.

End OrderedStore.

(** [array.slice(start)] and [array.slice(0, stop)]; a negative index
    counts from the end, and [-0] is [0]. *)
Definition js_slice_from {A} (start : Z) (l : list A) : list A :=
  if (start <? 0)%Z then drop (length l - Z.to_nat (- start)) l
  else drop (Z.to_nat start) l.

Definition js_slice_to {A} (stop : Z) (l : list A) : list A :=
  if (stop <? 0)%Z then take (length l - Z.to_nat (- stop)) l
  else take (Z.to_nat stop) l.

(** [array.sort((a, b) => score(b) - score(a))]: stable, larger scores
    first. *)
Fixpoint insert_by_score {A} (score : A → Q) (x : A) (l : list A) : list A :=
  match l with
  | y :: l' =>
      if PPMModel.Qltb (score x) (score y)
      then y :: insert_by_score score x l' else x :: l
  | [] => [x]
  end.

Definition sort_by_score {A} (score : A → Q) (l : list A) : list A :=
  foldr (insert_by_score score) [] l.

(** Larger scores first. *)
Definition by_score_desc {A} (score : A → Q) (a b : A) : Prop :=
  (score b <= score a)%Q.

Module Predictor.

(** A [StupidBackoffModel] whose store keeps the iteration order. *)
Record t := mk {
  tokenizer : AdvancedTokenizer.t;
  store : OrderedStore.t;
  n : Z
}.

Definition new (order : Z) (tokenizer : AdvancedTokenizer.t)
    (store : OrderedStore.t) : t :=
  {| tokenizer := tokenizer; store := store; n := order |}.

(** The loops of [train] over the ordered store. *)
Definition train_tokens (order : Z) (tokens : list TokenID)
    (s : OrderedStore.t) : OrderedStore.t :=
  foldl (λ s i,
           foldl (λ s k,
                    if decide (i + 1 < k) then s
                    else OrderedStore.increment
                           (StupidBackoffModel.slice (i + 1 - k) (i + 1) tokens)
                           s)
                 s (seq 1 (Z.to_nat order)))
        s (seq 0 (length tokens)).

(** Step 2 of [predict]: the context taken from the token array. *)
Definition predictContext (n : Z) (eos : TokenID) (tokens : list TokenID)
    : list TokenID :=
  let contextSize := (n - 1)%Z in
  let context := js_slice_from (- contextSize) tokens in
  let context :=
    if decide (0 < length context ∧ last context = Some eos)
    then removelast context else context in
  if decide (length context = 0 ∧ 0 < length tokens)
  then js_slice_from (- (n - 1)) tokens
  else context.

(** Step 3: the candidates of the context and of each of its suffixes,
    down to the empty context, added to one set. *)
Fixpoint collectCandidates (s : OrderedStore.t) (currentCtx : list TokenID)
    (candidates : list TokenID) : list TokenID :=
  let found := OrderedStore.getCandidates s currentCtx in
  let candidates := foldl oset_add candidates found in
  match currentCtx with
  | [] => candidates
  | _ :: rest => collectCandidates s rest candidates
  end.

Section with_tables.
Context {U : UnicodeTables}.

Definition train (m : t) (s : text) : t :=
  let '(tokens, tk') := AdvancedTokenizer.tokenize (tokenizer m) s in
  {| tokenizer := tk';
     store := train_tokens (n m) tokens (store m);
     n := n m |}.

(** [predict(inputText, topK)]: the suggestions, and the model with the
    vocabulary as tokenizing the input left it. *)
Definition predict (m : t) (inputText : text) (topK : Z)
    : list (list N * Q) * t :=
  let '(tokens, tk') := AdvancedTokenizer.tokenize (tokenizer m) inputText in
  let context := predictContext (n m) (AdvancedTokenizer.EOS_ID tk') tokens in
  let candidates := collectCandidates (store m) context [] in
  let results :=
    (λ candidateId,
       (AdvancedTokenizer.getWord tk' candidateId,
        StupidBackoffModel.getScore (OrderedStore.forget (store m))
          candidateId context)) <$> candidates in
  (js_slice_to topK (sort_by_score snd results),
   {| tokenizer := tk'; store := store m; n := n m |}).

End with_tables.

(** The model after [train] was called on each text in turn, starting
    from a new model of the given order. *)
Definition trained {U : UnicodeTables} (order : Z)
    (cfg : AdvancedTokenizer.PartialConfig) (texts : list (list N)) : t :=
  foldl train
        (new order (AdvancedTokenizer.create cfg) OrderedStore.create) texts.

(** The view of the model that forgets the iteration order. *)
Definition forget (m : t) : StupidBackoffModel.t :=
  {| StupidBackoffModel.tokenizer := tokenizer m;
     StupidBackoffModel.store := OrderedStore.forget (store m);
     StupidBackoffModel.n := n m |}.

(** [getStupidBackoffModel()] *)
Definition factory : t :=
  new 3 (AdvancedTokenizer.create default_config) OrderedStore.create.

End Predictor.

(** The vocabulary as a bijection between the words and an initial
    segment of the identifiers, with the three reserved words first. *)
Definition vocab_full (v : AdvancedTokenizer.Vocab) : Prop :=
  (∀ w i, AdvancedTokenizer.wordToId v !! w = Some i ↔
          AdvancedTokenizer.idToWord v !! i = Some w) ∧
  AdvancedTokenizer.idToWord v !! 0 = Some AdvancedTokenizer.UNK ∧
  AdvancedTokenizer.idToWord v !! 1 = Some AdvancedTokenizer.BOS ∧
  AdvancedTokenizer.idToWord v !! 2 = Some AdvancedTokenizer.EOS.

Definition tokenizer_full (tk : AdvancedTokenizer.t) : Prop :=
  vocab_full (AdvancedTokenizer.vocab tk) ∧
  AdvancedTokenizer.UNK_ID tk = 0 ∧
  AdvancedTokenizer.BOS_ID tk = 1 ∧ AdvancedTokenizer.EOS_ID tk = 2.

(** The stream of words that [tokenize] encodes, computed on the words
    themselves: the accepted words of the match list in order, a sentence
    closed and the next one opened at a punctuation run that follows a
    word, and the end closed as [tokenize] closes it. *)
Definition word_step (cfg : AdvancedTokenizer.TokenizerConfig)
    (acc : list (list N) * bool) (m : AdvancedTokenizer.Match)
    : list (list N) * bool :=
  match m with
  | AdvancedTokenizer.MWord word =>
      if (Z.of_nat (utf16_length word) <?
          AdvancedTokenizer.minWordLength cfg)%Z
      then acc else (acc.1 ++ [word], false)
  | AdvancedTokenizer.MPunct _ =>
      if negb acc.2
      then (acc.1 ++ [AdvancedTokenizer.EOS; AdvancedTokenizer.BOS], true)
      else acc
  end.

Definition word_stream (cfg : AdvancedTokenizer.TokenizerConfig)
    (ms : list AdvancedTokenizer.Match) : list (list N) :=
  let '(ws, atStart) :=
    foldl (word_step cfg) ([AdvancedTokenizer.BOS], true) ms in
  if atStart then removelast ws else ws ++ [AdvancedTokenizer.EOS].

(** The shape of a word as group 1 of the token regex yields it: a run of
    numbers, or letters and hyphens between a first and a last letter. *)
Definition word_shape {U : UnicodeTables} (w : list N) : Prop :=
  (w ≠ [] ∧ Forall (λ c, isNumber c = true) w) ∨
  ((∃ c, head w = Some c ∧ isLetter c = true) ∧
   (∃ c, last w = Some c ∧ isLetter c = true) ∧
   Forall (λ c, isLetter c = true ∨ c = 45%N) w).

(** The characters of a match. *)
Definition match_chars (m : AdvancedTokenizer.Match) : list N :=
  match m with
  | AdvancedTokenizer.MWord w => w
  | AdvancedTokenizer.MPunct p => p
  end.

(** The count of [token] after the context [ctx] in a trie, and the
    number of observations of the context; 0 where the trie has no node. *)
Definition countAt (r : PPMModel.ContextNode) (ctx : list string)
    (token : string) : nat :=
  match PPMModel.findNode r ctx with
  | Some node => default 0 (jsmap_get (PPMModel.counts node) token)
  | None => 0
  end.

Definition totalAt (r : PPMModel.ContextNode) (ctx : list string) : nat :=
  match PPMModel.findNode r ctx with
  | Some node => PPMModel.totalCount node
  | None => 0
  end.

(** How many windows of the token array spell [g], for string tokens. *)
Definition token_window_count (g tokens : list string) : nat :=
  length (filter (λ j, take (length g) (drop j tokens) = g)
                 (seq 0 (length tokens + 1 - length g))).

(** The Exclusion Backoff model of the given order after [train] was
    called on each token array in turn. *)
Definition ppm_trained (order : Z) (tokss : list (list string)) : PPMModel.t :=
  foldl PPMModel.train (PPMModel.new (Some order)) tokss.

(** The sum of the counts of a node's table. *)
Definition sum_counts (entries : list (string * nat)) : nat :=
  foldr (λ p acc, p.2 + acc) 0 entries.

(** Every node of a trie has a total equal to the sum of its counts. *)
Definition trie_ok (r : PPMModel.ContextNode) : Prop :=
  ∀ ctx node, PPMModel.findNode r ctx = Some node →
              PPMModel.totalCount node = sum_counts (PPMModel.counts node).

(** Every score of a prediction is at least 0. *)
Definition nonneg_scores (r : list (string * Q)) : Prop :=
  Forall (λ p, (0 <= p.2)%Q) r.

(** Every word of the vocabulary has been counted at the root. *)
Definition vocab_counted (m : PPMModel.t) : Prop :=
  ∀ tok, tok ∈ PPMModel.vocabulary m →
         0 < countAt (PPMModel.root m) [] tok.

(** [token] has an entry in the table of the node of [ctx]. *)
Definition hasAt (r : PPMModel.ContextNode) (ctx : list string)
    (token : string) : bool :=
  match PPMModel.findNode r ctx with
  | Some node => bool_decide (is_Some (jsmap_get (PPMModel.counts node) token))
  | None => false
  end.

(** Every token of every table of the trie belongs to [V]. *)
Definition trie_within (V : list string) (r : PPMModel.ContextNode) : Prop :=
  ∀ ctx token, hasAt r ctx token = true → token ∈ V.

(** The keys of a result map are distinct and belong to [V]. *)
Definition keys_ok (V : list string) (r : list (string * Q)) : Prop :=
  NoDup r.*1 ∧ ∀ k, k ∈ r.*1 → k ∈ V.

(* ===================================================================== *)
(** * The weighted-blend [PPMModel] with its trie (src/unnamed/part_000)  *)
(* ===================================================================== *)

(** Numbers are exact rationals.  A node of the trie is at the same time a
    step of a context path and a continuation of its parent: [count] is
    the number of times the node was the next token of the parent's path,
    [total] the number of tokens recorded after the node's own path. *)
Module BlendedPPM.

#[local] Unset Elimination Schemes.
Inductive PPMNode := Node {
  children : list (string * PPMNode);
  count : nat;
  total : nat
}.
#[local] Set Elimination Schemes.

Definition emptyNode : PPMNode :=
  {| children := []; count := 0; total := 0 |}.

Record t := mk {
  root : PPMNode;
  maxOrder : Z;
  vocabulary : list string
}.

(** [constructor(maxOrder = 4)] *)
Definition new (maxOrder : option Z) : t :=
  {| root := emptyNode; maxOrder := default 4%Z maxOrder; vocabulary := [] |}.

Definition forget (m : t) : BlendPPMModel.t :=
  {| BlendPPMModel.maxOrder := maxOrder m;
     BlendPPMModel.vocabulary := vocabulary m |}.

Fixpoint updateModel (context : list string) (nextToken : string)
    (currentNode : PPMNode) : PPMNode :=
  match context with
  | token :: context' =>
      let child := default emptyNode (jsmap_get (children currentNode) token) in
      {| children := jsmap_set (children currentNode) token
                       (updateModel context' nextToken child);
         count := count currentNode;
         total := total currentNode |}
  | [] =>
      let nextNode :=
        default emptyNode (jsmap_get (children currentNode) nextToken) in
      {| children := jsmap_set (children currentNode) nextToken
                       {| children := children nextNode;
                          count := S (count nextNode);
                          total := total nextNode |};
         count := count currentNode;
         total := S (total currentNode) |}
  end.

(** The body of the loop over positions in [train]: the orders 1, 2, ... up
    to [maxOrder] with the context [tokens.slice(i - order + 1, i)], then
    the extra update with the empty context. *)
Definition train_at (maxOrder : Z) (tokens : list string) (r : PPMNode)
    (i : nat) : PPMNode :=
  match tokens !! i with
  | Some token =>
      updateModel [] token
        (foldl (λ r order,
                  if decide (order - 1 ≤ i)
                  then updateModel
                         (take (order - 1) (drop (i + 1 - order) tokens))
                         token r
                  else r)
               r (seq 1 (Z.to_nat maxOrder)))
  | None => r
  end.

Definition train (m : t) (tokens : list string) : t :=
  match tokens with
  | [] => m
  | _ =>
      {| root := foldl (train_at (maxOrder m) tokens) (root m)
                       (seq 0 (length tokens));
         maxOrder := maxOrder m;
         vocabulary := foldl jsset_add (vocabulary m) tokens |}
  end.

Fixpoint getConditionalProbability (currentNode : PPMNode)
    (context : list string) (nextToken : string) : Q :=
  match context with
  | token :: context' =>
      match jsmap_get (children currentNode) token with
      | Some child => getConditionalProbability child context' nextToken
      | None => 0%Q
      end
  | [] =>
      match jsmap_get (children currentNode) nextToken with
      | Some nextNode =>
          if decide (0 < total currentNode)
          then (QofNat (count nextNode) / QofNat (total currentNode))%Q
          else 0%Q
      | None => 0%Q
      end
  end.

(** [const alpha = 0.1] *)
Definition alpha : Q := 1 # 10.

(** The inner loop of [predictProbabilities] for one token: the orders
    from [Math.min(context.length, maxOrder)] down to 0; the pair is
    [(probability, weightSum)], the weight of an order is [Math.pow(2,
    order)]. *)
Definition blend (m : t) (context : list string) (token : string) : Q * Q :=
  foldl (λ '(probability, weightSum) order,
           let contextSlice := drop (length context - order) context in
           let contextProb :=
             getConditionalProbability (root m) contextSlice token in
           if PPMModel.Qltb 0 contextProb
           then
             let weight := inject_Z (2 ^ Z.of_nat order) in
             ((probability + weight * contextProb)%Q, (weightSum + weight)%Q)
           else (probability, weightSum))
        (0%Q, 0%Q)
        (rev (seq 0 (Z.to_nat
                       (Z.min (Z.of_nat (length context)) (maxOrder m) + 1)))).

(** The probability of one token before the final normalisation. *)
Definition smoothed (m : t) (context : list string) (token : string) : Q :=
  let vocabSize := QofNat (length (vocabulary m)) in
  let '(probability, weightSum) := blend m context token in
  if PPMModel.Qltb 0 weightSum
  then ((1 - alpha) * (probability / weightSum) + alpha / vocabSize)%Q
  else (1 / vocabSize)%Q.

(** [normalizeProbabilities]: every key of the map is visited once and
    receives its own value divided by the sum. *)
Definition normalizeProbabilities (probabilities : list (string * Q))
    : list (string * Q) :=
  let sum := foldl (λ sum p, (sum + p.2)%Q) 0%Q probabilities in
  if Qeq_bool sum 0
  then
    let uniformProb := (1 / QofNat (length probabilities))%Q in
    foldl (λ probs token, jsmap_set probs token uniformProb)
          probabilities probabilities.*1
  else
    foldl (λ probs '(token, prob), jsmap_set probs token (prob / sum)%Q)
          probabilities probabilities.

Definition predictProbabilities (m : t) (context : list string)
    : list (string * Q) :=
  normalizeProbabilities
    (foldl (λ probabilities token,
              jsmap_set probabilities token (smoothed m context token))
           [] (vocabulary m)).

(** [getTopPredictions(context, topN = 5)] *)
Definition getTopPredictions (m : t) (context : list string)
    (topN : option Z) : list (string * Q) :=
  js_slice_to (default 5%Z topN)
    (sort_by_score snd (predictProbabilities m context)).

(** [probabilities.get(token) || 0] *)
Definition getTokenProbability (m : t) (context : list string)
    (token : string) : Q :=
  default 0%Q (jsmap_get (predictProbabilities m context) token).

End BlendedPPM.

(** An order up to which the weights [Math.pow(2, order)] of
    [predictProbabilities] are the exact powers of two used in
    [BlendedPPM.blend], and their sums over the orders 0, ..., [order]
    stay far below 2^1024, the end of the range of a double; from order
    1024 on [Math.pow] gives [Infinity] and the probabilities are [NaN]. *)
Definition MAX_BLEND_ORDER : Z := 1000.

(** The weighted-blend model after [train] was called on each token array
    in turn. *)
Definition blend_trained (maxOrder : Z) (tokss : list (list string))
    : BlendedPPM.t :=
  foldl BlendedPPM.train (BlendedPPM.new (Some maxOrder)) tokss.

(** The [count] and the [total] of the node at the end of a path, 0 when
    the path is not in the trie. *)
Fixpoint nodeAt (r : BlendedPPM.PPMNode) (path : list string)
    : option BlendedPPM.PPMNode :=
  match path with
  | [] => Some r
  | token :: path' =>
      match jsmap_get (BlendedPPM.children r) token with
      | Some child => nodeAt child path'
      | None => None
      end
  end.

Definition cntAt (r : BlendedPPM.PPMNode) (path : list string) : nat :=
  from_option BlendedPPM.count 0 (nodeAt r path).

Definition totAt (r : BlendedPPM.PPMNode) (path : list string) : nat :=
  from_option BlendedPPM.total 0 (nodeAt r path).

(** The number of positions of [tokens] that are preceded by [ctx]. *)
Definition followed_count (ctx tokens : list string) : nat :=
  length (filter (λ i, length ctx ≤ i ∧
                       take (length ctx) (drop (i - length ctx) tokens) = ctx)
                 (seq 0 (length tokens))).

(* ===================================================================== *)
(** * [WordTokenizer] (src/src/models/PPM/google.ts)                      *)
(* ===================================================================== *)

(** What the JavaScript runtime supplies besides the Unicode property
    classes: [String.prototype.toLowerCase], and for a single code point
    [ch] whether [ch.trim()] is the empty string (white space and line
    terminators). *)
Class StringRuntime := {
  toLowerCase : text → text;
  trimsToEmpty : N → bool
}.

Module WordTokenizer.

Definition DEFAULT_EXCEPTIONS : list text :=
  [ [1082; 1086; 1077; 45; 1095; 1090; 1086];
    [1082; 1086; 1077; 45; 1082; 1072; 1082; 1086; 1081];
    [1082; 1086; 1077; 45; 1082; 1091; 1076; 1072];
    [1095; 1090; 1086; 45; 1090; 1086];
    [1082; 1090; 1086; 45; 1090; 1086];
    [1082; 1072; 1082; 45; 1085; 1080; 1073; 1091; 1076; 1100];
    [1087; 1086; 1095; 1077; 1084; 1091; 45; 1090; 1086];
    [1087; 1086; 45; 1084; 1086; 1077; 1084; 1091];
    [1090; 1086; 45; 1090; 1086];
    [1075; 1076; 1077; 45; 1090; 1086];
    [1082; 1091; 1076; 1072; 45; 1085; 1080; 1073; 1091; 1076; 1100];
    [1082; 1086; 1075; 1076; 1072; 45; 1085; 1080; 1073; 1091; 1076; 1100]
  ]%N.

(** [TokenizerOptions]: every field may be left out; [eosToken] may also
    be [null], which [??] treats like a missing field. *)
Record TokenizerOptions := {
  o_lowercase : option bool;
  o_keepPunctuation : option bool;
  o_eosToken : option text;
  o_normalizeYo : option bool;
  o_exceptionWords : option (list text)
}.

Record t := mk {
  lowercase : bool;
  keepPunctuation : bool;
  eosToken : text;
  normalizeYo : bool;
  exceptions : list text
}.

(** [Set.prototype.add], the members kept in insertion order. *)
Definition set_add (s : list text) (x : text) : list text :=
  if decide (x ∈ s) then s else s ++ [x].

Definition new (options : TokenizerOptions) : t :=
  {| lowercase := default true (o_lowercase options);
     keepPunctuation := default true (o_keepPunctuation options);
     eosToken := default [] (o_eosToken options);
     normalizeYo := default true (o_normalizeYo options);
     exceptions :=
       foldl set_add []
         (DEFAULT_EXCEPTIONS ++ default [] (o_exceptionWords options)) |}.

(** The class [[--–—'’]]: its first three characters are read as the
    range from U+002D to U+2013, followed by U+2014, U+0027 and U+2019. *)
Definition isJoiner (c : N) : bool :=
  ((45 <=? c) && (c <=? 8211) || (c =? 8212) || (c =? 39) || (c =? 8217))%N.

Section with_runtime.
Context {U : UnicodeTables} {R : StringRuntime}.

(** The class [[\p{Letter}\p{Number}]]. *)
Definition isWordChar (c : N) : bool := isLetter c || isNumber c.

(** The rest of [[\p{Letter}\p{Number}]+(?:J[\p{Letter}\p{Number}]+)*]
    after its first character, every quantifier greedy: word characters
    are taken as long as they come; a joiner is taken together with the
    word character after it, and the match ends where neither is there. *)
Fixpoint wordRest (s : text) : list N * list N :=
  match s with
  | c :: s' =>
      if isWordChar c then let '(m, r) := wordRest s' in (c :: m, r)
      else if isJoiner c then
        match s' with
        | c' :: s'' =>
            if isWordChar c'
            then let '(m, r) := wordRest s'' in (c :: c' :: m, r)
            else ([], s)
        | [] => ([], s)
        end
      else ([], s)
  | [] => ([], [])
  end.

(** The regex tried at the start of [s]. *)
Definition wordAt (s : text) : option (list N * list N) :=
  match s with
  | c :: s' =>
      if isWordChar c then let '(m, r) := wordRest s' in Some (c :: m, r)
      else None
  | [] => None
  end.

Lemma wordRest_shorter (s : text) : length (wordRest s).2 ≤ length s.
Proof.
  assert (Hgen : ∀ n s, length s ≤ n → length (wordRest s).2 ≤ length s).
  { induction n as [|n IH]; intros [|c s'] Hn; simpl in *; try lia.
    destruct (isWordChar c).
    - pose proof (IH s' ltac:(lia)). destruct (wordRest s'); simpl in *. lia.
    - destruct (isJoiner c); [|simpl; lia].
      destruct s' as [|c' s'']; [simpl; lia|].
      destruct (isWordChar c'); [|simpl; lia].
      pose proof (IH s'' ltac:(simpl in *; lia)).
      destruct (wordRest s''); simpl in *. lia. }
  by apply (Hgen (length s)).
Qed.

Lemma wordAt_shorter (s : text) (m r : list N) :
  wordAt s = Some (m, r) → length r < length s.
Proof.
  destruct s as [|c s]; simpl; [done|].
  destruct (isWordChar c); [|done].
  pose proof (wordRest_shorter s). destruct (wordRest s).
  intros [= <- <-]. simpl in *. lia.
Qed.

(** [while ((match = regex.exec(text)) !== null)]: every match with the
    text between the previous match and itself ([before]), and the text
    after the last match ([tail]). *)
Equations? execWords (s : text) (before : text)
    : list (text * text) * text by wf (length s) lt :=
  execWords [] before := ([], before);
  execWords (c :: s') before with inspect (wordAt (c :: s')) := {
    | exist _ (Some (word, r)) Hm :=
        (λ rest, ((before, word) :: rest.1, rest.2)) (execWords r []);
    | exist _ None _ := execWords s' (before ++ [c]) }.
Proof.
  exact (wordAt_shorter (c :: s') word r Hm).
Qed.

Definition pushPunctTokens (tk : t) (chunk : text) (output : list text)
    : list text :=
  if keepPunctuation tk
  then foldl (λ output ch,
                if negb (trimsToEmpty ch) then output ++ [[ch]] else output)
             output chunk
  else output.

Definition handleExceptions (tk : t) (word : text) : text :=
  if bool_decide (word ∈ exceptions tk) then word else word.

(** The text that the regex runs over. *)
Definition normalise (tk : t) (s : text) : text :=
  let s := if lowercase tk then toLowerCase s else s in
  if normalizeYo tk
  then (λ c, if (c =? 1105)%N then 1077%N else c) <$> s
  else s.

Definition tokenize (tk : t) (s : text) : list text :=
  let s := normalise tk s in
  let '(matches, tail) := execWords s [] in
  let tokens :=
    foldl (λ tokens '(before, word),
             pushPunctTokens tk before tokens ++ [handleExceptions tk word])
          [] matches in
  let tokens := pushPunctTokens tk tail tokens in
  if bool_decide (eosToken tk = []) then tokens else tokens ++ [eosToken tk].

End with_runtime.

End WordTokenizer.

(** The tokens that [tokenize] appends after the text: the end-of-sentence
    token when it is not the empty string. *)
Definition eos_part (tk : WordTokenizer.t) : list text :=
  if bool_decide (WordTokenizer.eosToken tk = []) then []
  else [WordTokenizer.eosToken tk].

(** A word token starts and ends with a letter or number; a punctuation
    token is one code point that is neither a letter, a number nor white
    space. *)
Definition word_token `{UnicodeTables} (w : text) : Prop :=
  ∃ c, head w = Some c ∧ WordTokenizer.isWordChar c = true ∧
       ∃ c', last w = Some c' ∧ WordTokenizer.isWordChar c' = true.

Definition punct_token `{UnicodeTables} `{StringRuntime} (w : text) : Prop :=
  ∃ c, w = [c] ∧ WordTokenizer.isWordChar c = false ∧ trimsToEmpty c = false.

(** The ASCII rows of the runtime. *)
Definition AsciiRuntime : StringRuntime :=
  {| toLowerCase s :=
       (λ c, if ((65 <=? c) && (c <=? 90))%N then (c + 32)%N else c) <$> s;
     trimsToEmpty c :=
       ((9 <=? c) && (c <=? 13) || (c =? 32))%N |}.

(** The punctuation tokens that one chunk contributes. *)
Definition punct_of `{StringRuntime} (tk : WordTokenizer.t) (chunk : text)
    : list text :=
  if WordTokenizer.keepPunctuation tk
  then (λ c, [c]) <$> filter (λ c, trimsToEmpty c = false) chunk
  else [].

(** The tokens of the text itself, before the end-of-sentence token. *)
Definition token_body `{UnicodeTables} `{StringRuntime}
    (tk : WordTokenizer.t) (s : text) : list text :=
  let '(matches, tail) :=
    WordTokenizer.execWords (WordTokenizer.normalise tk s) [] in
  concat ((λ p, punct_of tk p.1 ++ [p.2]) <$> matches) ++ punct_of tk tail.

(** [new WordTokenizer()]: no option is given. *)
Definition no_options : WordTokenizer.TokenizerOptions :=
  {| WordTokenizer.o_lowercase := None;
     WordTokenizer.o_keepPunctuation := None;
     WordTokenizer.o_eosToken := None;
     WordTokenizer.o_normalizeYo := None;
     WordTokenizer.o_exceptionWords := None |}.

(** A character at which the token regex of [AdvancedTokenizer] cannot
    start a match. *)
Definition unmatched `{UnicodeTables} (c : N) : Prop :=
  isLetter c = false ∧ isNumber c = false ∧
  AdvancedTokenizer.isSentencePunct c = false.

(** A gap, the first match, a gap, the second match, ..., a last gap. *)
Definition interleave (gaps : list (list N))
    (matches : list AdvancedTokenizer.Match) (tail : list N) : list N :=
  concat (zip_with (λ gap m, gap ++ match_chars m) gaps matches) ++ tail.

(** NEWDEFS *)

(* ===================================================================== *)
(** * Properties *)
(* ===================================================================== *)

(** *** Keys are injective *)

Section keys.
Import NGramStore.

Lemma pretty_N_go_comma_free (x : N) (s : string) :
  comma_free s = true → comma_free (pretty_N_go x s) = true.
Proof.
  revert s. induction (N.lt_wf_0 x) as [x _ IH]. intros s Hs.
  destruct (decide (x = 0)%N) as [->|Hx].
  - by rewrite pretty_N_go_0.
  - rewrite pretty_N_go_step by lia.
    apply IH; [apply N.div_lt; lia|].
    cbn [comma_free]. rewrite Hs, andb_true_r.
    unfold pretty_N_char. by repeat case_match.
Qed.

Lemma pretty_N_go_nonempty (x : N) (s : string) :
  (0 < x)%N → pretty_N_go x s ≠ EmptyString.
Proof.
  revert s. induction (N.lt_wf_0 x) as [x _ IH]. intros s Hx.
  rewrite pretty_N_go_step by done.
  destruct (decide (x `div` 10 = 0)%N) as [->|Hd].
  - by rewrite pretty_N_go_0.
  - apply IH; [apply N.div_lt; lia | by apply N.neq_0_lt_0].
Qed.

Lemma pretty_nat_comma_free (n : nat) : comma_free (pretty n) = true.
Proof.
  unfold pretty, pretty_nat, pretty, pretty_N.
  case_decide; [done|]. by apply pretty_N_go_comma_free.
Qed.

Lemma pretty_nat_nonempty (n : nat) : pretty n ≠ EmptyString.
Proof.
  unfold pretty, pretty_nat, pretty, pretty_N.
  case_decide; [done|]. apply pretty_N_go_nonempty. lia.
Qed.

Lemma comma_split (a b r1 r2 : string) :
  comma_free a = true → comma_free b = true →
  (a +:+ String ","%char r1 = b +:+ String ","%char r2) → a = b ∧ r1 = r2.
Proof.
  revert b. induction a as [|c a IH]; intros [|d b] Ha Hb Heq; simpl in *.
  - by injection Heq as ->.
  - injection Heq as <- _. by rewrite Ascii.eqb_refl in Hb.
  - injection Heq as -> _. by rewrite Ascii.eqb_refl in Ha.
  - apply andb_true_iff in Ha as [_ Ha]. apply andb_true_iff in Hb as [_ Hb].
    injection Heq as -> Heq. destruct (IH b Ha Hb Heq) as [-> ->]. done.
Qed.

Lemma comma_free_no_split (a b r : string) :
  comma_free a = true → a ≠ b +:+ String ","%char r.
Proof.
  revert b. induction a as [|c a IH]; intros [|d b] Ha Heq; simpl in *;
    try discriminate.
  - injection Heq as -> _. by rewrite Ascii.eqb_refl in Ha.
  - injection Heq as -> Heq.
    apply andb_true_iff in Ha as [_ Ha]. by eapply IH.
Qed.

Lemma toKey_cons2 (x y : TokenID) (l : list TokenID) :
  toKey (x :: y :: l) = pretty x +:+ String ","%char (toKey (y :: l)).
Proof. reflexivity. Qed.

Lemma toKey_nonempty (x : TokenID) (l : list TokenID) :
  toKey (x :: l) ≠ EmptyString.
Proof.
  destruct l as [|y l].
  - apply pretty_nat_nonempty.
  - rewrite toKey_cons2. pose proof (pretty_nat_nonempty x).
    destruct (pretty x); naive_solver.
Qed.

Lemma toKey_inj (l1 l2 : list TokenID) : toKey l1 = toKey l2 → l1 = l2.
Proof.
  revert l2. induction l1 as [|x [|x' l1] IH]; intros [|y [|y' l2]] Heq;
    try done.
  - by destruct (toKey_nonempty y []).
  - by destruct (toKey_nonempty y (y' :: l2)).
  - symmetry in Heq. by destruct (toKey_nonempty x []).
  - f_equal. by apply (inj pretty).
  - rewrite toKey_cons2 in Heq.
    by destruct (comma_free_no_split (pretty x) (pretty y) (toKey (y' :: l2))
                   (pretty_nat_comma_free x)).
  - symmetry in Heq. by destruct (toKey_nonempty x (x' :: l1)).
  - rewrite toKey_cons2 in Heq. symmetry in Heq.
    by destruct (comma_free_no_split (pretty y) (pretty x) (toKey (x' :: l1))
                   (pretty_nat_comma_free y)).
  - rewrite !toKey_cons2 in Heq.
    apply comma_split in Heq as [Hxy Hrest];
      [|apply pretty_nat_comma_free..].
    apply (inj pretty) in Hxy as ->. f_equal. by apply IH.
Qed.

Lemma toKey_eq_iff (l1 l2 : list TokenID) : toKey l1 = toKey l2 ↔ l1 = l2.
Proof. split; [apply toKey_inj | by intros ->]. Qed.

End keys.

(** *** Effect of one insertion on the two tables *)

Section store_facts.
Import NGramStore.

Lemma getCount_increment (g g' : list TokenID) (s : t) :
  getCount (increment g s) g' =
  getCount s g' + (if decide (g = g') then 1 else 0).
Proof.
  unfold getCount, increment; simpl.
  destruct (decide (g = g')) as [->|Hne].
  - by rewrite lookup_insert_eq.
  - rewrite lookup_insert_ne; [lia|]. by rewrite toKey_eq_iff.
Qed.

Lemma totalTokens_increment (g : list TokenID) (s : t) :
  getTotalTokens (increment g s) =
  getTotalTokens s + (if decide (length g = 1) then 1 else 0).
Proof. unfold getTotalTokens, increment; simpl. case_decide; lia. Qed.

Lemma last_snoc_split (g : list TokenID) (c : TokenID) :
  last g = Some c → g = slice_init g ++ [c].
Proof.
  intros Hl. apply last_Some in Hl as [l' ->]. unfold slice_init.
  rewrite length_app; simpl.
  replace (length l' + 1 - 1) with (length l') by lia.
  by rewrite take_app_length.
Qed.

Lemma slice_init_snoc (C : list TokenID) (c : TokenID) :
  slice_init (C ++ [c]) = C.
Proof.
  unfold slice_init. rewrite length_app; simpl.
  replace (length C + 1 - 1) with (length C) by lia.
  by rewrite take_app_length.
Qed.

Lemma getCandidates_increment (g C : list TokenID) (c : TokenID) (s : t) :
  c ∈ getCandidates (increment g s) C ↔
  c ∈ getCandidates s C ∨ (1 < length g ∧ g = C ++ [c]).
Proof.
  unfold getCandidates, increment; simpl.
  destruct (decide (1 < length g)) as [Hlen|Hlen]; [|tauto].
  destruct (last g) as [cand|] eqn:Hlast; last first.
  { apply last_None in Hlast as ->. simpl in Hlen. lia. }
  pose proof (last_snoc_split g cand Hlast) as Hg.
  set (ck := toKey (slice_init g)).
  assert (Hcm : default ∅
            (match contextMap s !! ck with
             | Some _ => contextMap s
             | None => <[ck:=∅]> (contextMap s)
             end !! ck) = default ∅ (contextMap s !! ck)).
  { destruct (contextMap s !! ck) eqn:E; [by rewrite E|].
    by rewrite lookup_insert_eq. }
  destruct (decide (slice_init g = C)) as [HC|HC].
  - subst C. fold ck. rewrite lookup_insert_eq, Hcm. simpl.
    rewrite elem_of_union, elem_of_singleton. split.
    + intros [?| ->]; [by left|]. right. by rewrite <- Hg.
    + intros [?|[_ Heq]]; [by left|]. right.
      rewrite Heq in Hlast. rewrite last_snoc in Hlast. congruence.
  - rewrite lookup_insert_ne by (unfold ck; by rewrite toKey_eq_iff).
    assert (Hother : match contextMap s !! ck with
                     | Some _ => contextMap s
                     | None => <[ck:=∅]> (contextMap s)
                     end !! toKey C = contextMap s !! toKey C).
    { destruct (contextMap s !! ck); [done|].
      rewrite lookup_insert_ne; [done|]. unfold ck. by rewrite toKey_eq_iff. }
    rewrite Hother. split; [by left|].
    intros [?|[_ Heq]]; [done|]. destruct HC. rewrite Heq.
    apply slice_init_snoc.
Qed.

Lemma getCount_inserted (L : list (list TokenID)) (g : list TokenID) (s : t) :
  getCount (inserted L s) g =
  getCount s g + length (filter (λ g', g' = g) L).
Proof.
  revert s. induction L as [|g0 L IH]; intros s; simpl; [lia|].
  unfold inserted in *. simpl. rewrite IH, getCount_increment.
  rewrite filter_cons. case_decide; simpl; lia.
Qed.

Lemma totalTokens_inserted (L : list (list TokenID)) (s : t) :
  getTotalTokens (inserted L s) =
  getTotalTokens s + length (filter (λ g', length g' = 1) L).
Proof.
  revert s. induction L as [|g0 L IH]; intros s; simpl; [lia|].
  unfold inserted in *. simpl. rewrite IH, totalTokens_increment.
  rewrite filter_cons. case_decide; simpl; lia.
Qed.

Lemma getCandidates_inserted (L : list (list TokenID)) (C : list TokenID)
    (c : TokenID) (s : t) :
  c ∈ getCandidates (inserted L s) C ↔
  c ∈ getCandidates s C ∨ (C ≠ [] ∧ C ++ [c] ∈ L).
Proof.
  revert s. induction L as [|g0 L IH]; intros s.
  - simpl. rewrite elem_of_nil. tauto.
  - unfold inserted in *. simpl. rewrite IH, getCandidates_increment.
    rewrite elem_of_cons. split.
    + intros [[?|[Hlen ->]]|[? ?]]; [by left| |by right; split; [|right]].
      right. split; [|by left]. intros ->. simpl in Hlen. lia.
    + intros [?|[HC [<-|?]]]; [by left; left| |by right].
      left; right. split; [|done]. rewrite length_app. simpl.
      destruct C; [done|simpl; lia].
Qed.

End store_facts.

(** *** The training loops as a sequence of insertions *)

Section training.
Import NGramStore StupidBackoffModel.

Lemma foldl_ext {A B} (f g : A → B → A) (a : A) (l : list B) :
  (∀ a b, f a b = g a b) → foldl f a l = foldl g a l.
Proof.
  intros Hfg. revert a. induction l as [|b l IH]; intros a; simpl; [done|].
  by rewrite Hfg, IH.
Qed.

Lemma inserted_app (L1 L2 : list (list TokenID)) (s : NGramStore.t) :
  inserted (L1 ++ L2) s = inserted L2 (inserted L1 s).
Proof. unfold inserted. by rewrite foldl_app. Qed.

Lemma occurrences_app (g : list TokenID) (L1 L2 : list (list TokenID)) :
  occurrences g (L1 ++ L2) = occurrences g L1 + occurrences g L2.
Proof. unfold occurrences. by rewrite filter_app, length_app. Qed.

Lemma foldl_flat_map_inserted {A} (h : A → list (list TokenID)) (l : list A)
    (s : NGramStore.t) :
  foldl (λ s a, inserted (h a) s) s l = inserted (flat_map h l) s.
Proof.
  revert s. induction l as [|a l IH]; intros s; simpl; [done|].
  by rewrite IH, inserted_app.
Qed.

Lemma train_at_inserted (order : Z) (tokens : list TokenID)
    (s : NGramStore.t) (i : nat) :
  train_at order tokens s i = inserted (ngrams_at order tokens i) s.
Proof.
  unfold train_at, ngrams_at.
  rewrite <- (foldl_flat_map_inserted
    (λ k, if decide (i + 1 < k) then []
          else [slice (i + 1 - k) (i + 1) tokens])).
  apply foldl_ext. intros s' k. by case_decide.
Qed.

Lemma train_tokens_inserted (order : Z) (tokens : list TokenID)
    (s : NGramStore.t) :
  train_tokens order tokens s = inserted (ngrams_of order tokens) s.
Proof.
  unfold train_tokens, ngrams_of.
  rewrite <- foldl_flat_map_inserted.
  apply foldl_ext. intros s' i. apply train_at_inserted.
Qed.

Lemma getCount_train_tokens (order : Z) (tokens g : list TokenID)
    (s : NGramStore.t) :
  getCount (train_tokens order tokens s) g =
  getCount s g + occurrences g (ngrams_of order tokens).
Proof. rewrite train_tokens_inserted. apply getCount_inserted. Qed.

Lemma length_slice (a b : nat) (tokens : list TokenID) :
  a ≤ b → b ≤ length tokens → length (slice a b tokens) = b - a.
Proof.
  intros Hab Hb. unfold slice. rewrite length_take, length_drop. lia.
Qed.

(** At position [i] the inner loop inserts [g] at most once: when [g] is
    the window of its own length that ends at [i]. *)
Lemma occurrences_ngrams_at (order : Z) (tokens g : list TokenID) (i : nat) :
  i < length tokens →
  occurrences g (ngrams_at order tokens i) =
  if decide (1 ≤ length g ≤ Z.to_nat order ∧ length g ≤ i + 1 ∧
             slice (i + 1 - length g) (i + 1) tokens = g)
  then 1 else 0.
Proof.
  intros Hi. unfold ngrams_at. generalize (Z.to_nat order) as bound.
  intros bound. induction bound as [|bound IH].
  - simpl. case_decide; [lia|done].
  - rewrite seq_S, flat_map_app, occurrences_app, IH. simpl.
    rewrite app_nil_r.
    destruct (decide (i + 1 < S bound)) as [Hk|Hk].
    + unfold occurrences at 1; simpl. rewrite Nat.add_0_r.
      apply decide_ext. intuition lia.
    + unfold occurrences at 1. rewrite filter_cons, filter_nil.
      destruct (decide (slice (i + 1 - S bound) (i + 1) tokens = g))
        as [Hs|Hs].
      * assert (Hlen : length g = S bound).
        { rewrite <- Hs, length_slice; lia. }
        simpl. rewrite decide_False by lia.
        rewrite decide_True; [done|]. rewrite Hlen. split_and!; try lia. done.
      * simpl. rewrite Nat.add_0_r. apply decide_ext.
        split; [intuition lia|]. intros (Hn & Hl & Hg).
        destruct (decide (length g = S bound)) as [Heq|Hne].
        { destruct Hs. by rewrite <- Heq. }
        split_and!; [lia..|done].
Qed.

Lemma slice_prefix (tokens g : list TokenID) (c : TokenID) (i : nat) :
  length g ≤ i + 1 →
  slice (i + 2 - length (g ++ [c])) (i + 2) tokens = g ++ [c] →
  slice (i + 1 - length g) (i + 1) tokens = g.
Proof.
  rewrite length_app; simpl. intros Hlen Hs. unfold slice in *.
  replace (i + 2 - (length g + 1)) with (i + 1 - length g) in Hs by lia.
  replace (i + 2 - (i + 1 - length g)) with (S (length g)) in Hs by lia.
  replace (i + 1 - (i + 1 - length g)) with (length g) by lia.
  apply (f_equal (take (length g))) in Hs.
  rewrite take_take, take_app_length in Hs.
  by replace (length g `min` S (length g)) with (length g) in Hs by lia.
Qed.

Lemma occurrences_shift (order : Z) (tokens g : list TokenID) (c : TokenID)
    (i : nat) :
  g ≠ [] → S i < length tokens →
  occurrences (g ++ [c]) (ngrams_at order tokens (S i)) ≤
  occurrences g (ngrams_at order tokens i).
Proof.
  intros Hg Hi. rewrite !occurrences_ngrams_at by lia.
  destruct (decide (_ ∧ _ ∧ slice _ _ tokens = g ++ [c])) as [(Hn & Hl & Hs)|];
    [|lia].
  rewrite length_app in Hn, Hl; simpl in Hn, Hl.
  rewrite decide_True; [done|].
  assert (0 < length g) by (destruct g; [done|simpl; lia]).
  split_and!; try lia.
  apply (slice_prefix tokens g c i); [lia|].
  by replace (i + 2) with (S i + 1) by lia.
Qed.

Lemma occurrences_first (order : Z) (tokens g : list TokenID) (c : TokenID) :
  g ≠ [] → 0 < length tokens →
  occurrences (g ++ [c]) (ngrams_at order tokens 0) = 0.
Proof.
  intros Hg Hi. rewrite occurrences_ngrams_at by lia.
  rewrite decide_False; [done|]. rewrite length_app; simpl.
  assert (0 < length g) by (destruct g; [done|simpl; lia]). lia.
Qed.

Lemma occurrences_flat_map_shift (f : nat → list (list TokenID))
    (g g' : list TokenID) (a len : nat) :
  (∀ i, a ≤ i < a + len → occurrences g' (f (S i)) ≤ occurrences g (f i)) →
  occurrences g' (flat_map f (seq (S a) len)) ≤
  occurrences g (flat_map f (seq a len)).
Proof.
  revert a. induction len as [|len IH]; intros a Hf; simpl; [done|].
  rewrite !occurrences_app.
  specialize (IH (S a)). specialize (Hf a) as Ha.
  assert (∀ i, S a ≤ i < S a + len →
            occurrences g' (f (S i)) ≤ occurrences g (f i)) as Hf'.
  { intros i ?. apply Hf. lia. }
  specialize (IH Hf'). lia.
Qed.

(** Within one token array a window occurs no more often than the window
    without its last token. *)
Lemma occurrences_prefix (order : Z) (tokens g : list TokenID) (c : TokenID) :
  g ≠ [] →
  occurrences (g ++ [c]) (ngrams_of order tokens) ≤
  occurrences g (ngrams_of order tokens).
Proof.
  intros Hg. unfold ngrams_of.
  destruct (length tokens) as [|len] eqn:Hlen; [done|].
  change (seq 0 (S len)) with (0 :: seq 1 len) at 1.
  rewrite seq_S at 1. simpl.
  rewrite flat_map_app, !occurrences_app.
  rewrite occurrences_first by (done || lia).
  pose proof (occurrences_flat_map_shift (ngrams_at order tokens) g
                (g ++ [c]) 0 len) as Hshift.
  assert (∀ i, 0 ≤ i < 0 + len →
     occurrences (g ++ [c]) (ngrams_at order tokens (S i)) ≤
     occurrences g (ngrams_at order tokens i)) as Hf.
  { intros i ?. apply occurrences_shift; [done|lia]. }
  specialize (Hshift Hf). lia.
Qed.

Lemma getCount_prefix_train_tokens (order : Z) (tokens g : list TokenID)
    (c : TokenID) (s : NGramStore.t) :
  g ≠ [] →
  getCount s (g ++ [c]) ≤ getCount s g →
  getCount (train_tokens order tokens s) (g ++ [c]) ≤
  getCount (train_tokens order tokens s) g.
Proof.
  intros Hg Hs. rewrite !getCount_train_tokens.
  pose proof (occurrences_prefix order tokens g c Hg). lia.
Qed.

Lemma getCount_prefix_trained (order : Z) (tokss : list (list TokenID))
    (g : list TokenID) (c : TokenID) :
  g ≠ [] →
  getCount (trained_store order tokss) (g ++ [c]) ≤
  getCount (trained_store order tokss) g.
Proof.
  intros Hg. unfold trained_store.
  assert (Hbase : getCount NGramStore.create (g ++ [c]) ≤
                  getCount NGramStore.create g) by done.
  revert Hbase. generalize NGramStore.create as s.
  induction tokss as [|toks tokss IH]; intros s Hs; simpl; [done|].
  apply IH. by apply getCount_prefix_train_tokens.
Qed.

End training.

(** *** The tokenizer: words, vocabulary and stream shape *)

Section tokenizer_facts.
Context {U : UnicodeTables}.
Import AdvancedTokenizer.

Lemma matchAt_word (s : list N) (w r : list N) :
  matchAt s = Some (MWord w, r) → word_head_ok w.
Proof.
  destruct s as [|c s]; simpl; [done|].
  destruct (isLetter c) eqn:HL.
  - destruct (greedyTail s) as [[m' r']|].
    + intros [= <- <-]. exists c, m'. auto.
    + destruct (span isLetter s) as [m' r']. intros [= <- <-].
      exists c, m'. auto.
  - destruct (isNumber c) eqn:HN.
    + destruct (span isNumber s) as [m' r']. intros [= <- <-].
      exists c, m'. auto.
    + destruct (isSentencePunct c); [|done].
      by destruct (span isSentencePunct s).
Qed.

Lemma execAll_words (s : list N) :
  Forall (λ m, ∀ w, m = MWord w → word_head_ok w) (execAll s).
Proof.
  funelim (execAll s).
  - constructor.
  - constructor; [|assumption]. intros w ->. by eapply matchAt_word.
  - assumption.
Qed.

Lemma word_head_not_marker `{!TablesFacts U} (w : list N) :
  word_head_ok w → w ≠ BOS ∧ w ≠ EOS.
Proof.
  intros (c & w' & -> & Hc).
  split; intros [= -> _];
    rewrite lt_not_letter, lt_not_number in Hc; by destruct Hc.
Qed.

Lemma registerToken_spec (w : list N) (v : Vocab) :
  vocab_ok v →
  let '(id, v') := registerToken w v in
  vocab_ok v' ∧ idToWord v' !! id = Some w ∧ wordToId v' !! w = Some id ∧
  (∀ w' i, wordToId v !! w' = Some i → wordToId v' !! w' = Some i).
Proof.
  intros (Hcons & Hbos & Heos). unfold registerToken.
  destruct (wordToId v !! w) as [id|] eqn:Hw.
  - split; [by split|]. split; [by apply Hcons|]. by split.
  - simpl. split; [split; [|split]|split; [|split]]; simpl.
    + intros w' i. destruct (decide (w = w')) as [<-|Hne].
      * rewrite lookup_insert_eq. intros [= <-].
        by rewrite lookup_app_r, Nat.sub_diag.
      * rewrite lookup_insert_ne by done. intros Hi.
        apply Hcons in Hi. by apply lookup_app_l_Some.
    + by apply lookup_app_l_Some.
    + by apply lookup_app_l_Some.
    + by rewrite lookup_app_r, Nat.sub_diag.
    + by rewrite lookup_insert_eq.
    + intros w' i Hi. rewrite lookup_insert_ne; [done|]. congruence.
Qed.

Lemma create_ok (cfg : PartialConfig) : tokenizer_ok (create cfg).
Proof.
  unfold create, tokenizer_ok, vocab_ok, registerToken. simpl.
  rewrite lookup_empty; simpl.
  rewrite lookup_insert_ne by done. rewrite lookup_empty; simpl.
  rewrite !lookup_insert_ne by done. rewrite lookup_empty; simpl.
  split_and!; try done.
  intros w i. rewrite !lookup_insert, lookup_empty.
  repeat case_decide; intros [= <-]; by subst.
Qed.

Lemma step_ok `{!TablesFacts U} (tk : t) (st : LoopState) (m : Match) :
  BOS_ID tk = 1 → EOS_ID tk = 2 →
  (∀ w, m = MWord w → word_head_ok w) →
  loop_ok st → loop_ok (step tk st m).
Proof.
  intros Hb He Hm [Hv Hs]. destruct m as [w|p]; simpl.
  - destruct (_ <? _)%Z; [done|].
    pose proof (registerToken_spec w (voc st) Hv) as Hreg.
    destruct (registerToken w (voc st)) as [id v'].
    destruct Hreg as (Hv' & Hid & _ & _). split; simpl; [done|].
    destruct (word_head_not_marker w (Hm w eq_refl)) as [Hnb Hne].
    destruct Hv' as (_ & Hbos & Heos).
    apply (os_word _ (isSentenceStart st)); [exact Hs|..]; intros ->;
      congruence.
  - destruct (isSentenceStart st) eqn:Hflag; simpl.
    + split; [done|]. by rewrite Hflag.
    + split; simpl; [done|]. rewrite Hb, He. by apply os_punct.
Qed.

Lemma loop_ok_foldl `{!TablesFacts U} (tk : t) (ms : list Match)
    (st : LoopState) :
  BOS_ID tk = 1 → EOS_ID tk = 2 →
  Forall (λ m, ∀ w, m = MWord w → word_head_ok w) ms →
  loop_ok st → loop_ok (foldl (step tk) st ms).
Proof.
  intros Hb He Hms. revert st.
  induction Hms as [|m ms Hm _ IH]; intros st Hst; simpl; [done|].
  apply IH. by apply step_ok.
Qed.

(** Facts about an open stream. *)
Lemma open_stream_last (res : list TokenID) (b : bool) :
  open_stream res b →
  last res ≠ Some 2 ∧ (last res = Some 1 ↔ b = true).
Proof.
  induction 1 as [|res b id _ _ Hb He|res _ _].
  - done.
  - rewrite last_snoc. split; [congruence|]. split; [congruence|done].
  - rewrite (last_app_cons res [1] 2). done.
Qed.

Lemma open_stream_eos (res : list TokenID) (b : bool) (i : nat) :
  open_stream res b → res !! i = Some 2 → res !! S i = Some 1.
Proof.
  intros Hs. revert i.
  induction Hs as [|res b id _ IH Hb He|res _ IH]; intros i.
  - by destruct i as [|[|i]].
  - intros Hi. destruct (decide (i < length res)) as [Hlt|Hge].
    + rewrite lookup_app_l in Hi by done. specialize (IH i Hi).
      apply lookup_app_l_Some. done.
    + rewrite lookup_app_r in Hi by lia.
      destruct (i - length res) as [|k]; simpl in Hi; [congruence|done].
  - intros Hi. destruct (decide (i < length res)) as [Hlt|Hge].
    + rewrite lookup_app_l in Hi by done. specialize (IH i Hi).
      apply lookup_app_l_Some. done.
    + rewrite lookup_app_r in Hi by lia. rewrite lookup_app_r by lia.
      replace (S i - length res) with (S (i - length res)) by lia.
      by destruct (i - length res) as [|[|k]].
Qed.

(** What [closeStream] returns on an open stream: nothing, or a stream
    that was open inside a sentence and is closed by [EOS]. *)
Lemma closeStream_open (tk : t) (res : list TokenID) (b : bool) :
  BOS_ID tk = 1 → EOS_ID tk = 2 →
  open_stream res b →
  closeStream tk res = [] ∨
  ∃ p, open_stream p false ∧ closeStream tk res = p ++ [2].
Proof.
  intros Hb He Hs. unfold closeStream. rewrite Hb, He.
  destruct (open_stream_last res b Hs) as [Hne Hiff].
  destruct Hs as [|res b id Hs Hnb Hneos|res Hs].
  - left. rewrite decide_True by done. done.
  - right. exists (res ++ [id]).
    split; [by eapply os_word|].
    rewrite decide_False by (rewrite Hiff; done).
    by rewrite decide_True.
  - right. exists res. split; [done|].
    rewrite decide_True by (by rewrite Hiff).
    change [2; 1] with ([2] ++ [1]). rewrite app_assoc.
    by rewrite removelast_last.
Qed.

Lemma closed_of_open (p : list TokenID) :
  open_stream p false → stream_closed 1 2 (p ++ [2]).
Proof.
  intros Hs. split.
  - by rewrite last_snoc.
  - intros i Hi Hlen. rewrite length_app in Hlen; simpl in Hlen.
    rewrite lookup_app_l in Hi by lia.
    apply lookup_app_l_Some. by eapply open_stream_eos.
Qed.

Lemma tokenize_ok `{!TablesFacts U} (tk : t) (s : list N) :
  tokenizer_ok tk → tokenizer_ok (tokenize tk s).2.
Proof.
  intros (Hv & Hb & He). unfold tokenize, tokenizer_ok; simpl.
  split; [|done].
  apply (loop_ok_foldl tk); try done; [apply execAll_words|].
  split; simpl; [done|]. rewrite Hb. constructor.
Qed.

Lemma tokenizer_after_ok `{!TablesFacts U} (cfg : PartialConfig)
    (texts : list (list N)) :
  tokenizer_ok (tokenizer_after cfg texts).
Proof.
  unfold tokenizer_after. generalize (create_ok cfg).
  generalize (create cfg) as tk.
  induction texts as [|s texts IH]; intros tk Htk; simpl; [done|].
  apply IH. by apply tokenize_ok.
Qed.

Lemma tokenize_closed `{!TablesFacts U} (tk : t) (s : list N) :
  tokenizer_ok tk →
  (tokenize tk s).1 = [] ∨ stream_closed 1 2 (tokenize tk s).1.
Proof.
  intros (Hv & Hb & He). unfold tokenize; simpl.
  set (st0 := {| result := [BOS_ID tk]; isSentenceStart := true;
                 voc := vocab tk |}).
  assert (loop_ok (foldl (step tk) st0 (execAll (preprocessText (config tk) s))))
    as [_ Hopen].
  { apply loop_ok_foldl; try done; [apply execAll_words|].
    split; simpl; [done|]. rewrite Hb. constructor. }
  destruct (closeStream_open tk _ _ Hb He Hopen) as [->|(p & Hp & ->)];
    [by left|right]. by apply closed_of_open.
Qed.

Lemma preprocessText_nil `{!TablesFacts U} (cfg : TokenizerConfig) :
  preprocessText cfg [] = [].
Proof.
  unfold preprocessText. rewrite normalizeNFC_nil, toLocaleLowerCase_nil.
  by destruct (normalizeYo cfg).
Qed.

Lemma tokenize_empty `{!TablesFacts U} (tk : t) :
  tokenizer_ok tk → (tokenize tk []).1 = [].
Proof.
  intros (Hv & Hb & He). unfold tokenize; simpl.
  rewrite preprocessText_nil. simp execAll. simpl.
  unfold closeStream; simpl. by rewrite decide_True.
Qed.

End tokenizer_facts.

(** *** Tokenizing the same text again gives the same identifiers *)

Section tokenize_again.
Context {U : UnicodeTables}.
Import AdvancedTokenizer.

Lemma registerToken_lookup (w : list N) (v : Vocab) :
  wordToId (registerToken w v).2 !! w = Some (registerToken w v).1.
Proof.
  unfold registerToken. destruct (wordToId v !! w) eqn:Hw; simpl; [done|].
  by rewrite lookup_insert_eq.
Qed.

Lemma registerToken_mono (w w' : list N) (i : TokenID) (v : Vocab) :
  wordToId v !! w' = Some i → wordToId (registerToken w v).2 !! w' = Some i.
Proof.
  intros Hi. unfold registerToken.
  destruct (wordToId v !! w) eqn:Hw; simpl; [done|].
  rewrite lookup_insert_ne; [done|]. congruence.
Qed.

Lemma registerToken_known (w : list N) (v : Vocab) :
  is_Some (wordToId v !! w) → (registerToken w v).2 = v.
Proof. intros [i Hi]. unfold registerToken. by rewrite Hi. Qed.

Lemma step_mono (tk : t) (st : LoopState) (m : Match) (w : list N)
    (i : TokenID) :
  wordToId (voc st) !! w = Some i →
  wordToId (voc (step tk st m)) !! w = Some i.
Proof.
  intros Hi. destruct m as [w0|p]; simpl.
  - destruct (_ <? _)%Z; [done|].
    pose proof (registerToken_mono w0 w i (voc st) Hi) as Hm.
    by destruct (registerToken w0 (voc st)).
  - by destruct (negb _).
Qed.

Lemma foldl_step_mono (tk : t) (ms : list Match) (st : LoopState)
    (w : list N) (i : TokenID) :
  wordToId (voc st) !! w = Some i →
  wordToId (voc (foldl (step tk) st ms)) !! w = Some i.
Proof.
  revert st. induction ms as [|m ms IH]; intros st Hi; simpl; [done|].
  apply IH. by apply step_mono.
Qed.

Lemma foldl_step_registers (tk : t) (ms : list Match) (st : LoopState)
    (m : Match) (w : list N) :
  m ∈ ms → accepted tk m w →
  is_Some (wordToId (voc (foldl (step tk) st ms)) !! w).
Proof.
  revert st. induction ms as [|m0 ms IH]; intros st Hin [-> Hlen].
  - by apply elem_of_nil in Hin.
  - apply elem_of_cons in Hin as [<-|Hin]; simpl.
    + rewrite Hlen. pose proof (registerToken_lookup w (voc st)) as Hl.
      destruct (registerToken w (voc st)) as [id v']; simpl in *.
      eexists. apply foldl_step_mono. simpl. exact Hl.
    + by apply IH.
Qed.

Lemma foldl_step_known (tk : t) (ms : list Match) (st : LoopState) :
  (∀ m w, m ∈ ms → accepted tk m w → is_Some (wordToId (voc st) !! w)) →
  voc (foldl (step tk) st ms) = voc st.
Proof.
  revert st. induction ms as [|m0 ms IH]; intros st Hknown; simpl; [done|].
  assert (Hstep : voc (step tk st m0) = voc st).
  { destruct m0 as [w|p]; simpl.
    - destruct (_ <? _)%Z eqn:Hlen; [done|].
      pose proof (registerToken_known w (voc st)) as Hk.
      destruct (registerToken w (voc st)) as [id v']; simpl in *.
      apply Hk. apply (Hknown (MWord w)); [by left|done].
    - by destruct (negb _). }
  rewrite IH; [done|]. intros m w Hin Hacc. rewrite Hstep.
  apply (Hknown m); [by right|done].
Qed.

Lemma foldl_step_lookup (tk : t) (ms : list Match) (st : LoopState)
    (vF : Vocab) :
  (∀ w i, wordToId (voc (foldl (step tk) st ms)) !! w = Some i →
          wordToId vF !! w = Some i) →
  (result (foldl (step tk) st ms), isSentenceStart (foldl (step tk) st ms)) =
  foldl (lookup_step tk (λ w, default 0 (wordToId vF !! w)))
        (result st, isSentenceStart st) ms.
Proof.
  revert st. induction ms as [|m ms IH]; intros st HF; simpl; [done|].
  rewrite IH by done. f_equal.
  destruct m as [w|p]; simpl.
  - destruct (_ <? _)%Z eqn:Hlen; [done|].
    assert (Hfinal : wordToId vF !! w = Some (registerToken w (voc st)).1).
    { apply HF. simpl. rewrite Hlen.
      pose proof (registerToken_lookup w (voc st)) as Hl.
      destruct (registerToken w (voc st)) as [id v']; simpl in *.
      by apply foldl_step_mono. }
    rewrite Hfinal. by destruct (registerToken w (voc st)).
  - by destruct (negb _).
Qed.

Lemma step_same_settings (tk tk' : t) (st : LoopState) (m : Match) :
  config tk' = config tk → BOS_ID tk' = BOS_ID tk → EOS_ID tk' = EOS_ID tk →
  step tk' st m = step tk st m.
Proof. intros Hc Hb He. unfold step. by rewrite Hc, Hb, He. Qed.

Lemma second_run (tk : t) (ms : list Match) (st0 st0' : LoopState) :
  result st0' = result st0 → isSentenceStart st0' = isSentenceStart st0 →
  voc st0' = voc (foldl (step tk) st0 ms) →
  result (foldl (step tk) st0' ms) = result (foldl (step tk) st0 ms) ∧
  voc (foldl (step tk) st0' ms) = voc st0'.
Proof.
  intros Hres Hflag Hvoc.
  assert (Hkeep : voc (foldl (step tk) st0' ms) = voc st0').
  { apply foldl_step_known. intros m w Hin Hacc. rewrite Hvoc.
    by eapply foldl_step_registers. }
  split; [|done].
  assert (H1 := foldl_step_lookup tk ms st0 (voc st0')).
  assert (H2 := foldl_step_lookup tk ms st0' (voc st0')).
  rewrite Hres, Hflag in H2.
  assert (Hincl : ∀ w i,
            wordToId (voc (foldl (step tk) st0 ms)) !! w = Some i →
            wordToId (voc st0') !! w = Some i) by (by rewrite Hvoc).
  specialize (H1 Hincl). rewrite Hkeep in H2. specialize (H2 (λ _ _ H, H)).
  rewrite <- H1 in H2. by injection H2 as -> _.
Qed.

Lemma tokenize_twice (tk : t) (s : list N) :
  (tokenize (tokenize tk s).2 s).1 = (tokenize tk s).1.
Proof.
  unfold tokenize; simpl.
  set (ms := execAll (preprocessText (config tk) s)).
  set (st0 := {| result := [BOS_ID tk]; isSentenceStart := true;
                 voc := vocab tk |}).
  set (tk1 := {| vocab := voc (foldl (step tk) st0 ms); UNK_ID := UNK_ID tk;
                 BOS_ID := BOS_ID tk; EOS_ID := EOS_ID tk;
                 config := config tk |}).
  set (st0' := {| result := [BOS_ID tk]; isSentenceStart := true;
                  voc := voc (foldl (step tk) st0 ms) |}).
  assert (Hstep : foldl (step tk1) st0' ms = foldl (step tk) st0' ms).
  { apply foldl_ext. intros st m. by apply step_same_settings. }
  rewrite Hstep.
  destruct (second_run tk ms st0 st0') as [-> _]; done.
Qed.

End tokenize_again.

(* ===================================================================== *)
(** ** The claims about the n-gram store and Multiplicative Backoff *)
(* ===================================================================== *)

Section stupid_backoff_claims.
Context {U : UnicodeTables}.
Import NGramStore StupidBackoffModel.

Lemma train_fields (m : StupidBackoffModel.t) (s : list N) :
  store (train m s) =
    train_tokens (n m) (AdvancedTokenizer.tokenize (tokenizer m) s).1
      (store m) ∧
  tokenizer (train m s) = (AdvancedTokenizer.tokenize (tokenizer m) s).2 ∧
  n (train m s) = n m.
Proof.
  unfold train.
  by destruct (AdvancedTokenizer.tokenize (tokenizer m) s) as [tokens tk'].
Qed.

(** Every [train] call is a [train_tokens] on some token array. *)
Lemma trained_store_tokens (m : StupidBackoffModel.t) (texts : list (list N)) :
  ∃ tokss,
    store (trained m texts) =
    foldl (λ s tokens, train_tokens (n m) tokens s) (store m) tokss.
Proof.
  revert m. induction texts as [|s texts IH]; intros m; simpl.
  - by exists [].
  - destruct (IH (train m s)) as [tokss Htokss].
    unfold train in Htokss |- *.
    destruct (AdvancedTokenizer.tokenize (tokenizer m) s) as [tokens tk'].
    simpl in *. exists (tokens :: tokss). by rewrite Htokss.
Qed.

Lemma fresh_trained_store (order : Z) (cfg : AdvancedTokenizer.PartialConfig)
    (texts : list (list N)) :
  ∃ tokss, store (trained (fresh_model order cfg) texts) =
           trained_store order tokss.
Proof. apply (trained_store_tokens (fresh_model order cfg)). Qed.

(** C4, as stated, fails at the empty context: after inserting the unigram
    [5], token 5 followed the empty context, but the index of the empty
    context does not hold it. *)
Lemma C4_empty_context_counterexample : ¬ candidate_index_exact [[5]] [] 5.
Proof.
  unfold candidate_index_exact. intros [_ Hback].
  assert (Hin : [] ++ [5] ∈ [[5]]) by (by left).
  apply Hback in Hin. apply getCandidates_inserted in Hin as [Hin|[? _]].
  - unfold getCandidates, NGramStore.create in Hin; simpl in Hin.
    rewrite lookup_empty in Hin. simpl in Hin. by apply not_elem_of_empty in Hin.
  - done.
Qed.

(** C4 (amended): after every sequence of insertions into a new store, the
    candidate set of a non-empty context [x :: C] holds a token [c] if and
    only if the n-gram [x :: C ++ [c]] was inserted; the candidate set of
    the empty context is always empty (unigram insertions register
    nothing). *)
Theorem C4_candidates_of_nonempty_context (L : list (list TokenID))
    (x : TokenID) (C : list TokenID) (c : TokenID) :
  (c ∈ getCandidates (inserted L NGramStore.create) (x :: C) ↔
   (x :: C) ++ [c] ∈ L) ∧
  getCandidates (inserted L NGramStore.create) [] = ∅.
Proof.
  assert (Hnew : ∀ C', getCandidates NGramStore.create C' = ∅).
  { intros C'. unfold getCandidates, NGramStore.create; simpl.
    by rewrite lookup_empty. }
  split.
  - rewrite getCandidates_inserted, Hnew. split.
    + intros [Hin|[_ Hin]]; [by apply not_elem_of_empty in Hin|done].
    + intros Hin. by right.
  - apply set_eq. intros t0. rewrite getCandidates_inserted, Hnew.
    split; [intros [?|[? _]]; done|]. intros Hin.
    by apply not_elem_of_empty in Hin.
Qed.

(** C10: after any sequence of [train] calls on a new Stupid Backoff
    model, an n-gram of length at least 2 with a positive count has a
    context (the n-gram without its last token) whose count is at least as
    large, hence positive: the [countContext > 0] guard of [getScore]
    cannot fail when [countNgram > 0]. *)
Theorem C10_context_count_dominates (order : Z)
    (cfg : AdvancedTokenizer.PartialConfig) (texts : list (list N))
    (w : TokenID) (ctx : list TokenID) (c : TokenID) :
  let s := store (trained (fresh_model order cfg) texts) in
  0 < getCount s ((w :: ctx) ++ [c]) →
  getCount s ((w :: ctx) ++ [c]) ≤ getCount s (w :: ctx) ∧
  0 < getCount s (w :: ctx).
Proof.
  intros s Hpos. subst s.
  destruct (fresh_trained_store order cfg texts) as [tokss Hs].
  rewrite Hs in *.
  pose proof (getCount_prefix_trained order tokss (w :: ctx) c) as Hle.
  specialize (Hle ltac:(done)). lia.
Qed.

(** C2: for a model trained by any sequence of [train] calls, the score
    of a candidate is: with the empty context, count(unigram) /
    totalTokens, or 0 when nothing was observed; with a context of length
    at least 1, count(context+candidate) / count(context) when the n-gram
    was observed (the denominator is then at least the numerator), and 0.4
    times the score under the context without its oldest token
    otherwise.  An observed n-gram never takes the discounted branch. *)
Theorem C2_stupid_backoff_score (order : Z)
    (cfg : AdvancedTokenizer.PartialConfig) (texts : list (list N))
    (c : TokenID) :
  let s := store (trained (fresh_model order cfg) texts) in
  (ALPHA == 4 / 10)%Q ∧
  getScore s c [] =
    (if decide (getTotalTokens s = 0) then 0%Q
     else (QofNat (getCount s [c]) / QofNat (getTotalTokens s))%Q) ∧
  ∀ (w : TokenID) (ctx : list TokenID),
    getCount s ((w :: ctx) ++ [c]) ≤ getCount s (w :: ctx) ∧
    getScore s c (w :: ctx) =
      (if decide (0 < getCount s ((w :: ctx) ++ [c]))
       then (QofNat (getCount s ((w :: ctx) ++ [c])) /
             QofNat (getCount s (w :: ctx)))%Q
       else (ALPHA * getScore s c ctx)%Q).
Proof.
  intros s. split; [done|]. split.
  - simpl. repeat case_decide; (done || lia).
  - intros w ctx.
    assert (Hle : getCount s ((w :: ctx) ++ [c]) ≤ getCount s (w :: ctx)).
    { subst s. destruct (fresh_trained_store order cfg texts) as [tokss ->].
      by apply getCount_prefix_trained. }
    split; [done|].
    cbn [getScore]. destruct (decide (0 < _)) as [Hpos|Hzero]; [|done].
    rewrite decide_True; [done|lia].
Qed.

(** C9: on a new model, training twice on the same text leaves every
    n-gram count, and the unigram total, at exactly twice its value after
    one training. *)
Theorem C9_training_twice_doubles (order : Z)
    (cfg : AdvancedTokenizer.PartialConfig) (text : list N)
    (g : list TokenID) :
  let m1 := train (fresh_model order cfg) text in
  let m2 := train m1 text in
  getCount (store m2) g = 2 * getCount (store m1) g ∧
  getTotalTokens (store m2) = 2 * getTotalTokens (store m1).
Proof.
  intros m1 m2. subst m2 m1.
  destruct (train_fields (train (fresh_model order cfg) text) text)
    as (-> & _ & _).
  destruct (train_fields (fresh_model order cfg) text) as (-> & -> & ->).
  cbn [fresh_model new tokenizer store n].
  rewrite tokenize_twice.
  rewrite !getCount_train_tokens, !train_tokens_inserted,
    !totalTokens_inserted.
  unfold getCount, getTotalTokens, NGramStore.create; simpl.
  rewrite lookup_empty; simpl. lia.
Qed.

End stupid_backoff_claims.

(** Witnesses: the trigram model of the factory over the ASCII tables,
    trained on "a b c" (tokens [<S> a b c </S>] = [1; 3; 4; 5; 2]). *)
Lemma C10_context_count_dominates_witness :
  let s := StupidBackoffModel.store
             (StupidBackoffModel.trained (U := AsciiTables)
                (fresh_model 3 default_config) [text_of_string "a b c"]) in
  NGramStore.getCount s [3; 4] ≤ NGramStore.getCount s [3] ∧
  0 < NGramStore.getCount s [3].
Proof.
  apply (C10_context_count_dominates (U := AsciiTables) 3 default_config
           [text_of_string "a b c"] 3 [] 4).
  vm_compute. lia.
Defined.

(* ===================================================================== *)
(** ** The claims about the tokenizer *)
(* ===================================================================== *)

Section tokenizer_claims.
Import AdvancedTokenizer.

(** C5: for every input string, in whatever state earlier calls left the
    vocabulary, the token sequence returned by [tokenize] does not end with
    the BOS marker, every EOS marker other than the final token is
    immediately followed by a BOS marker, and the empty input yields the
    empty sequence or [BOS, EOS] (the code yields the empty sequence). *)
Theorem C5_tokenizer_boundary_closure (U : UnicodeTables)
    (facts : TablesFacts U) (cfg : PartialConfig) (texts : list (list N))
    (s : list N) :
  let tk := tokenizer_after cfg texts in
  stream_closed (BOS_ID tk) (EOS_ID tk) (tokenize tk s).1 ∧
  ((tokenize tk []).1 = [] ∨ (tokenize tk []).1 = [BOS_ID tk; EOS_ID tk]).
Proof.
  intros tk.
  pose proof (tokenizer_after_ok cfg texts) as Hok. fold tk in Hok.
  split.
  - destruct (tokenize_closed tk s Hok) as [Hnil|Hc].
    + rewrite Hnil. split; [done|]. intros i Hi. by rewrite lookup_nil in Hi.
    + destruct Hok as (_ & Hb & He). by rewrite Hb, He.
  - left. by apply tokenize_empty.
Qed.

Lemma C5_tokenizer_boundary_closure_witness :
  let tk := tokenizer_after (U := AsciiTables) default_config
              [text_of_string "Hi."] in
  stream_closed (BOS_ID tk) (EOS_ID tk)
    (tokenize (U := AsciiTables) tk (text_of_string "Hello, world! Bye")).1 ∧
  ((tokenize (U := AsciiTables) tk []).1 = [] ∨
   (tokenize (U := AsciiTables) tk []).1 = [BOS_ID tk; EOS_ID tk]).
Proof.
  exact (C5_tokenizer_boundary_closure AsciiTables
           (Build_TablesFacts AsciiTables eq_refl eq_refl eq_refl eq_refl)
           default_config [text_of_string "Hi."]
           (text_of_string "Hello, world! Bye")).
Defined.

(** The length filter looks at the length of a word only, never at its
    characters: a short word leaves the loop state as it was, whether it
    is a run of letters or of digits. *)
Lemma short_word_is_skipped {U : UnicodeTables} (tk : t) (st : LoopState)
    (w : list N) :
  (Z.of_nat (utf16_length w) < minWordLength (config tk))%Z →
  step tk st (MWord w) = st.
Proof. intros Hlt. simpl. by rewrite (proj2 (Z.ltb_lt _ _) Hlt). Qed.

(** C7, evaluated where it fails: with a minimum word length of 3 the text
    "5 cats." yields [<S> cats </S>]; the one-digit number 5 is dropped by
    the length filter like any other short word and is not registered,
    although the comment above the filter exempts digits.  The accepted
    word is registered under the identifier that is emitted. *)
Theorem C7_short_digit_run_is_filtered :
  let tk := create {| p_normalizeYo := None; p_minWordLength := Some 3%Z |} in
  let out := tokenize (U := AsciiTables) tk (text_of_string "5 cats.") in
  execAll (U := AsciiTables)
    (preprocessText (U := AsciiTables) (config tk) (text_of_string "5 cats."))
  = [MWord (text_of_string "5"); MWord (text_of_string "cats");
     MPunct (text_of_string ".")] ∧
  out.1 = [BOS_ID tk; 3; EOS_ID tk] ∧
  getWord out.2 3 = text_of_string "cats" ∧
  wordToId (vocab out.2) !! text_of_string "cats" = Some 3 ∧
  wordToId (vocab out.2) !! text_of_string "5" = None.
Proof. vm_compute. by repeat split. Qed.

End tokenizer_claims.

(* ===================================================================== *)
(** ** Exclusion Backoff ([PPMModel]) *)
(* ===================================================================== *)

Section jsmap_facts.
Context {V : Type}.

Lemma jsmap_get_set_eq (m : list (string * V)) (k : string) (v : V) :
  jsmap_get (jsmap_set m k v) k = Some v.
Proof.
  induction m as [|[k' v'] m IH]; simpl.
  - by rewrite String.eqb_refl.
  - destruct (String.eqb k' k) eqn:E; simpl; by rewrite E.
Qed.

Lemma jsmap_get_set_ne (m : list (string * V)) (k k' : string) (v : V) :
  k ≠ k' → jsmap_get (jsmap_set m k v) k' = jsmap_get m k'.
Proof.
  intros Hne. induction m as [|[k0 v0] m IH]; simpl.
  - by apply String.eqb_neq in Hne as ->.
  - destruct (String.eqb k0 k) eqn:E; simpl.
    + apply String.eqb_eq in E as ->. by apply String.eqb_neq in Hne as ->.
    + by rewrite IH.
Qed.

End jsmap_facts.

Lemma jsset_has_add (s : list string) (k k' : string) :
  jsset_has (jsset_add s k) k' = jsset_has s k' || String.eqb k k'.
Proof.
  unfold jsset_add, jsset_has.
  destruct (existsb (String.eqb k) s) eqn:E.
  - destruct (String.eqb k k') eqn:Ek; [|by rewrite orb_false_r].
    apply String.eqb_eq in Ek as <-. by rewrite E.
  - rewrite existsb_app. simpl. by rewrite orb_false_r, String.eqb_sym.
Qed.

Section exclusion_backoff.
Import PPMModel.

(** The loop over the counts of a node, token by token: a token of the
    node that was not excluded gains [count / (total + distinct) * weight];
    every token of the node is excluded afterwards; all else is
    untouched. *)
Lemma distribute_entries (denominator : nat) (weight : Q)
    (entries : list (string * nat)) (results : list (string * Q))
    (excluded : list string) :
  let step := λ '(results, excluded) '(token, count),
      if jsset_has excluded token then (results, excluded)
      else
        (jsmap_set results token
           (default 0%Q (jsmap_get results token) +
            QofNat count / QofNat denominator * weight)%Q,
         jsset_add excluded token) in
  let out := foldl step (results, excluded) entries in
  (∀ tok, jsmap_get out.1 tok =
          match jsmap_get entries tok with
          | Some count =>
              if jsset_has excluded tok then jsmap_get results tok
              else Some (default 0%Q (jsmap_get results tok) +
                         QofNat count / QofNat denominator * weight)%Q
          | None => jsmap_get results tok
          end) ∧
  (∀ tok, jsset_has out.2 tok =
          jsset_has excluded tok ||
          bool_decide (is_Some (jsmap_get entries tok))).
Proof.
  intros step. revert results excluded.
  induction entries as [|[k count] entries IH]; intros results excluded.
  - simpl. split; intros tok; [done|]. by rewrite orb_false_r.
  - cbn [foldl].
    assert (Hs : step (results, excluded) (k, count) =
              if jsset_has excluded k then (results, excluded)
              else (jsmap_set results k
                      (default 0%Q (jsmap_get results k) +
                       QofNat count / QofNat denominator * weight)%Q,
                    jsset_add excluded k)) by done.
    rewrite Hs. clear Hs.
    destruct (jsset_has excluded k) eqn:Hk.
    + destruct (IH results excluded) as [IHr IHe]. split; intros tok.
      * rewrite IHr. simpl. destruct (String.eqb k tok) eqn:E; [|done].
        apply String.eqb_eq in E as <-. rewrite Hk.
        by destruct (jsmap_get entries k).
      * rewrite IHe. simpl. destruct (String.eqb k tok) eqn:E; [|done].
        apply String.eqb_eq in E as <-. rewrite Hk. done.
    + set (results1 := jsmap_set results k _).
      destruct (IH results1 (jsset_add excluded k)) as [IHr IHe].
      split; intros tok.
      * rewrite IHr, jsset_has_add. simpl.
        destruct (String.eqb k tok) eqn:E.
        -- apply String.eqb_eq in E as <-. rewrite orb_true_r.
           unfold results1. rewrite jsmap_get_set_eq, Hk.
           by destruct (jsmap_get entries k).
        -- apply String.eqb_neq in E. rewrite orb_false_r.
           unfold results1. by rewrite !jsmap_get_set_ne.
      * rewrite IHe, jsset_has_add. simpl.
        destruct (String.eqb k tok) eqn:E.
        -- by rewrite !orb_true_r.
        -- by rewrite orb_false_r.
Qed.

Lemma distribute_spec (node : ContextNode) (weight : Q)
    (results : list (string * Q)) (excluded : list string) :
  let out := distribute node weight (results, excluded) in
  (∀ tok, jsmap_get out.1 tok =
          match jsmap_get (counts node) tok with
          | Some count =>
              if jsset_has excluded tok then jsmap_get results tok
              else Some (default 0%Q (jsmap_get results tok) +
                         QofNat count /
                         QofNat (totalCount node + distinctCount node) *
                         weight)%Q
          | None => jsmap_get results tok
          end) ∧
  (∀ tok, jsset_has out.2 tok =
          jsset_has excluded tok ||
          bool_decide (is_Some (jsmap_get (counts node) tok))).
Proof.
  apply (distribute_entries (totalCount node + distinctCount node) weight
           (counts node) results excluded).
Qed.

End exclusion_backoff.

Section exclusion_backoff_claims.
Import PPMModel.

(** A token that is excluded is not touched by the order -1 level. *)
Lemma handleOrderMinusOne_excluded (m : t) (results : list (string * Q))
    (excluded : list string) (weight : Q) (tok : string) :
  jsset_has excluded tok = true →
  jsmap_get (handleOrderMinusOne m results excluded weight) tok =
  jsmap_get results tok.
Proof.
  intros Hex. unfold handleOrderMinusOne.
  destruct (_ <=? 0)%Z; [done|].
  generalize (weight / inject_Z
                (Z.of_nat (length (vocabulary m)) -
                 Z.of_nat (length excluded)))%Q as p.
  intros p. revert results.
  induction (vocabulary m) as [|k l IH]; intros results; simpl; [done|].
  rewrite IH. destruct (jsset_has excluded k) eqn:Hk; [done|].
  apply jsmap_get_set_ne. intros ->. congruence.
Qed.

(** The exclusion principle: a token that is excluded keeps its score and
    stays excluded through all lower levels. *)
Lemma calculate_excluded (cutoff : Q) (m : t) (ctx : list string)
    (results : list (string * Q)) (excluded : list string) (weight : Q)
    (tok : string) :
  jsset_has excluded tok = true →
  let out :=
    calculateProbabilitiesRecursive cutoff m ctx results excluded weight in
  jsmap_get out.1 tok = jsmap_get results tok ∧ jsset_has out.2 tok = true.
Proof.
  revert results excluded weight.
  induction ctx as [|w0 ctx IH]; intros results excluded weight Hex;
    cbn [calculateProbabilitiesRecursive].
  - destruct (Qltb weight cutoff); [done|]. cbn [findNode].
    destruct (distribute_spec (root m) weight results excluded) as [Hr He].
    destruct (distribute (root m) weight (results, excluded)) as [r' e'].
    simpl in *.
    assert (Hex' : jsset_has e' tok = true) by (by rewrite He, Hex).
    split; [|done].
    rewrite handleOrderMinusOne_excluded by done. rewrite Hr, Hex.
    by destruct (jsmap_get (counts (root m)) tok).
  - destruct (Qltb weight cutoff); [done|].
    destruct (findNode (root m) (w0 :: ctx)) as [node|]; [|by apply IH].
    destruct (distribute_spec node weight results excluded) as [Hr He].
    destruct (distribute node weight (results, excluded)) as [r' e'].
    simpl in *.
    assert (Hex' : jsset_has e' tok = true) by (by rewrite He, Hex).
    destruct (IH r' e' (weight * escapeProb node)%Q Hex') as [IHr IHe].
    split; [|done]. rewrite IHr, Hr, Hex.
    by destruct (jsmap_get (counts node) tok).
Qed.

(** What one level gives: at a context whose node exists, a token of the
    node that is not excluded has, in the final result, its earlier score
    plus [count / (total + distinct) * weight], and is excluded. *)
Lemma calculate_level (cutoff : Q) (m : t) (ctx : list string)
    (results : list (string * Q)) (excluded : list string) (weight : Q)
    (node : ContextNode) (tok : string) (count : nat) :
  Qltb weight cutoff = false →
  findNode (root m) ctx = Some node →
  jsmap_get (counts node) tok = Some count →
  jsset_has excluded tok = false →
  let out :=
    calculateProbabilitiesRecursive cutoff m ctx results excluded weight in
  jsmap_get out.1 tok =
    Some (default 0 (jsmap_get results tok) +
          QofNat count / QofNat (totalCount node + distinctCount node) *
          weight)%Q ∧
  jsset_has out.2 tok = true.
Proof.
  intros Hcut Hnode Hcount Hex.
  destruct (distribute_spec node weight results excluded) as [Hr He].
  specialize (Hr tok). specialize (He tok).
  rewrite Hcount, Hex in Hr. rewrite Hcount, Hex in He. simpl in He.
  destruct ctx as [|w0 ctx]; cbn [calculateProbabilitiesRecursive];
    rewrite Hcut.
  - cbn [findNode] in *. injection Hnode as <-.
    destruct (distribute (root m) weight (results, excluded)) as [r' e'].
    simpl in *. split; [|done].
    by rewrite handleOrderMinusOne_excluded.
  - rewrite Hnode.
    destruct (distribute node weight (results, excluded)) as [r' e'].
    simpl in *.
    destruct (calculate_excluded cutoff m ctx r' e'
                (weight * escapeProb node)%Q tok He) as [Hkeep Hin].
    split; [|done]. by rewrite Hkeep.
Qed.

(** C6: in Exclusion Backoff, at a context [w :: ctx] whose node has [t]
    observations and [d] distinct continuations, the denominator is
    [t + d].  In the result of the call, every token of the node that was
    not excluded has gained [count / (t + d) * weight] and is excluded,
    and every token that was excluded has the score it had.  The
    recursion goes on at [ctx] (the context without its oldest token) with
    weight [weight * d / (t + d)]: a token that the node does not have
    gains, at the node of [ctx], its share of that smaller weight.  When
    no node matches, the recursion goes on at [ctx] with the weight
    unchanged, and the node of [ctx] hands out shares of the full weight.
    For [t = 3] and [d = 2] the escape probability is 2/5 and a token
    gets [count / 5 * weight].  (A call is assumed not to be cut off by
    the weight threshold.) *)
Theorem C6_exclusion_backoff_step (cutoff : Q) (m : t) (w : string)
    (ctx : list string) (results : list (string * Q))
    (excluded : list string) (weight : Q) :
  Qltb weight cutoff = false →
  let out :=
    calculateProbabilitiesRecursive cutoff m (w :: ctx) results excluded
      weight in
  (∀ tok, jsset_has excluded tok = true →
          jsmap_get out.1 tok = jsmap_get results tok ∧
          jsset_has out.2 tok = true) ∧
  (∀ node, findNode (root m) (w :: ctx) = Some node →
     let t := totalCount node in
     let d := distinctCount node in
     let escaped := (weight * (QofNat d / QofNat (t + d)))%Q in
     (∀ tok count,
        jsmap_get (counts node) tok = Some count →
        jsset_has excluded tok = false →
        jsmap_get out.1 tok =
          Some (default 0 (jsmap_get results tok) +
                QofNat count / QofNat (t + d) * weight)%Q ∧
        jsset_has out.2 tok = true) ∧
     (∀ node' tok count',
        findNode (root m) ctx = Some node' →
        Qltb escaped cutoff = false →
        jsmap_get (counts node) tok = None →
        jsset_has excluded tok = false →
        jsmap_get (counts node') tok = Some count' →
        jsmap_get out.1 tok =
          Some (default 0 (jsmap_get results tok) +
                QofNat count' /
                QofNat (totalCount node' + distinctCount node') *
                escaped)%Q) ∧
     out =
       calculateProbabilitiesRecursive cutoff m ctx
         (distribute node weight (results, excluded)).1
         (distribute node weight (results, excluded)).2 escaped ∧
     (t = 3 → d = 2 →
      (QofNat d / QofNat (t + d) == 2 # 5)%Q ∧
      ∀ count, (QofNat count / QofNat (t + d) * weight ==
                QofNat count / 5 * weight)%Q)) ∧
  (findNode (root m) (w :: ctx) = None →
     out =
       calculateProbabilitiesRecursive cutoff m ctx results excluded
         weight ∧
     ∀ node' tok count',
       findNode (root m) ctx = Some node' →
       jsset_has excluded tok = false →
       jsmap_get (counts node') tok = Some count' →
       jsmap_get out.1 tok =
         Some (default 0 (jsmap_get results tok) +
               QofNat count' /
               QofNat (totalCount node' + distinctCount node') *
               weight)%Q).
Proof.
  intros Hcut out. split_and!.
  - intros tok Hex. by apply calculate_excluded.
  - intros node Hnode tt d escaped.
    assert (Hstep : out =
              calculateProbabilitiesRecursive cutoff m ctx
                (distribute node weight (results, excluded)).1
                (distribute node weight (results, excluded)).2 escaped).
    { subst out. cbn [calculateProbabilitiesRecursive].
      rewrite Hcut, Hnode.
      by destruct (distribute node weight (results, excluded)). }
    split_and!.
    + intros tok count Hcount Hex.
      by apply (calculate_level cutoff m (w :: ctx) results excluded weight
                  node tok count).
    + intros node' tok count' Hnode' Hcut' Hnone Hex Hcount'.
      rewrite Hstep.
      destruct (distribute_spec node weight results excluded) as [Hr He].
      specialize (Hr tok). specialize (He tok).
      rewrite Hnone in Hr. rewrite Hnone, Hex in He. simpl in He.
      destruct (calculate_level cutoff m ctx
                  (distribute node weight (results, excluded)).1
                  (distribute node weight (results, excluded)).2
                  escaped node' tok count'
                  Hcut' Hnode' Hcount' He) as [Hlevel _].
      by rewrite Hlevel, Hr.
    + exact Hstep.
    + intros Ht Hd. subst tt d. rewrite Ht, Hd. split; [done|].
      intros count. done.
  - intros Hnone.
    assert (Hstep : out =
              calculateProbabilitiesRecursive cutoff m ctx results excluded
                weight).
    { subst out. cbn [calculateProbabilitiesRecursive].
      by rewrite Hcut, Hnone. }
    split; [exact Hstep|].
    intros node' tok count' Hnode' Hex Hcount'. rewrite Hstep.
    apply (calculate_level cutoff m ctx results excluded weight node' tok
             count' Hcut Hnode' Hcount' Hex).
Qed.

(** A witness: the model of order 1 trained on [a b a c a b]; the node of
    context [a] has counts b:2, c:1, so [t = 3] and [d = 2], and the root
    has counts a:3, b:2, c:1.  In the result of the call at [a], [b] has
    2/5 of the weight and [a], which only the root has, 3/9 of the
    escaped 2/5. *)
Lemma C6_exclusion_backoff_step_witness :
  let m := train (new (Some 1%Z)) ["a"; "b"; "a"; "c"; "a"; "b"]%string in
  let out :=
    calculateProbabilitiesRecursive WEIGHT_CUTOFF m ["a"%string] [] [] 1 in
  jsmap_get out.1 "b"%string =
    Some (0 + QofNat 2 / QofNat (3 + 2) * 1)%Q ∧
  jsmap_get out.1 "a"%string =
    Some (0 + QofNat 3 / QofNat (6 + 3) *
              (1 * (QofNat 2 / QofNat (3 + 2))))%Q.
Proof.
  intros m out.
  destruct (C6_exclusion_backoff_step WEIGHT_CUTOFF m "a"%string [] [] []
              1%Q eq_refl) as (_ & Hnode & _).
  destruct (Hnode
              {| counts := [("b"%string, 2); ("c"%string, 1)];
                 children := [];
                 totalCount := 3 |} eq_refl) as (Hgain & Hnext & _).
  split.
  - exact (proj1 (Hgain "b"%string 2 eq_refl eq_refl)).
  - exact (Hnext (root m) "a"%string 3 eq_refl eq_refl eq_refl eq_refl
             eq_refl).
Defined.

(** C1, evaluated where it fails: for the model trained on [the cat sat]
    and the context [the], with the cutoff disabled (and also with the
    cutoff of the source), the scores over the vocabulary sum to 2/3, not
    to 1.  The counts of excluded tokens stay in the denominator of the
    lower order, and the escape mass of the root finds no token left. *)
Theorem C1_scores_sum_to_two_thirds :
  let prediction := predict_with 0 the_cat_sat ["the"%string] in
  vocabulary the_cat_sat = ["the"; "cat"; "sat"]%string ∧
  (mass_over (vocabulary the_cat_sat) prediction == 2 # 3)%Q ∧
  (total_mass prediction == 2 # 3)%Q ∧
  ¬ (mass_over (vocabulary the_cat_sat) prediction == 1)%Q ∧
  predict the_cat_sat ["the"%string] = prediction.
Proof. vm_compute. repeat split; discriminate. Qed.

(** C3, as stated, fails: the top suggestion after [the] is [cat], but its
    score is not 1. *)
Lemma C3_top1_score_counterexample :
  ¬ top1_is (predict the_cat_sat ["the"%string]) "cat" 1.
Proof. vm_compute. intros [_ H]. discriminate H. Qed.

(** C3 (amended): for the model of order 2 trained once on [the cat sat],
    [predict] with context [the] returns [cat] as the first suggestion,
    with score 1/2 (count 1 over total 1 + distinct 1). *)
Theorem C3_top1_is_cat_with_half :
  top1_is (predict the_cat_sat ["the"%string]) "cat" (1 # 2).
Proof. vm_compute. by split. Qed.

End exclusion_backoff_claims.

(* ===================================================================== *)
(** ** Construction *)
(* ===================================================================== *)

(** C8, evaluated where it fails: [PPM] rejects the orders 0 and -2, but
    the constructors of [StupidBackoffModel] and of
    [PPMModel] store an order of 0 and return a model. *)
Theorem C8_order_zero_is_accepted :
  PPM.new (Some 0%Z) = inl "Order must be > 0"%string ∧
  PPM.new (Some (-2)%Z) = inl "Order must be > 0"%string ∧
  StupidBackoffModel.n
    (StupidBackoffModel.new 0 (AdvancedTokenizer.create default_config)
       NGramStore.create) = 0%Z ∧
  PPMModel.maxOrder (PPMModel.new (Some 0%Z)) = 0%Z ∧
  BlendPPMModel.maxOrder (BlendPPMModel.new (Some 0%Z)) = 0%Z.
Proof. by repeat split. Qed.

(* ===================================================================== *)
(** * Further properties of the store and of training *)
(* ===================================================================== *)

Section store_more.
Import NGramStore StupidBackoffModel.

(** X1: insert and look up.  After any sequence of insertions into a new
    store, [getCount] of an n-gram is the number of times that n-gram was
    inserted (0 when it never was), and [getTotalTokens] is the number of
    inserted n-grams of length 1. *)
Theorem X1_count_is_number_of_insertions (L : list (list TokenID))
    (g : list TokenID) :
  getCount (inserted L NGramStore.create) g = occurrences g L ∧
  getTotalTokens (inserted L NGramStore.create) =
    length (filter (λ g', length g' = 1) L).
Proof.
  rewrite getCount_inserted, totalTokens_inserted.
  unfold getCount, getTotalTokens, NGramStore.create; simpl.
  by rewrite lookup_empty.
Qed.

Lemma occurrences_pos (g : list TokenID) (L : list (list TokenID)) :
  0 < occurrences g L ↔ g ∈ L.
Proof.
  unfold occurrences. induction L as [|g0 L IH].
  - simpl. rewrite elem_of_nil. lia.
  - rewrite filter_cons, elem_of_cons. case_decide; simpl.
    + subst. split; [by left|lia].
    + rewrite IH. split; [by right|]. intros [?|?]; [by subst|done].
Qed.

(** X2: the candidate index agrees with the counts.  After any sequence
    of insertions into a new store, a token is a candidate of a non-empty
    context exactly when the context followed by the token has a positive
    count. *)
Theorem X2_candidate_iff_positive_count (L : list (list TokenID))
    (x : TokenID) (C : list TokenID) (c : TokenID) :
  c ∈ getCandidates (inserted L NGramStore.create) (x :: C) ↔
  0 < getCount (inserted L NGramStore.create) ((x :: C) ++ [c]).
Proof.
  rewrite getCandidates_inserted, getCount_inserted.
  unfold getCandidates, getCount, NGramStore.create; simpl.
  rewrite !lookup_empty; simpl. rewrite <- occurrences_pos. unfold occurrences.
  split.
  - intros [H|[_ H]]; [by apply not_elem_of_empty in H|done].
  - intros H. right. by split.
Qed.

Lemma occurrences_flat_map_indicator (f : nat → list (list TokenID))
    (P : nat → Prop) `{!∀ i, Decision (P i)} (g : list TokenID)
    (l : list nat) :
  (∀ i, i ∈ l → occurrences g (f i) = if decide (P i) then 1 else 0) →
  occurrences g (flat_map f l) = length (filter P l).
Proof.
  induction l as [|i l IH]; intros Hf; simpl; [done|].
  rewrite occurrences_app, filter_cons, Hf by (by left).
  rewrite IH by (intros j Hj; apply Hf; by right).
  by case_decide.
Qed.

Lemma filter_seq_none (P : nat → Prop) `{!∀ i, Decision (P i)} (a n : nat) :
  (∀ i, a ≤ i < a + n → ¬ P i) → filter P (seq a n) = [].
Proof.
  revert a. induction n as [|n IH]; intros a HP; simpl; [done|].
  rewrite filter_cons, decide_False by (apply HP; lia).
  apply IH. intros i ?. apply HP. lia.
Qed.

Lemma filter_seq_shift (P Q : nat → Prop) `{!∀ i, Decision (P i)}
    `{!∀ i, Decision (Q i)} (a b n : nat) :
  (∀ j, j < n → P (a + j) ↔ Q (b + j)) →
  length (filter P (seq a n)) = length (filter Q (seq b n)).
Proof.
  revert a b. induction n as [|n IH]; intros a b HPQ; simpl; [done|].
  rewrite !filter_cons.
  assert (P a ↔ Q b) as Hhead.
  { specialize (HPQ 0). rewrite !Nat.add_0_r in HPQ. apply HPQ. lia. }
  assert (length (filter P (seq (S a) n)) = length (filter Q (seq (S b) n)))
    as Hrest.
  { apply IH. intros j Hj. specialize (HPQ (S j)).
    replace (S a + j) with (a + S j) by lia.
    replace (S b + j) with (b + S j) by lia. apply HPQ. lia. }
  destruct (decide (P a)), (decide (Q b)); simpl; tauto || lia.
Qed.

(** The windows of [tokens] that spell [g], counted by their last
    position and by their first position. *)
Lemma windows_by_start (g tokens : list TokenID) :
  1 ≤ length g →
  length (filter (λ i, length g ≤ i + 1 ∧
                       slice (i + 1 - length g) (i + 1) tokens = g)
                 (seq 0 (length tokens))) =
  window_count g tokens.
Proof.
  intros Hm. unfold window_count.
  destruct (decide (length g ≤ length tokens)) as [Hle|Hgt].
  - replace (length tokens) with
      ((length g - 1) + (length tokens + 1 - length g)) at 1 by lia.
    rewrite seq_app, filter_app, length_app.
    match goal with
    | |- length (filter ?P (seq 0 (length g - 1))) + _ = _ =>
        rewrite (filter_seq_none P 0 (length g - 1))
          by (intros i Hi [Hl _]; lia)
    end.
    simpl. apply filter_seq_shift. intros j Hj. unfold slice.
    replace (length g - 1 + j + 1 - length g) with (0 + j) by lia.
    replace (length g - 1 + j + 1 - (0 + j)) with (length g) by lia.
    split; [by intros [_ ?]|]. intros ?. split; [lia|done].
  - replace (length tokens + 1 - length g) with 0 by lia. simpl.
    rewrite filter_seq_none; [done|]. intros i Hi [Hl Hs].
    apply (f_equal length) in Hs. rewrite length_slice in Hs; lia.
Qed.

Lemma unigrams_ngrams_at (order : Z) (tokens : list TokenID) (i : nat) :
  i < length tokens →
  length (filter (λ g', length g' = 1) (ngrams_at order tokens i)) =
  if decide (1 ≤ order)%Z then 1 else 0.
Proof.
  intros Hi. unfold ngrams_at.
  assert (Hgen : ∀ bound,
    length (filter (λ g', length g' = 1)
              (flat_map (λ k, if decide (i + 1 < k) then []
                              else [slice (i + 1 - k) (i + 1) tokens])
                        (seq 1 bound))) =
    if decide (1 ≤ bound) then 1 else 0).
  { induction bound as [|bound IH]; [done|].
    rewrite seq_S, flat_map_app, filter_app, length_app, IH. simpl.
    rewrite app_nil_r. destruct (decide (i + 1 < S bound)) as [Hk|Hk].
    - simpl. repeat case_decide; lia.
    - rewrite filter_cons, filter_nil.
      rewrite length_slice by lia.
      repeat case_decide; simpl; lia. }
  rewrite Hgen. repeat case_decide; lia.
Qed.

Lemma unigrams_ngrams_of (order : Z) (tokens : list TokenID) :
  length (filter (λ g', length g' = 1) (ngrams_of order tokens)) =
  if decide (1 ≤ order)%Z then length tokens else 0.
Proof.
  unfold ngrams_of.
  assert (Hgen : ∀ l : list nat, (∀ i, i ∈ l → i < length tokens) →
    length (filter (λ g', length g' = 1)
              (flat_map (ngrams_at order tokens) l)) =
    if decide (1 ≤ order)%Z then length l else 0).
  { induction l as [|i l IH]; intros Hl; simpl; [by case_decide|].
    rewrite filter_app, length_app, unigrams_ngrams_at by (apply Hl; by left).
    rewrite IH by (intros j Hj; apply Hl; by right).
    case_decide; lia. }
  rewrite Hgen, length_seq; [done|]. intros i Hi.
  apply elem_of_seq in Hi. lia.
Qed.

(** X3: what one training pass stores.  Training on a token array adds to
    the count of every n-gram [g] of length 1 to [order] the number of
    windows of the array that spell [g], and leaves every other count as
    it was (nothing longer than [order], and never the empty n-gram, is
    stored); the unigram total grows by the length of the array when
    [order >= 1]. *)
Theorem X3_training_counts_windows (order : Z) (tokens g : list TokenID)
    (s : NGramStore.t) :
  getCount (train_tokens order tokens s) g =
    getCount s g +
    (if decide (1 ≤ length g ≤ Z.to_nat order)
     then window_count g tokens else 0) ∧
  getTotalTokens (train_tokens order tokens s) =
    getTotalTokens s + (if decide (1 ≤ order)%Z then length tokens else 0).
Proof.
  split.
  - rewrite getCount_train_tokens. f_equal. unfold ngrams_of.
    rewrite (occurrences_flat_map_indicator _
      (λ i, 1 ≤ length g ≤ Z.to_nat order ∧ length g ≤ i + 1 ∧
            slice (i + 1 - length g) (i + 1) tokens = g)).
    + destruct (decide (1 ≤ length g ≤ Z.to_nat order)) as [Hlen|Hlen].
      * rewrite <- windows_by_start by lia. f_equal.
        apply list_filter_iff. intros i. tauto.
      * rewrite filter_seq_none; [done|]. intros i _ [? _]. done.
    + intros i Hi. apply elem_of_seq in Hi.
      apply occurrences_ngrams_at. lia.
  - rewrite train_tokens_inserted, totalTokens_inserted.
    by rewrite unigrams_ngrams_of.
Qed.

End store_more.

Section score_bounds.
Context {U : UnicodeTables}.
Import NGramStore StupidBackoffModel.

Lemma trained_store_inserted (order : Z) (tokss : list (list TokenID)) :
  trained_store order tokss =
  inserted (flat_map (ngrams_of order) tokss) NGramStore.create.
Proof.
  unfold trained_store. generalize NGramStore.create as s.
  induction tokss as [|toks tokss IH]; intros s; simpl; [done|].
  by rewrite IH, train_tokens_inserted, inserted_app.
Qed.

Lemma filter_length_le {A} (P Q : A → Prop) `{!∀ x, Decision (P x)}
    `{!∀ x, Decision (Q x)} (l : list A) :
  (∀ x, P x → Q x) → length (filter P l) ≤ length (filter Q l).
Proof.
  intros HPQ. induction l as [|x l IH]; simpl; [done|].
  rewrite !filter_cons.
  destruct (decide (P x)) as [HP|HP], (decide (Q x)) as [HQ|HQ]; simpl;
    try lia. destruct HQ. by apply HPQ.
Qed.

Lemma unigram_count_le_total (L : list (list TokenID)) (c : TokenID) :
  getCount (inserted L NGramStore.create) [c] ≤
  getTotalTokens (inserted L NGramStore.create).
Proof.
  rewrite getCount_inserted, totalTokens_inserted.
  unfold getCount, getTotalTokens, NGramStore.create; simpl.
  rewrite lookup_empty; simpl.
  apply filter_length_le. by intros g' ->.
Qed.

Lemma QofNat_ratio_bounds (a b : nat) :
  a ≤ b → 0 < b → (0 <= QofNat a / QofNat b <= 1)%Q.
Proof.
  intros Hab Hb. unfold QofNat.
  assert (0 < inject_Z (Z.of_nat b))%Q as Hb'.
  { change 0%Q with (inject_Z 0). rewrite <- Zlt_Qlt. lia. }
  assert (0 <= inject_Z (Z.of_nat a))%Q as Ha'.
  { change 0%Q with (inject_Z 0). rewrite <- Zle_Qle. lia. }
  assert (inject_Z (Z.of_nat a) <= inject_Z (Z.of_nat b))%Q as Hab'.
  { rewrite <- Zle_Qle. lia. }
  split.
  - apply Qle_shift_div_l; [done|]. by rewrite Qmult_0_l.
  - apply Qle_shift_div_r; [done|]. by rewrite Qmult_1_l.
Qed.

(** X4: for a model trained by any sequence of [train] calls, every
    Multiplicative Backoff score lies between 0 and 1, for every candidate
    and every context. *)
Theorem X4_score_between_0_and_1 (order : Z)
    (cfg : AdvancedTokenizer.PartialConfig) (texts : list (list N))
    (c : TokenID) (ctx : list TokenID) :
  let s := store (trained (fresh_model order cfg) texts) in
  (0 <= getScore s c ctx <= 1)%Q.
Proof.
  intros s.
  assert (Hs : ∃ L, s = inserted L NGramStore.create).
  { subst s. destruct (fresh_trained_store order cfg texts) as [tokss ->].
    eexists. apply trained_store_inserted. }
  assert (Hprefix : ∀ w ctx', getCount s ((w :: ctx') ++ [c]) ≤
                              getCount s (w :: ctx')).
  { intros w ctx'. subst s.
    destruct (fresh_trained_store order cfg texts) as [tokss ->].
    by apply getCount_prefix_trained. }
  destruct Hs as [L HL].
  induction ctx as [|w ctx IH].
  - cbn [getScore]. case_decide; [|done].
    apply QofNat_ratio_bounds; [|done].
    rewrite HL. apply unigram_count_le_total.
  - cbn [getScore]. destruct (decide (0 < _)) as [Hpos|Hzero].
    + specialize (Hprefix w ctx). rewrite decide_True by lia.
      apply QofNat_ratio_bounds; [done|lia].
    + unfold ALPHA. destruct IH as [IH0 IH1]. split; lra.
Qed.

End score_bounds.

(* ===================================================================== *)
(** * Sorting by score *)
(* ===================================================================== *)

Section sorting.
Context {A : Type} (score : A → Q).

Lemma Qltb_true (a b : Q) : PPMModel.Qltb a b = true ↔ (a < b)%Q.
Proof.
  unfold PPMModel.Qltb. rewrite negb_true_iff.
  destruct (Qle_bool b a) eqn:E.
  - apply Qle_bool_iff in E. split; [done|]. intros Hlt.
    by apply Qlt_not_le in Hlt.
  - split; [intros _|done]. apply Qnot_le_lt. intros Hle.
    apply Qle_bool_iff in Hle. congruence.
Qed.

Lemma Qltb_false (a b : Q) : PPMModel.Qltb a b = false ↔ (b <= a)%Q.
Proof.
  unfold PPMModel.Qltb. rewrite negb_false_iff. apply Qle_bool_iff.
Qed.

Lemma insert_by_score_perm (x : A) (l : list A) :
  insert_by_score score x l ≡ₚ x :: l.
Proof.
  induction l as [|y l IH]; simpl; [done|].
  destruct (PPMModel.Qltb _ _); [|done].
  rewrite IH. apply Permutation_swap.
Qed.

Lemma sort_by_score_perm (l : list A) : sort_by_score score l ≡ₚ l.
Proof.
  induction l as [|x l IH]; simpl; [done|].
  fold (sort_by_score score l). by rewrite insert_by_score_perm, IH.
Qed.

Lemma insert_by_score_sorted (x : A) (l : list A) :
  StronglySorted (by_score_desc score) l →
  StronglySorted (by_score_desc score) (insert_by_score score x l).
Proof.
  induction 1 as [|y l Hs IH Hy]; simpl.
  - by repeat constructor.
  - destruct (PPMModel.Qltb (score x) (score y)) eqn:E.
    + constructor; [done|].
      rewrite Forall_forall. intros z Hz.
      rewrite insert_by_score_perm in Hz.
      apply elem_of_cons in Hz as [->|Hz].
      * apply Qltb_true in E. by apply Qlt_le_weak.
      * rewrite Forall_forall in Hy. by apply Hy.
    + apply Qltb_false in E. constructor; [by constructor|].
      constructor; [done|].
      rewrite Forall_forall in *. intros z Hz.
      unfold by_score_desc in *. specialize (Hy z Hz).
      by apply (Qle_trans _ (score y)).
Qed.

Lemma sort_by_score_sorted (l : list A) :
  StronglySorted (by_score_desc score) (sort_by_score score l).
Proof.
  induction l as [|x l IH]; simpl; [constructor|].
  by apply insert_by_score_sorted.
Qed.

Lemma StronglySorted_take (R : A → A → Prop) (k : nat) (l : list A) :
  StronglySorted R l → StronglySorted R (take k l).
Proof.
  intros Hs. revert k. induction Hs as [|x l Hs IH Hx]; intros [|k]; simpl;
    try constructor; [done|].
  rewrite Forall_forall in *. intros y Hy. apply Hx.
  rewrite <- (take_drop k l). apply elem_of_app. by left.
Qed.

Lemma js_slice_to_is_take (stop : Z) (l : list A) :
  ∃ k, js_slice_to stop l = take k l.
Proof. unfold js_slice_to. destruct (_ <? _)%Z; eauto. Qed.

Lemma js_slice_to_length (stop : Z) (l : list A) :
  (0 ≤ stop)%Z → length (js_slice_to stop l) ≤ Z.to_nat stop.
Proof.
  intros Hs. unfold js_slice_to.
  rewrite (proj2 (Z.ltb_ge stop 0) Hs), length_take. lia.
Qed.

End sorting.

(* ===================================================================== *)
(** * [predict] of the Stupid Backoff model *)
(* ===================================================================== *)

Section predictor_facts.
Context {U : UnicodeTables}.
Import Predictor.

Lemma list_to_set_oset_add (l : list TokenID) (x : TokenID) :
  list_to_set (oset_add l x) =@{gset TokenID} list_to_set l ∪ {[x]}.
Proof.
  unfold oset_add. case_decide.
  - apply set_eq. intros y. rewrite elem_of_union, elem_of_singleton,
      !elem_of_list_to_set. split; [by left|]. intros [?| ->]; done.
  - rewrite list_to_set_app_L. simpl. by rewrite union_empty_r_L.
Qed.

(** The ordered store refines the store: forgetting the order commutes
    with every operation. *)
Lemma forget_increment (g : list TokenID) (s : OrderedStore.t) :
  OrderedStore.forget (OrderedStore.increment g s) =
  NGramStore.increment g (OrderedStore.forget s).
Proof.
  unfold OrderedStore.forget, OrderedStore.increment, NGramStore.increment.
  simpl. f_equal.
  destruct (decide (1 < length g)); [|done].
  destruct (last g) as [candidate|]; [|done].
  set (ck := NGramStore.toKey (NGramStore.slice_init g)).
  rewrite lookup_fmap.
  destruct (OrderedStore.contextMap s !! ck) as [cands|] eqn:Hck; simpl.
  - rewrite fmap_insert, Hck, lookup_fmap, Hck. simpl.
    f_equal. exact (list_to_set_oset_add cands candidate).
  - rewrite !fmap_insert, !lookup_insert_eq. simpl.
    f_equal; set_solver.
Qed.

Lemma forget_train_tokens (order : Z) (tokens : list TokenID)
    (s : OrderedStore.t) :
  OrderedStore.forget (train_tokens order tokens s) =
  StupidBackoffModel.train_tokens order tokens (OrderedStore.forget s).
Proof.
  unfold train_tokens, StupidBackoffModel.train_tokens.
  revert s. induction (seq 0 (length tokens)) as [|i l IH]; intros s;
    simpl; [done|].
  rewrite IH. f_equal. unfold StupidBackoffModel.train_at.
  generalize (seq 1 (Z.to_nat order)) as ks. clear IH.
  intros ks. revert s. induction ks as [|k ks IHk]; intros s; simpl; [done|].
  rewrite IHk. f_equal. case_decide; [done|]. apply forget_increment.
Qed.

Lemma forget_train (m : Predictor.t) (s : list N) :
  Predictor.forget (train m s) =
  StupidBackoffModel.train (Predictor.forget m) s.
Proof.
  unfold train, StupidBackoffModel.train, Predictor.forget. simpl.
  destruct (AdvancedTokenizer.tokenize (tokenizer m) s) as [tokens tk'].
  simpl. by rewrite forget_train_tokens.
Qed.

Lemma getCandidates_forget (s : OrderedStore.t) (C : list TokenID)
    (c : TokenID) :
  c ∈ OrderedStore.getCandidates s C ↔
  c ∈ NGramStore.getCandidates (OrderedStore.forget s) C.
Proof.
  unfold OrderedStore.getCandidates, NGramStore.getCandidates,
    OrderedStore.forget. simpl. rewrite lookup_fmap.
  destruct (OrderedStore.contextMap s !! NGramStore.toKey C); simpl.
  - by rewrite elem_of_list_to_set.
  - by rewrite elem_of_nil, elem_of_empty.
Qed.

Lemma elem_of_foldl_oset_add (acc found : list TokenID) (c : TokenID) :
  c ∈ foldl oset_add acc found ↔ c ∈ acc ∨ c ∈ found.
Proof.
  revert acc. induction found as [|x found IH]; intros acc; simpl.
  - rewrite elem_of_nil. tauto.
  - rewrite IH, elem_of_cons. unfold oset_add. case_decide.
    + split; [tauto|]. intros [?|[->|?]]; tauto.
    + rewrite elem_of_app, list_elem_of_singleton. tauto.
Qed.

Lemma elem_of_collectCandidates (s : OrderedStore.t) (ctx acc : list TokenID)
    (c : TokenID) :
  c ∈ collectCandidates s ctx acc ↔
  c ∈ acc ∨ ∃ σ, σ `suffix_of` ctx ∧ c ∈ OrderedStore.getCandidates s σ.
Proof.
  revert acc. induction ctx as [|w ctx IH]; intros acc; simpl.
  - rewrite elem_of_foldl_oset_add. split.
    + intros [?|?]; [by left|]. right. by exists [].
    + intros [?|(σ & Hσ & Hc)]; [by left|]. right.
      by apply suffix_nil_inv in Hσ as ->.
  - rewrite IH, elem_of_foldl_oset_add. split.
    + intros [[?|?]|(σ & Hσ & Hc)]; [by left| |].
      * right. by exists (w :: ctx).
      * right. exists σ. split; [by apply suffix_cons_r|done].
    + intros [?|(σ & Hσ & Hc)]; [by left; left|].
      destruct σ as [|x σ].
      { right. exists []. split; [apply suffix_nil|done]. }
      apply suffix_cons_inv in Hσ as [[= -> ->]|Hσ].
      * by left; right.
      * right. by exists (x :: σ).
Qed.

Lemma forget_trained (order : Z) (cfg : AdvancedTokenizer.PartialConfig)
    (texts : list (list N)) :
  Predictor.forget (trained order cfg texts) =
  StupidBackoffModel.trained (fresh_model order cfg) texts.
Proof.
  unfold trained, StupidBackoffModel.trained.
  change (fresh_model order cfg) with
    (Predictor.forget
       (new order (AdvancedTokenizer.create cfg) OrderedStore.create)).
  generalize (new order (AdvancedTokenizer.create cfg) OrderedStore.create)
    as m.
  induction texts as [|s texts IH]; intros m; simpl; [done|].
  by rewrite IH, forget_train.
Qed.

Lemma trained_store_is_inserted (order : Z)
    (cfg : AdvancedTokenizer.PartialConfig) (texts : list (list N)) :
  ∃ L, OrderedStore.forget (store (trained order cfg texts)) =
       NGramStore.inserted L NGramStore.create.
Proof.
  pose proof (forget_trained order cfg texts) as Hf.
  apply (f_equal StupidBackoffModel.store) in Hf. simpl in Hf. rewrite Hf.
  destruct (fresh_trained_store order cfg texts) as [tokss ->].
  eexists. apply trained_store_inserted.
Qed.

(** X5: what [predict] returns.  For a model trained by any sequence of
    [train] calls, the suggestions come in order of decreasing score,
    there are at most [topK] of them (for [topK >= 0]), and every
    suggestion is the word and the score of a token that followed some
    non-empty suffix of the query context in the training text (the
    suffix followed by the token has a positive count). *)
Theorem X5_predict_suggestions (order : Z)
    (cfg : AdvancedTokenizer.PartialConfig) (texts : list (list N))
    (inputText : list N) (topK : Z) :
  let m := trained order cfg texts in
  let tokens := (AdvancedTokenizer.tokenize (tokenizer m) inputText).1 in
  let tk' := (AdvancedTokenizer.tokenize (tokenizer m) inputText).2 in
  let context := predictContext (n m) (AdvancedTokenizer.EOS_ID tk') tokens in
  let s := OrderedStore.forget (store m) in
  let out := (predict m inputText topK).1 in
  StronglySorted (by_score_desc snd) out ∧
  ((topK < 0)%Z ∨ length out ≤ Z.to_nat topK) ∧
  ∀ word score, (word, score) ∈ out →
    ∃ c σ, σ ≠ [] ∧ σ `suffix_of` context ∧
           0 < NGramStore.getCount s (σ ++ [c]) ∧
           word = AdvancedTokenizer.getWord tk' c ∧
           score = StupidBackoffModel.getScore s c context.
Proof.
  intros m tokens tk' context s out.
  assert (Hout : out =
    js_slice_to topK (sort_by_score snd
      ((λ c, (AdvancedTokenizer.getWord tk' c,
              StupidBackoffModel.getScore s c context)) <$>
       collectCandidates (store m) context []))).
  { subst out tk' tokens context s. unfold predict.
    by destruct (AdvancedTokenizer.tokenize (tokenizer m) inputText). }
  rewrite Hout. split; [|split].
  - destruct (js_slice_to_is_take topK
      (sort_by_score snd
        ((λ c, (AdvancedTokenizer.getWord tk' c,
                StupidBackoffModel.getScore s c context)) <$>
         collectCandidates (store m) context []))) as [k ->].
    apply StronglySorted_take, sort_by_score_sorted.
  - destruct (decide (topK < 0)%Z); [by left|right].
    apply js_slice_to_length. lia.
  - intros word score Hin.
    destruct (js_slice_to_is_take topK
      (sort_by_score snd
        ((λ c, (AdvancedTokenizer.getWord tk' c,
                StupidBackoffModel.getScore s c context)) <$>
         collectCandidates (store m) context []))) as [k Hk].
    rewrite Hk in Hin.
    assert (Hin' : (word, score) ∈
              (λ c, (AdvancedTokenizer.getWord tk' c,
                     StupidBackoffModel.getScore s c context)) <$>
              collectCandidates (store m) context []).
    { rewrite <- (sort_by_score_perm snd).
      rewrite <- (take_drop k (sort_by_score _ _)).
      apply elem_of_app. by left. }
    apply list_elem_of_fmap in Hin' as (c & [= -> ->] & Hc).
    apply elem_of_collectCandidates in Hc as [Hc|(σ & Hσ & Hc)];
      [by apply elem_of_nil in Hc|].
    apply getCandidates_forget in Hc. fold s in Hc.
    destruct (trained_store_is_inserted order cfg texts) as [L HL].
    fold m in HL. fold s in HL. rewrite HL in Hc |- *.
    apply getCandidates_inserted in Hc as [Hc|[Hne Hc]].
    { unfold NGramStore.getCandidates, NGramStore.create in Hc.
      simpl in Hc. rewrite lookup_empty in Hc.
      by apply elem_of_empty in Hc. }
    exists c, σ. split_and!; try done.
    rewrite getCount_inserted. apply occurrences_pos in Hc.
    unfold occurrences in Hc. lia.
Qed.

(** X6: a model whose store is empty (never trained, or trained only on
    texts without words) suggests nothing, whatever the query. *)
Theorem X6_predict_with_empty_store (order : Z) (tk : AdvancedTokenizer.t)
    (inputText : list N) (topK : Z) :
  (predict (new order tk OrderedStore.create) inputText topK).1 = [].
Proof.
  unfold predict; simpl.
  destruct (AdvancedTokenizer.tokenize tk inputText) as [tokens tk'].
  assert (Hnone : ∀ ctx acc,
            collectCandidates OrderedStore.create ctx acc = acc).
  { induction ctx as [|w ctx IH]; intros acc; simpl; [done|]. apply IH. }
  rewrite Hnone. simpl. unfold js_slice_to.
  destruct (_ <? _)%Z; [done|]. by rewrite take_nil.
Qed.

End predictor_facts.

(* ===================================================================== *)
(** * Further properties of the tokenizer *)
(* ===================================================================== *)

Section tokenizer_more.
Context {U : UnicodeTables}.
Import AdvancedTokenizer.

Lemma registerToken_full (w : list N) (v : Vocab) :
  vocab_full v → vocab_full (registerToken w v).2.
Proof.
  intros (Hbij & H0 & H1 & H2). unfold registerToken.
  destruct (wordToId v !! w) as [id|] eqn:Hw; simpl; [done|].
  split; [|split_and!; by apply lookup_app_l_Some].
  intros w' i. simpl. destruct (decide (w = w')) as [<-|Hne].
  - rewrite lookup_insert_eq. split.
    + intros [= <-]. by rewrite lookup_app_r, Nat.sub_diag.
    + intros Hi. f_equal.
      destruct (decide (i < length (idToWord v))) as [Hlt|Hge].
      * rewrite lookup_app_l in Hi by done. apply Hbij in Hi. congruence.
      * rewrite lookup_app_r in Hi by lia.
        destruct (i - length (idToWord v)) as [|k] eqn:Hk; [lia|].
        by destruct k.
  - rewrite lookup_insert_ne by done. rewrite Hbij. split.
    + by apply lookup_app_l_Some.
    + intros Hi.
      destruct (decide (i < length (idToWord v))) as [Hlt|Hge].
      * by rewrite lookup_app_l in Hi.
      * rewrite lookup_app_r in Hi by lia.
        destruct (i - length (idToWord v)) as [|[|k]]; simpl in Hi;
          congruence.
Qed.

Lemma step_full (tk : t) (st : LoopState) (m : Match) :
  vocab_full (voc st) → vocab_full (voc (step tk st m)).
Proof.
  intros Hv. destruct m as [w|p]; simpl.
  - destruct (_ <? _)%Z; [done|].
    pose proof (registerToken_full w (voc st) Hv).
    by destruct (registerToken w (voc st)).
  - by destruct (negb _).
Qed.

Lemma foldl_step_full (tk : t) (ms : list Match) (st : LoopState) :
  vocab_full (voc st) → vocab_full (voc (foldl (step tk) st ms)).
Proof.
  revert st. induction ms as [|m ms IH]; intros st Hv; simpl; [done|].
  by apply IH, step_full.
Qed.

Lemma create_full (cfg : PartialConfig) : tokenizer_full (create cfg).
Proof.
  unfold create, tokenizer_full, vocab_full, registerToken. simpl.
  rewrite lookup_empty; simpl.
  rewrite lookup_insert_ne by done. rewrite lookup_empty; simpl.
  rewrite !lookup_insert_ne by done. rewrite lookup_empty; simpl.
  split_and!; try done.
  intros w i. rewrite !lookup_insert, lookup_empty. split.
  - repeat case_decide; intros [= <-]; by subst.
  - destruct i as [|[|[|i]]]; simpl; intros [= <-]; try done.
Qed.

Lemma tokenize_full (tk : t) (s : list N) :
  tokenizer_full tk → tokenizer_full (tokenize tk s).2.
Proof.
  intros (Hv & H0 & H1 & H2). unfold tokenize, tokenizer_full; simpl.
  split; [|done]. by apply foldl_step_full.
Qed.

Lemma tokenizer_after_full (cfg : PartialConfig) (texts : list (list N)) :
  tokenizer_full (tokenizer_after cfg texts).
Proof.
  unfold tokenizer_after. generalize (create_full cfg).
  generalize (create cfg) as tk.
  induction texts as [|s texts IH]; intros tk Htk; simpl; [done|].
  by apply IH, tokenize_full.
Qed.

(** X7: the two directions of the vocabulary are inverse to each other.
    In every state that [tokenize] calls can reach from a new tokenizer:
    [getWord] of a registered word's identifier is the word; [getId] of
    the word of an identifier below the vocabulary size is the
    identifier; an unregistered word has identifier [UNK_ID = 0]; an
    identifier at or beyond the vocabulary size reads as [<UNK>]; and 0, 1,
    2 are [<UNK>], [<S>], [</S>]. *)
Theorem X7_vocabulary_round_trip (cfg : PartialConfig)
    (texts : list (list N)) :
  let tk := tokenizer_after cfg texts in
  (∀ w id, wordToId (vocab tk) !! w = Some id →
           getId tk w = id ∧ getWord tk id = w ∧ id < getVocabSize tk) ∧
  (∀ id, id < getVocabSize tk → getId tk (getWord tk id) = id) ∧
  (∀ w, wordToId (vocab tk) !! w = None → getId tk w = 0) ∧
  (∀ id, getVocabSize tk ≤ id → getWord tk id = UNK) ∧
  getWord tk 0 = UNK ∧ getWord tk 1 = BOS ∧ getWord tk 2 = EOS.
Proof.
  intros tk.
  destruct (tokenizer_after_full cfg texts) as ((Hbij & H0 & H1 & H2) & Hu & _).
  fold tk in Hbij, H0, H1, H2, Hu.
  unfold getId, getWord, getVocabSize. split_and!.
  - intros w id Hw. rewrite Hw. simpl.
    apply Hbij in Hw as Hi. rewrite Hi. split_and!; try done.
    by eapply lookup_lt_Some.
  - intros id Hlt. apply lookup_lt_is_Some_2 in Hlt as [w Hw].
    rewrite Hw. simpl. apply Hbij in Hw. by rewrite Hw.
  - intros w Hw. by rewrite Hw.
  - intros id Hge. by rewrite lookup_ge_None_2.
  - by rewrite H0.
  - by rewrite H1.
  - by rewrite H2.
Qed.

End tokenizer_more.

Lemma X7_vocabulary_round_trip_witness :
  let tk := tokenizer_after (U := AsciiTables) default_config
              [text_of_string "one two"] in
  AdvancedTokenizer.getId tk (text_of_string "two") = 4 ∧
  AdvancedTokenizer.getWord tk 4 = text_of_string "two" ∧ 4 < AdvancedTokenizer.getVocabSize tk.
Proof.
  apply (proj1 (X7_vocabulary_round_trip (U := AsciiTables) default_config
                  [text_of_string "one two"])).
  vm_compute. reflexivity.
Defined.


Section tokenizer_state.
Context {U : UnicodeTables}.
Import AdvancedTokenizer.

Lemma registerToken_prefix (w : list N) (v : Vocab) :
  idToWord v `prefix_of` idToWord (registerToken w v).2.
Proof.
  unfold registerToken. destruct (wordToId v !! w); simpl; [done|].
  by apply prefix_app_r.
Qed.

Lemma foldl_step_prefix (tk : t) (ms : list Match) (st : LoopState) :
  idToWord (voc st) `prefix_of` idToWord (voc (foldl (step tk) st ms)).
Proof.
  revert st. induction ms as [|m ms IH]; intros st; simpl; [done|].
  etrans; [|apply IH]. destruct m as [w|p]; simpl.
  - destruct (_ <? _)%Z; [done|].
    pose proof (registerToken_prefix w (voc st)).
    by destruct (registerToken w (voc st)).
  - by destruct (negb _).
Qed.

(** X8: the vocabulary only grows.  Whatever the state of the tokenizer,
    [tokenize] keeps every word at the identifier it had ([idToWord] is
    extended at its end, [wordToId] only gains entries) and leaves the
    reserved identifiers and the configuration alone. *)
Theorem X8_vocabulary_only_grows (tk : t) (s : list N) :
  let tk' := (tokenize tk s).2 in
  idToWord (vocab tk) `prefix_of` idToWord (vocab tk') ∧
  wordToId (vocab tk) ⊆ wordToId (vocab tk') ∧
  UNK_ID tk' = UNK_ID tk ∧ BOS_ID tk' = BOS_ID tk ∧ EOS_ID tk' = EOS_ID tk ∧
  config tk' = config tk.
Proof.
  unfold tokenize; simpl. split_and!; try done.
  - apply (foldl_step_prefix tk _
             {| result := [BOS_ID tk]; isSentenceStart := true;
                voc := vocab tk |}).
  - apply map_subseteq_spec. intros w id Hw.
    by apply (foldl_step_mono tk _
                {| result := [BOS_ID tk]; isSentenceStart := true;
                   voc := vocab tk |}).
Qed.

(** X9: tokenizing the same text a second time returns the same
    identifiers and changes nothing: every word of the text is known by
    then. *)
Theorem X9_tokenize_again_is_stable (tk : t) (s : list N) :
  tokenize (tokenize tk s).2 s = ((tokenize tk s).1, (tokenize tk s).2).
Proof.
  apply injective_projections; [apply tokenize_twice|].
  unfold tokenize; simpl.
  set (ms := execAll (preprocessText (config tk) s)).
  set (st0 := {| result := [BOS_ID tk]; isSentenceStart := true;
                 voc := vocab tk |}).
  set (tk1 := {| vocab := voc (foldl (step tk) st0 ms); UNK_ID := UNK_ID tk;
                 BOS_ID := BOS_ID tk; EOS_ID := EOS_ID tk;
                 config := config tk |}).
  set (st0' := {| result := [BOS_ID tk]; isSentenceStart := true;
                  voc := voc (foldl (step tk) st0 ms) |}).
  assert (Hstep : foldl (step tk1) st0' ms = foldl (step tk) st0' ms).
  { apply foldl_ext. intros st m. by apply step_same_settings. }
  rewrite Hstep.
  destruct (second_run tk ms st0 st0') as [_ ->]; done.
Qed.

Lemma foldl_step_no_words (tk : t) (ms : list Match) (st : LoopState) :
  Forall (λ m, ∀ w, ¬ accepted tk m w) ms →
  isSentenceStart st = true →
  foldl (step tk) st ms = st.
Proof.
  intros Hms Hflag. induction Hms as [|m ms Hm _ IH]; simpl; [done|].
  assert (step tk st m = st) as ->; [|done].
  destruct m as [w|p]; simpl.
  - destruct (_ <? _)%Z eqn:Hlen; [done|]. by destruct (Hm w).
  - by rewrite Hflag.
Qed.

(** X10: a text in which the regex finds no word that passes the length
    filter (the empty text, blanks, punctuation only, or only words that
    are too short) tokenizes to the empty sequence and leaves the
    tokenizer as it was; training on it leaves the whole model as it
    was. *)
Theorem X10_text_without_words_changes_nothing (m : StupidBackoffModel.t)
    (s : list N) :
  let tk := StupidBackoffModel.tokenizer m in
  Forall (λ mt, ∀ w, ¬ accepted tk mt w)
         (execAll (preprocessText (config tk) s)) →
  tokenize tk s = ([], tk) ∧ StupidBackoffModel.train m s = m.
Proof.
  intros tk Hms.
  assert (Htok : tokenize tk s = ([], tk)).
  { unfold tokenize. rewrite foldl_step_no_words by done. simpl.
    unfold closeStream; simpl. rewrite decide_True by done.
    by destruct tk. }
  split; [done|]. unfold StupidBackoffModel.train. fold tk. rewrite Htok.
  by destruct m.
Qed.

End tokenizer_state.

Lemma X10_text_without_words_changes_nothing_witness :
  let m := StupidBackoffModel.getStupidBackoffModel in
  let tk := StupidBackoffModel.tokenizer m in
  AdvancedTokenizer.tokenize (U := AsciiTables) tk (text_of_string " ...?! ")
    = ([], tk) ∧
  StupidBackoffModel.train (U := AsciiTables) m (text_of_string " ...?! ") = m.
Proof.
  apply (X10_text_without_words_changes_nothing (U := AsciiTables)
           StupidBackoffModel.getStupidBackoffModel
           (text_of_string " ...?! ")).
  vm_compute. repeat constructor. intros w [Hw _]. discriminate Hw.
Defined.

(** *** What the token regex matches *)

Section regex_shape.
Context {U : UnicodeTables}.
Import AdvancedTokenizer.

Lemma span_spec (p : N → bool) (s : list N) :
  s = (span p s).1 ++ (span p s).2 ∧
  Forall (λ c, p c = true) (span p s).1.
Proof.
  induction s as [|c s [IHs IHp]]; simpl; [done|].
  destruct (p c) eqn:Hc; [|done].
  destruct (span p s) as [m r]; simpl in *. split; [by f_equal|].
  by constructor.
Qed.

Lemma greedyTail_spec (s m r : list N) :
  greedyTail s = Some (m, r) →
  s = m ++ r ∧
  Forall (λ c, isLetter c = true ∨ c = 45%N) m ∧
  ∃ c, last m = Some c ∧ isLetter c = true.
Proof.
  revert m r. induction s as [|c s IH]; intros m r; simpl; [done|].
  destruct (isLetter c || isHyphen c) eqn:Hclass; [|done].
  assert (Hc : isLetter c = true ∨ c = 45%N).
  { apply orb_true_iff in Hclass as [?|Hh]; [by left|right].
    unfold isHyphen in Hh. by apply N.eqb_eq in Hh. }
  destruct (greedyTail s) as [[m' r']|].
  - intros [= <- <-]. destruct (IH m' r' eq_refl) as (-> & HF & c' & Hl & Hc').
    split_and!; [done|by constructor|]. exists c'. split; [|done].
    destruct m' as [|x m']; [done|]. by rewrite last_cons_cons.
  - destruct (isLetter c) eqn:HL; [|done]. intros [= <- <-].
    split_and!; [done|by repeat constructor|]. by exists c.
Qed.

Lemma last_all (P : N → Prop) (c : N) (m : list N) :
  P c → Forall P m → ∃ c', last (c :: m) = Some c' ∧ P c'.
Proof.
  intros Hc Hm. revert c Hc. induction Hm as [|x m Hx _ IH]; intros c Hc.
  - by exists c.
  - rewrite last_cons_cons. by apply IH.
Qed.

Lemma matchAt_spec (s : list N) (m : Match) (r : list N) :
  matchAt s = Some (m, r) →
  s = match_chars m ++ r ∧
  match m with
  | MWord w => word_shape w
  | MPunct p => p ≠ [] ∧ Forall (λ c, isSentencePunct c = true) p
  end.
Proof.
  destruct s as [|c s]; simpl; [done|].
  destruct (isLetter c) eqn:HL.
  - destruct (greedyTail s) as [[m' r']|] eqn:HG.
    + intros [= <- <-]. apply greedyTail_spec in HG as (-> & HF & c' & Hl & Hc').
      split; [done|]. right. split_and!.
      * by exists c.
      * exists c'. split; [|done]. destruct m'; [done|].
        by rewrite last_cons_cons.
      * constructor; [by left|done].
    + destruct (span_spec isLetter s) as [Hs HF].
      destruct (span isLetter s) as [m' r']. intros [= <- <-]. simpl in *.
      split; [by f_equal|]. right. split_and!.
      * by exists c.
      * by apply (last_all (λ c, isLetter c = true)).
      * constructor; [by left|]. eapply Forall_impl; [done|]. by left.
  - destruct (isNumber c) eqn:HN.
    + destruct (span_spec isNumber s) as [Hs HF].
      destruct (span isNumber s) as [m' r']. intros [= <- <-]. simpl in *.
      split; [by f_equal|]. left. split; [done|by constructor].
    + destruct (isSentencePunct c) eqn:HP; [|done].
      destruct (span_spec isSentencePunct s) as [Hs HF].
      destruct (span isSentencePunct s) as [m' r']. intros [= <- <-].
      simpl in *. split; [by f_equal|]. split; [done|by constructor].
Qed.

Lemma matchAt_None (c : N) (s : list N) :
  matchAt (c :: s) = None → unmatched c.
Proof.
  simpl. destruct (isLetter c) eqn:HL.
  - destruct (greedyTail s) as [[m' r']|]; [done|].
    by destruct (span isLetter s).
  - destruct (isNumber c) eqn:HN; [by destruct (span isNumber s)|].
    destruct (isSentencePunct c) eqn:HP;
      [by destruct (span isSentencePunct s)|].
    done.
Qed.

(** X11: what the token regex yields.  Every word is a run of numbers, or
    starts and ends with a letter and has only letters and hyphens in
    between (no word starts or ends with a hyphen, none mixes letters and
    digits); every punctuation match is a non-empty run of [. ? ! ;]; and
    the matches are disjoint pieces of the text in text order: the text is
    a gap, the first match, a gap, the second match, and so on up to a
    last gap, and no character of a gap is a letter, a number or one of
    [. ? ! ;]. *)
Theorem X11_regex_matches (s : list N) :
  Forall (λ m, match m with
               | MWord w => word_shape w
               | MPunct p =>
                   p ≠ [] ∧ Forall (λ c, isSentencePunct c = true) p
               end) (execAll s) ∧
  ∃ gaps tail,
    length gaps = length (execAll s) ∧
    s = interleave gaps (execAll s) tail ∧
    Forall (Forall unmatched) gaps ∧ Forall unmatched tail.
Proof.
  funelim (execAll s).
  - split; [constructor|]. exists [], []. by repeat split.
  - destruct H as (IHF & gaps & tail & Hlen & Htext & Hgaps & Htail).
    destruct (matchAt_spec _ _ _ Hm) as [Hs Hshape]. split.
    + by constructor.
    + exists ([] :: gaps), tail. split_and!.
      * simpl. by rewrite Hlen.
      * rewrite Hs. unfold interleave in *. simpl.
        rewrite <- app_assoc. by f_equal.
      * by constructor.
      * done.
  - destruct H as (IHF & gaps & tail & Hlen & Htext & Hgaps & Htail).
    pose proof (matchAt_None _ _ e) as Hc.
    split; [done|].
    destruct gaps as [|g gaps].
    + exists [], (c :: tail). split_and!; [done| |done|by constructor].
      destruct (execAll s'); [|done].
      unfold interleave in *. simpl in *. by f_equal.
    + destruct (execAll s') as [|m ms]; [done|].
      exists ((c :: g) :: gaps), tail. split_and!; [done| | |done].
      * unfold interleave in *. simpl in *. by f_equal.
      * apply Forall_cons in Hgaps as [Hg Hgaps].
        constructor; [by constructor|done].
Qed.

End regex_shape.

(** *** The stream of identifiers and the words behind it *)

Section stream_decode.
Context {U : UnicodeTables}.
Import AdvancedTokenizer.

Lemma fmap_removelast {A B} (g : A → B) (l : list A) :
  g <$> removelast l = removelast (g <$> l).
Proof.
  induction l as [|x [|y l] IH]; [done..|].
  change (removelast (x :: y :: l)) with (x :: removelast (y :: l)).
  rewrite !fmap_cons, IH. done.
Qed.

Lemma closeStream_by_flag (tk : t) (res : list TokenID) (b : bool) :
  BOS_ID tk = 1 → EOS_ID tk = 2 → open_stream res b →
  closeStream tk res = if b then removelast res else res ++ [2].
Proof.
  intros Hb He Hs. unfold closeStream. rewrite Hb, He.
  destruct (open_stream_last res b Hs) as [Hne Hiff].
  destruct b.
  - by rewrite decide_True by (by apply Hiff).
  - rewrite decide_False by (rewrite Hiff; done). by rewrite decide_True.
Qed.

Lemma decode_foldl (tk : t) (f : list N → TokenID) (g : TokenID → list N)
    (ms : list Match) (acc : list TokenID * bool) :
  (∀ m w, m ∈ ms → accepted tk m w → g (f w) = w) →
  g (BOS_ID tk) = BOS → g (EOS_ID tk) = EOS →
  (g <$> (foldl (lookup_step tk f) acc ms).1,
   (foldl (lookup_step tk f) acc ms).2) =
  foldl (word_step (config tk)) (g <$> acc.1, acc.2) ms.
Proof.
  intros Hg Hb He. revert acc.
  induction ms as [|m ms IH]; intros acc; simpl; [done|].
  rewrite IH by (intros m' w Hin; apply Hg; by right). f_equal.
  destruct m as [w|p]; simpl.
  - destruct (_ <? _)%Z eqn:Hlen; [done|]. simpl.
    rewrite fmap_app. simpl. rewrite (Hg (MWord w) w); [done|by left|done].
  - destruct (negb acc.2); [|done]. simpl.
    rewrite fmap_app. simpl. by rewrite Hb, He.
Qed.

Lemma tokenize_loop_ok `{!TablesFacts U} (tk : t) (s : list N) :
  tokenizer_ok tk →
  loop_ok (foldl (step tk)
             {| result := [BOS_ID tk]; isSentenceStart := true;
                voc := vocab tk |}
             (execAll (preprocessText (config tk) s))).
Proof.
  intros (Hv & Hb & He).
  apply loop_ok_foldl; try done; [apply execAll_words|].
  split; simpl; [done|]. rewrite Hb. constructor.
Qed.

(** X12: the identifiers decode to the words.  In every reachable state,
    reading the output of [tokenize] back through [getWord] gives the
    accepted words of the text in order, with [<S>] at the start of every
    sentence and [</S>] at its end: no word is lost, replaced by [<UNK>]
    or confused with another one. *)
Theorem X12_tokens_decode_to_words (facts : TablesFacts U)
    (cfg : PartialConfig) (texts : list (list N)) (s : list N) :
  let tk := tokenizer_after cfg texts in
  getWord (tokenize tk s).2 <$> (tokenize tk s).1 =
  word_stream (config tk) (execAll (preprocessText (config tk) s)).
Proof.
  intros tk.
  pose proof (tokenizer_after_ok cfg texts) as Hok. fold tk in Hok.
  pose proof (tokenizer_after_full cfg texts) as Hfull. fold tk in Hfull.
  pose proof (tokenize_loop_ok tk s Hok) as [_ Hopen].
  destruct Hok as (_ & Hb & He). destruct Hfull as (Hvfull & _).
  unfold tokenize, word_stream; simpl.
  set (ms := execAll (preprocessText (config tk) s)) in *.
  set (st0 := {| result := [BOS_ID tk]; isSentenceStart := true;
                 voc := vocab tk |}) in *.
  set (st := foldl (step tk) st0 ms) in *.
  assert (Hvst : vocab_full (voc st)) by (by apply foldl_step_full).
  set (g := getWord {| vocab := voc st; UNK_ID := UNK_ID tk;
                       BOS_ID := BOS_ID tk; EOS_ID := EOS_ID tk;
                       config := config tk |}).
  set (f := λ w, default 0 (wordToId (voc st) !! w)).
  pose proof (foldl_step_lookup tk ms st0 (voc st) (λ _ _ H, H)) as Hlook.
  fold st in Hlook. fold f in Hlook. simpl in Hlook.
  destruct Hvst as (Hbij & _ & H1 & H2).
  assert (Hdec := decode_foldl tk f g ms ([BOS_ID tk], true)).
  rewrite <- Hlook in Hdec. simpl in Hdec.
  assert (HgB : g (BOS_ID tk) = BOS).
  { unfold g, getWord; simpl. by rewrite Hb, H1. }
  assert (HgE : g (EOS_ID tk) = EOS).
  { unfold g, getWord; simpl. by rewrite He, H2. }
  rewrite HgB in Hdec. rewrite <- Hdec; [|clear Hdec|done|done].
  - rewrite (closeStream_by_flag tk _ _ Hb He Hopen).
    destruct (isSentenceStart st).
    + apply fmap_removelast.
    + rewrite fmap_app. simpl. by rewrite <- He, HgE.
  - intros m w Hin Hacc.
    destruct (foldl_step_registers tk ms st0 m w Hin Hacc) as [i Hi].
    fold st in Hi. unfold f, g, getWord; simpl. rewrite Hi. simpl.
    apply Hbij in Hi. by rewrite Hi.
Qed.

Lemma open_stream_head (res : list TokenID) (b : bool) :
  open_stream res b → head res = Some 1.
Proof.
  induction 1 as [|res b id Hs IH _ _|res Hs IH]; [done|..];
    by destruct res.
Qed.

Lemma open_stream_after_bos (res : list TokenID) (b : bool) (i : nat) :
  open_stream res b → res !! i = Some 1 →
  (S i = length res ∧ b = true) ∨
  ∃ id, res !! S i = Some id ∧ id ≠ 1 ∧ id ≠ 2.
Proof.
  intros Hs. revert i.
  induction Hs as [|res b id Hs IH Hb He|res Hs IH]; intros i Hi.
  - left. by destruct i as [|[|i]].
  - right. destruct (decide (i < length res)) as [Hlt|Hge].
    + rewrite lookup_app_l in Hi by done.
      destruct (IH i Hi) as [[Hlen _]|(id' & Hid' & ?)].
      * exists id. rewrite lookup_app_r by lia.
        replace (S i - length res) with 0 by lia. done.
      * exists id'. split; [|done]. by apply lookup_app_l_Some.
    + rewrite lookup_app_r in Hi by lia.
      destruct (i - length res) as [|k]; simpl in Hi; [congruence|done].
  - destruct (decide (i < length res)) as [Hlt|Hge].
    + rewrite lookup_app_l in Hi by done.
      destruct (IH i Hi) as [[_ ?]|(id' & Hid' & ?)]; [done|].
      right. exists id'. split; [|done]. by apply lookup_app_l_Some.
    + rewrite lookup_app_r in Hi by lia.
      destruct (i - length res) as [|[|k]] eqn:Hk; simpl in Hi;
        [congruence| |done].
      left. rewrite length_app. simpl. split; [lia|done].
Qed.

(** X13: every sentence has a word.  In every reachable state a non-empty
    output of [tokenize] starts with BOS and ends with EOS, and every BOS
    in it is immediately followed by the identifier of a word, neither BOS
    nor EOS. *)
Theorem X13_sentences_are_not_empty (facts : TablesFacts U)
    (cfg : PartialConfig) (texts : list (list N)) (s : list N) :
  let tk := tokenizer_after cfg texts in
  let toks := (tokenize tk s).1 in
  toks = [] ∨
  (head toks = Some (BOS_ID tk) ∧ last toks = Some (EOS_ID tk) ∧
   ∀ i, toks !! i = Some (BOS_ID tk) →
        ∃ id, toks !! S i = Some id ∧ id ≠ BOS_ID tk ∧ id ≠ EOS_ID tk).
Proof.
  intros tk toks.
  pose proof (tokenizer_after_ok cfg texts) as Hok. fold tk in Hok.
  pose proof (tokenize_loop_ok tk s Hok) as [_ Hopen].
  destruct Hok as (_ & Hb & He).
  destruct (closeStream_open tk _ _ Hb He Hopen) as [Hnil|(p & Hp & Hclose)].
  - left. subst toks. unfold tokenize; simpl. exact Hnil.
  - right. assert (Htoks : toks = p ++ [2]) by exact Hclose.
    rewrite Htoks, Hb, He. split_and!.
    + pose proof (open_stream_head p false Hp). by destruct p.
    + by rewrite last_snoc.
    + intros i Hi.
      destruct (decide (i < length p)) as [Hlt|Hge].
      * rewrite lookup_app_l in Hi by done.
        destruct (open_stream_after_bos p false i Hp Hi)
          as [[_ ?]|(id & Hid & ?)]; [done|].
        exists id. split; [|done]. by apply lookup_app_l_Some.
      * rewrite lookup_app_r in Hi by lia.
        destruct (i - length p) as [|k]; simpl in Hi; [congruence|done].
Qed.

End stream_decode.

Lemma X12_tokens_decode_to_words_witness :
  let tk := tokenizer_after (U := AsciiTables) default_config
              [text_of_string "Hi."] in
  AdvancedTokenizer.getWord
    (AdvancedTokenizer.tokenize (U := AsciiTables) tk
       (text_of_string "To be. Or not")).2 <$>
    (AdvancedTokenizer.tokenize (U := AsciiTables) tk
       (text_of_string "To be. Or not")).1 =
  word_stream (AdvancedTokenizer.config tk)
    (AdvancedTokenizer.execAll (U := AsciiTables)
       (AdvancedTokenizer.preprocessText (U := AsciiTables)
          (AdvancedTokenizer.config tk) (text_of_string "To be. Or not"))).
Proof.
  exact (X12_tokens_decode_to_words (U := AsciiTables)
           (Build_TablesFacts AsciiTables eq_refl eq_refl eq_refl eq_refl)
           default_config [text_of_string "Hi."]
           (text_of_string "To be. Or not")).
Defined.

Lemma X13_sentences_are_not_empty_witness :
  let tk := tokenizer_after (U := AsciiTables) default_config [] in
  let toks := (AdvancedTokenizer.tokenize (U := AsciiTables) tk
                 (text_of_string "To be. Or not")).1 in
  toks = [] ∨
  (head toks = Some (AdvancedTokenizer.BOS_ID tk) ∧
   last toks = Some (AdvancedTokenizer.EOS_ID tk) ∧
   ∀ i, toks !! i = Some (AdvancedTokenizer.BOS_ID tk) →
        ∃ id, toks !! S i = Some id ∧ id ≠ AdvancedTokenizer.BOS_ID tk ∧
              id ≠ AdvancedTokenizer.EOS_ID tk).
Proof.
  exact (X13_sentences_are_not_empty (U := AsciiTables)
           (Build_TablesFacts AsciiTables eq_refl eq_refl eq_refl eq_refl)
           default_config [] (text_of_string "To be. Or not")).
Defined.

(** *** The context that [predict] uses *)

Section predict_context.
Context {U : UnicodeTables}.
Import AdvancedTokenizer.

Lemma removelast_drop_snoc {A} (k : nat) (p : list A) (x : A) :
  k ≤ length p → removelast (drop k (p ++ [x])) = drop k p.
Proof.
  intros Hk. rewrite drop_app_le by done. by rewrite removelast_last.
Qed.

Lemma last_drop_snoc {A} (k : nat) (p : list A) (x : A) :
  k ≤ length p → last (drop k (p ++ [x])) = Some x.
Proof.
  intros Hk. rewrite drop_app_le by done. by rewrite last_snoc.
Qed.

Lemma predictContext_closed (n : Z) (eos : TokenID) (p : list TokenID) :
  p ≠ [] →
  ((3 ≤ n)%Z →
   Predictor.predictContext n eos (p ++ [eos]) =
   drop (length p - Z.to_nat (n - 2)) p) ∧
  (n = 2%Z → Predictor.predictContext n eos (p ++ [eos]) = [eos]).
Proof.
  intros Hp. assert (0 < length p) by (destruct p; [done|simpl; lia]).
  unfold Predictor.predictContext, js_slice_from. split.
  - intros Hn.
    rewrite (proj2 (Z.ltb_lt (- (n - 1)) 0)) by lia.
    rewrite length_app. simpl.
    replace (length p + 1 - Z.to_nat (- - (n - 1)))
      with (length p - Z.to_nat (n - 2)) by lia.
    set (k := length p - Z.to_nat (n - 2)).
    assert (Hk : k ≤ length p) by (unfold k; lia).
    rewrite (decide_True (P := _ ∧ last _ = _)); last first.
    { rewrite last_drop_snoc by done. split; [|done].
      rewrite length_drop, length_app. simpl. lia. }
    rewrite removelast_drop_snoc by done.
    rewrite decide_False; [done|]. rewrite length_drop. unfold k. lia.
  - intros ->. simpl. rewrite length_app. simpl.
    replace (length p + 1 - Z.to_nat (- - (2 - 1))) with (length p) by lia.
    rewrite drop_app_length. simpl.
    rewrite (decide_True (P := _ ∧ Some eos = _)) by (split; [lia|done]).
    simpl.
    rewrite decide_True; [done|]. split; [done|lia].
Qed.

(** X14: how much of the query [predict] looks at.  The token array of a
    query ends with EOS, which [predict] drops; so a model of order
    [n >= 3] predicts from the last [n - 2] tokens before it (the
    factory's trigram model from the last word alone), and a model of
    order 2 always predicts from the context [EOS]. *)
Theorem X14_predict_context (facts : TablesFacts U) (cfg : PartialConfig)
    (texts : list (list N)) (s : list N) (n : Z) :
  let tk := tokenizer_after cfg texts in
  let toks := (tokenize tk s).1 in
  toks ≠ [] →
  ((3 ≤ n)%Z →
   Predictor.predictContext n (EOS_ID tk) toks =
     drop (length toks - 1 - Z.to_nat (n - 2)) (removelast toks) ∧
   1 ≤ length (Predictor.predictContext n (EOS_ID tk) toks) ≤
     Z.to_nat (n - 2)) ∧
  (n = 2%Z → Predictor.predictContext n (EOS_ID tk) toks = [EOS_ID tk]).
Proof.
  intros tk toks Hne.
  pose proof (tokenizer_after_ok cfg texts) as Hok. fold tk in Hok.
  pose proof (tokenize_loop_ok tk s Hok) as [_ Hopen].
  destruct Hok as (_ & Hb & He).
  destruct (closeStream_open tk _ _ Hb He Hopen) as [Hnil|(p & Hp & Hclose)].
  { by destruct Hne. }
  assert (Htoks : toks = p ++ [2]) by exact Hclose.
  assert (Hpne : p ≠ []).
  { pose proof (open_stream_head p false Hp). by destruct p. }
  rewrite Htoks, He.
  destruct (predictContext_closed n 2 p Hpne) as [H3 H2].
  split; [|done]. intros Hn. rewrite (H3 Hn).
  rewrite removelast_last, length_app. simpl.
  replace (length p + 1 - 1) with (length p) by lia. split; [done|].
  rewrite length_drop.
  assert (0 < length p) by (destruct p; [done|simpl; lia]). lia.
Qed.

End predict_context.

Lemma X14_predict_context_witness :
  let tk := tokenizer_after (U := AsciiTables) default_config [] in
  let toks := (AdvancedTokenizer.tokenize (U := AsciiTables) tk
                 (text_of_string "the quick brown fox")).1 in
  Predictor.predictContext 3 (AdvancedTokenizer.EOS_ID tk) toks =
    drop (length toks - 1 - Z.to_nat (3 - 2)) (removelast toks) ∧
  1 ≤ length (Predictor.predictContext 3 (AdvancedTokenizer.EOS_ID tk) toks)
    ≤ Z.to_nat (3 - 2).
Proof.
  apply (proj1 (X14_predict_context (U := AsciiTables)
           (Build_TablesFacts AsciiTables eq_refl eq_refl eq_refl eq_refl)
           default_config [] (text_of_string "the quick brown fox") 3
           ltac:(vm_compute; discriminate))).
  lia.
Defined.

(* ===================================================================== *)
(** * Further properties of Exclusion Backoff ([PPMModel]) *)
(* ===================================================================== *)

Section trie_facts.
Import PPMModel.

Lemma findNode_emptyNode (ctx : list string) :
  findNode emptyNode ctx = match ctx with [] => Some emptyNode | _ => None end.
Proof. by destruct ctx. Qed.

Lemma jsmap_get_set {V} (m : list (string * V)) (k k' : string) (v : V) :
  jsmap_get (jsmap_set m k v) k' =
  if decide (k = k') then Some v else jsmap_get m k'.
Proof.
  case_decide; [subst; apply jsmap_get_set_eq|by apply jsmap_get_set_ne].
Qed.

Lemma countAt_child (r : ContextNode) (w : string) (ctx : list string)
    (tok : string) :
  countAt (default emptyNode (jsmap_get (children r) w)) ctx tok =
  countAt r (w :: ctx) tok.
Proof.
  unfold countAt; simpl. destruct (jsmap_get (children r) w); simpl; [done|].
  rewrite findNode_emptyNode. by destruct ctx.
Qed.

Lemma totalAt_child (r : ContextNode) (w : string) (ctx : list string) :
  totalAt (default emptyNode (jsmap_get (children r) w)) ctx =
  totalAt r (w :: ctx).
Proof.
  unfold totalAt; simpl. destruct (jsmap_get (children r) w); simpl; [done|].
  rewrite findNode_emptyNode. by destruct ctx.
Qed.

Lemma countAt_updateTrie (c : list string) (tok : string) (r : ContextNode)
    (ctx : list string) (tok' : string) :
  countAt (updateTrie c tok r) ctx tok' =
  countAt r ctx tok' + (if decide (c = ctx ∧ tok = tok') then 1 else 0).
Proof.
  revert r ctx. induction c as [|w0 c IH]; intros r ctx.
  - destruct ctx as [|w ctx].
    + unfold countAt; simpl. rewrite jsmap_get_set.
      destruct (decide (tok = tok')) as [->|Hne].
      * rewrite decide_True by done. simpl. lia.
      * rewrite decide_False by (intros [_ ?]; done). lia.
    + rewrite decide_False by (intros [? _]; done).
      unfold countAt; simpl. lia.
  - destruct ctx as [|w ctx].
    + rewrite decide_False by (intros [? _]; done).
      unfold countAt; simpl. lia.
    + unfold countAt at 1. simpl. rewrite jsmap_get_set.
      destruct (decide (w0 = w)) as [->|Hne].
      * fold (countAt (updateTrie c tok
                         (default emptyNode (jsmap_get (children r) w)))
                      ctx tok').
        rewrite IH, countAt_child. f_equal. apply decide_ext.
        split; [intros [-> ->]; done|intros [[= ->] ->]; done].
      * rewrite decide_False by (intros [[= ? ?] _]; done).
        unfold countAt; simpl. lia.
Qed.

Lemma totalAt_updateTrie (c : list string) (tok : string) (r : ContextNode)
    (ctx : list string) :
  totalAt (updateTrie c tok r) ctx =
  totalAt r ctx + (if decide (c = ctx) then 1 else 0).
Proof.
  revert r ctx. induction c as [|w0 c IH]; intros r ctx.
  - destruct ctx as [|w ctx].
    + rewrite decide_True by done. unfold totalAt; simpl. lia.
    + rewrite decide_False by done. unfold totalAt; simpl. lia.
  - destruct ctx as [|w ctx].
    + rewrite decide_False by done. unfold totalAt; simpl. lia.
    + unfold totalAt at 1. simpl. rewrite jsmap_get_set.
      destruct (decide (w0 = w)) as [->|Hne].
      * fold (totalAt (updateTrie c tok
                         (default emptyNode (jsmap_get (children r) w)))
                      ctx).
        rewrite IH, totalAt_child. f_equal. apply decide_ext.
        split; [intros ->; done|intros [= ->]; done].
      * rewrite decide_False by (intros [= ? ?]; done).
        unfold totalAt; simpl. lia.
Qed.

Lemma findNode_updateTrie_same (c : list string) (tok : string)
    (r : ContextNode) :
  is_Some (findNode (updateTrie c tok r) c).
Proof.
  revert r. induction c as [|w c IH]; intros r; simpl; [done|].
  rewrite jsmap_get_set_eq. apply IH.
Qed.

(** X15: insert and look up in the trie.  [updateTrie(context, token)]
    makes the node of [context] exist, raises the count of [token] there
    and the total of that node by one, and changes no other count or total
    anywhere in the trie. *)
Theorem X15_updateTrie_then_find (c : list string) (tok : string)
    (r : ContextNode) (ctx : list string) (tok' : string) :
  is_Some (findNode (updateTrie c tok r) c) ∧
  countAt (updateTrie c tok r) ctx tok' =
    countAt r ctx tok' + (if decide (c = ctx ∧ tok = tok') then 1 else 0) ∧
  totalAt (updateTrie c tok r) ctx =
    totalAt r ctx + (if decide (c = ctx) then 1 else 0).
Proof.
  split_and!; [apply findNode_updateTrie_same|apply countAt_updateTrie|
               apply totalAt_updateTrie].
Qed.

End trie_facts.

Section trie_training.
Import PPMModel.

Lemma foldl_indicator {R I : Type} (F : R → nat) (f : R → I → R)
    (P : I → Prop) `{!∀ i, Decision (P i)} (l : list I) (r : R) :
  (∀ r i, i ∈ l → F (f r i) = F r + (if decide (P i) then 1 else 0)) →
  F (foldl f r l) = F r + length (filter P l).
Proof.
  revert r. induction l as [|i l IH]; intros r Hf; simpl; [lia|].
  rewrite IH by (intros r' j Hj; apply Hf; by right).
  rewrite Hf by (by left). rewrite filter_cons. case_decide; simpl; lia.
Qed.

Lemma countAt_train_at (maxOrder : Z) (tokens : list string)
    (r : ContextNode) (i : nat) (ctx : list string) (tok : string) :
  i < length tokens →
  countAt (train_at maxOrder tokens r i) ctx tok =
  countAt r ctx tok +
  (if decide (length ctx ≤ i ∧
              take (length ctx) (drop (i - length ctx) tokens) = ctx ∧
              tokens !! i = Some tok ∧
              (Z.of_nat (length ctx) ≤ maxOrder)%Z)
   then 1 else 0).
Proof.
  intros Hi. unfold train_at.
  destruct (tokens !! i) as [cur|] eqn:Hcur; last first.
  { apply lookup_ge_None in Hcur. lia. }
  assert (Hgen : ∀ bound,
    countAt
      (foldl (λ r order,
                if decide (i < order) then r
                else updateTrie (take order (drop (i - order) tokens)) cur r)
             r (seq 0 bound)) ctx tok =
    countAt r ctx tok +
    (if decide (length ctx ≤ i ∧
                take (length ctx) (drop (i - length ctx) tokens) = ctx ∧
                Some cur = Some tok ∧ length ctx < bound)
     then 1 else 0)).
  { induction bound as [|bound IH].
    - simpl. rewrite decide_False by (intros (_ & _ & _ & ?); lia). lia.
    - rewrite seq_S, foldl_app. cbn [foldl]. rewrite Nat.add_0_l.
      destruct (decide (i < bound)) as [Hlt|Hlt].
      + rewrite IH. f_equal. apply decide_ext. intuition lia.
      + rewrite countAt_updateTrie, IH. rewrite <- Nat.add_assoc. f_equal.
        assert (Hlen : length (take bound (drop (i - bound) tokens)) = bound).
        { rewrite length_take, length_drop. lia. }
        destruct (decide (take bound (drop (i - bound) tokens) = ctx
                          ∧ cur = tok)) as [[Hc ->]|Hno].
        * assert (length ctx = bound) as Hb by (by rewrite <- Hc).
          rewrite decide_False by (intros (_ & _ & _ & ?); lia).
          rewrite decide_True; [done|]. rewrite Hb. split_and!; (done || lia).
        * rewrite Nat.add_0_r. apply decide_ext.
          split; [intuition lia|]. intros (Hle & Htake & [= ->] & Hb).
          split_and!; try done.
          destruct (decide (length ctx = bound)) as [Heq|Hne]; [|lia].
          destruct Hno. by rewrite <- Heq. }
  rewrite Hgen. f_equal. apply decide_ext.
  split.
  - intros (? & ? & [= ->] & ?). split_and!; (done || lia).
  - intros (? & ? & [= ->] & ?). split_and!; (done || lia).
Qed.

Lemma windows_by_end (ctx tokens : list string) (tok : string) :
  length (filter (λ i, length ctx ≤ i ∧
                       take (length ctx) (drop (i - length ctx) tokens) = ctx ∧
                       tokens !! i = Some tok)
                 (seq 0 (length tokens))) =
  token_window_count (ctx ++ [tok]) tokens.
Proof.
  unfold token_window_count. rewrite length_app. simpl.
  replace (length tokens + 1 - (length ctx + 1))
    with (length tokens - length ctx) by lia.
  replace (length ctx + 1) with (S (length ctx)) by lia.
  destruct (decide (length ctx ≤ length tokens)) as [Hle|Hgt].
  - replace (length tokens) with
      (length ctx + (length tokens - length ctx)) at 1 by lia.
    rewrite seq_app, filter_app, length_app.
    match goal with
    | |- length (filter ?P (seq 0 (length ctx))) + _ = _ =>
        rewrite (filter_seq_none P 0 (length ctx))
          by (intros i Hi [Hl _]; lia)
    end.
    simpl. apply filter_seq_shift. intros j Hj.
    replace (length ctx + j - length ctx) with (0 + j) by lia.
    split.
    + intros (_ & Htake & Htok).
      rewrite (take_S_r _ _ tok); [by rewrite Htake|].
      rewrite lookup_drop. rewrite <- Htok. f_equal. lia.
    + intros Hw. split; [lia|].
      assert (Hlenw : length ctx < length (drop (0 + j) tokens)).
      { rewrite length_drop. lia. }
      apply lookup_lt_is_Some_2 in Hlenw as [x Hx].
      rewrite (take_S_r _ _ x) in Hw by done.
      apply app_inj_tail in Hw as [Htake ->]. split; [done|].
      rewrite lookup_drop in Hx. rewrite <- Hx. f_equal. lia.
  - replace (length tokens - length ctx) with 0 by lia. simpl.
    rewrite filter_seq_none; [done|]. intros i Hi [Hl _]. lia.
Qed.

Lemma elem_of_foldl_jsset_add (acc tokens : list string) (t : string) :
  t ∈ foldl jsset_add acc tokens ↔ t ∈ acc ∨ t ∈ tokens.
Proof.
  revert acc. induction tokens as [|x tokens IH]; intros acc; simpl.
  - rewrite elem_of_nil. tauto.
  - rewrite IH, elem_of_cons. unfold jsset_add, jsset_has.
    destruct (existsb (String.eqb x) acc) eqn:E.
    + apply existsb_exists in E as (y & Hy & Heq).
      apply String.eqb_eq in Heq as <-. apply list_elem_of_In in Hy.
      split; [tauto|]. intros [?|[->|?]]; tauto.
    + rewrite elem_of_app, list_elem_of_singleton. tauto.
Qed.

Lemma NoDup_foldl_jsset_add (acc tokens : list string) :
  NoDup acc → NoDup (foldl jsset_add acc tokens).
Proof.
  revert acc. induction tokens as [|x tokens IH]; intros acc Hacc; simpl;
    [done|].
  apply IH. unfold jsset_add, jsset_has.
  destruct (existsb (String.eqb x) acc) eqn:E; [done|].
  apply NoDup_app. split_and!; [done| |apply NoDup_singleton].
  intros y Hy Hx. apply list_elem_of_singleton in Hx as ->.
  assert (existsb (String.eqb x) acc = true); [|congruence].
  apply existsb_exists. exists x. split; [by apply list_elem_of_In|].
  apply String.eqb_refl.
Qed.

(** X16: what [train] stores.  After [train(tokens)], the count of a
    token after a context of length at most [maxOrder] has grown by the
    number of windows of the token array that spell the context followed
    by the token; counts after longer contexts are unchanged.  The
    vocabulary gains exactly the tokens of the array and stays free of
    duplicates. *)
Theorem X16_train_counts_windows (m : t) (tokens ctx : list string)
    (tok : string) :
  countAt (root (train m tokens)) ctx tok =
    countAt (root m) ctx tok +
    (if decide (Z.of_nat (length ctx) ≤ maxOrder m)%Z
     then token_window_count (ctx ++ [tok]) tokens else 0) ∧
  (tok ∈ vocabulary (train m tokens) ↔ tok ∈ vocabulary m ∨ tok ∈ tokens) ∧
  (NoDup (vocabulary m) → NoDup (vocabulary (train m tokens))).
Proof.
  destruct tokens as [|t0 tokens'] eqn:Htokens.
  { simpl. rewrite elem_of_nil. split; [|split; [tauto|done]].
    case_decide; [|lia]. unfold token_window_count.
    rewrite length_app.
    match goal with
    | |- context [seq 0 ?k] => replace k with 0 by (simpl; lia)
    end. simpl. lia. }
  rewrite <- Htokens. assert (train m tokens =
    {| maxOrder := maxOrder m;
       root := foldl (train_at (maxOrder m) tokens) (root m)
                     (seq 0 (length tokens));
       vocabulary := foldl jsset_add (vocabulary m) tokens |}) as ->.
  { by rewrite Htokens. }
  simpl. split; [|split].
  - rewrite (foldl_indicator (λ r, countAt r ctx tok) _
      (λ i, length ctx ≤ i ∧
            take (length ctx) (drop (i - length ctx) tokens) = ctx ∧
            tokens !! i = Some tok ∧
            (Z.of_nat (length ctx) ≤ maxOrder m)%Z)).
    + f_equal. case_decide as Hord.
      * rewrite <- windows_by_end. f_equal.
        apply list_filter_iff. intros i. tauto.
      * rewrite filter_seq_none; [done|]. intros i _ (_ & _ & _ & ?). done.
    + intros r i Hin. apply elem_of_seq in Hin.
      apply countAt_train_at. lia.
  - apply elem_of_foldl_jsset_add.
  - apply NoDup_foldl_jsset_add.
Qed.

End trie_training.

Lemma X16_train_counts_windows_witness :
  NoDup (PPMModel.vocabulary
           (PPMModel.train (PPMModel.new (Some 2%Z)) ["a"; "b"; "a"])).
Proof.
  apply (proj2 (proj2 (X16_train_counts_windows (PPMModel.new (Some 2%Z))
                         ["a"; "b"; "a"] [] "a"))).
  simpl. constructor.
Defined.

Section trie_invariant.
Import PPMModel.

Lemma sum_counts_set (entries : list (string * nat)) (k : string) (v : nat) :
  sum_counts (jsmap_set entries k v) + default 0 (jsmap_get entries k) =
  sum_counts entries + v.
Proof.
  induction entries as [|[k' v'] entries IH]; simpl; [lia|].
  destruct (String.eqb k' k); simpl; lia.
Qed.

Lemma trie_ok_emptyNode : trie_ok emptyNode.
Proof.
  intros ctx node. rewrite findNode_emptyNode.
  destruct ctx; [|done]. by intros [= <-].
Qed.

Lemma trie_ok_child (r : ContextNode) (w : string) :
  trie_ok r → trie_ok (default emptyNode (jsmap_get (children r) w)).
Proof.
  intros Hr. destruct (jsmap_get (children r) w) as [child|] eqn:Hw; simpl.
  - intros ctx node Hn. apply (Hr (w :: ctx)). simpl. by rewrite Hw.
  - apply trie_ok_emptyNode.
Qed.

Lemma trie_ok_updateTrie (c : list string) (tok : string) (r : ContextNode) :
  trie_ok r → trie_ok (updateTrie c tok r).
Proof.
  revert r. induction c as [|w0 c IH]; intros r Hr ctx node.
  - destruct ctx as [|w ctx]; simpl.
    + intros [= <-]. simpl. pose proof (Hr [] r eq_refl) as Hroot.
      pose proof (sum_counts_set (counts r) tok
                    (default 0 (jsmap_get (counts r) tok) + 1)). lia.
    + intros Hn. apply (Hr (w :: ctx)). by simpl.
  - destruct ctx as [|w ctx]; simpl.
    + intros [= <-]. simpl. by apply (Hr []).
    + rewrite jsmap_get_set. destruct (decide (w0 = w)) as [->|Hne].
      * apply IH. by apply trie_ok_child.
      * intros Hn. apply (Hr (w :: ctx)). by simpl.
Qed.

Lemma trie_ok_train (m : t) (tokens : list string) :
  trie_ok (root m) → trie_ok (root (train m tokens)).
Proof.
  intros Hr. destruct tokens as [|t0 tokens'] eqn:Htokens; [exact Hr|].
  rewrite <- Htokens.
  assert (Hgen : ∀ l r, trie_ok r →
            trie_ok (foldl (train_at (maxOrder m) tokens) r l)).
  { induction l as [|i l IH]; intros r Hok; simpl; [done|].
    apply IH. unfold train_at. destruct (tokens !! i) as [cur|]; [|done].
    generalize (seq 0 (Z.to_nat (maxOrder m + 1))) as orders.
    intros orders. revert r Hok.
    induction orders as [|o orders IHo]; intros r Hok; simpl; [done|].
    apply IHo. case_decide; [done|]. by apply trie_ok_updateTrie. }
  assert (root (train m tokens) =
          foldl (train_at (maxOrder m) tokens) (root m)
                (seq 0 (length tokens))) as -> by (by rewrite Htokens).
  by apply Hgen.
Qed.

Lemma trie_ok_trained (order : Z) (tokss : list (list string)) :
  trie_ok (root (ppm_trained order tokss)).
Proof.
  unfold ppm_trained.
  assert (Hnew : trie_ok (root (new (Some order)))) by apply trie_ok_emptyNode.
  revert Hnew. generalize (new (Some order)) as m.
  induction tokss as [|tokens tokss IH]; intros m Hm; simpl; [done|].
  by apply IH, trie_ok_train.
Qed.

End trie_invariant.

(** *** Probability mass *)

Section mass.
Import PPMModel.
Local Open Scope Q_scope.

Lemma QofNat_add (a b : nat) : QofNat (a + b) == QofNat a + QofNat b.
Proof. unfold QofNat. by rewrite Nat2Z.inj_add, inject_Z_plus. Qed.

Lemma QofNat_nonneg (a : nat) : 0 <= QofNat a.
Proof.
  unfold QofNat. change 0 with (inject_Z 0). rewrite <- Zle_Qle. lia.
Qed.

Lemma QofNat_pos (a : nat) : (0 < a)%nat → 0 < QofNat a.
Proof.
  intros Ha. unfold QofNat. change 0 with (inject_Z 0).
  rewrite <- Zlt_Qlt. lia.
Qed.

Lemma Qdiv_nonneg (a b : Q) : 0 <= a → 0 <= b → 0 <= a / b.
Proof.
  intros Ha Hb. unfold Qdiv. apply Qmult_le_0_compat; [done|].
  by apply Qinv_le_0_compat.
Qed.

Lemma share_and_escape (t d : nat) (w : Q) :
  0 <= w →
  QofNat t / QofNat (t + d) * w + w * (QofNat d / QofNat (t + d)) <= w.
Proof.
  intros Hw. destruct (decide (t + d = 0)%nat) as [Hz|Hnz].
  - assert (t = 0%nat) as -> by lia. assert (d = 0%nat) as -> by lia.
    simpl. unfold QofNat, Qdiv. simpl.
    assert (0 * / 0 * w + w * (0 * / 0) == 0) as -> by ring. done.
  - assert (Hpos : 0 < QofNat (t + d)) by (apply QofNat_pos; lia).
    assert (QofNat t / QofNat (t + d) * w + w * (QofNat d / QofNat (t + d))
            == w * ((QofNat t + QofNat d) / QofNat (t + d))) as ->
      by (unfold Qdiv; ring).
    rewrite <- QofNat_add.
    assert (QofNat (t + d) / QofNat (t + d) == 1) as ->.
    { unfold Qdiv. apply Qmult_inv_r. intros Heq. rewrite Heq in Hpos.
      by apply Qlt_irrefl in Hpos. }
    rewrite Qmult_1_r. apply Qle_refl.
Qed.

Lemma total_mass_set (r : list (string * Q)) (k : string) (v : Q) :
  total_mass (jsmap_set r k v) ==
  total_mass r - default 0 (jsmap_get r k) + v.
Proof.
  induction r as [|[k' v'] r IH]; simpl.
  - ring.
  - destruct (String.eqb k' k); simpl.
    + ring.
    + rewrite IH. ring.
Qed.

Lemma nonneg_scores_set (r : list (string * Q)) (k : string) (v : Q) :
  nonneg_scores r → 0 <= v → nonneg_scores (jsmap_set r k v).
Proof.
  intros Hr Hv. induction Hr as [|[k' v'] r Hk Hr IH]; simpl.
  - by repeat constructor.
  - destruct (String.eqb k' k); constructor; done.
Qed.

End mass.

Section mass_of_prediction.
Import PPMModel.
Local Open Scope Q_scope.

Lemma distribute_mass (node : ContextNode) (weight : Q)
    (results : list (string * Q)) (excluded : list string) :
  0 <= weight → nonneg_scores results →
  let out := distribute node weight (results, excluded) in
  total_mass out.1 <=
    total_mass results +
    QofNat (sum_counts (counts node)) /
    QofNat (totalCount node + distinctCount node) * weight ∧
  nonneg_scores out.1.
Proof.
  intros Hw. unfold distribute.
  generalize (totalCount node + distinctCount node)%nat as denominator.
  intros denominator. generalize (counts node) as entries.
  intros entries. revert results excluded.
  induction entries as [|[k count] entries IH]; intros results excluded Hr.
  - simpl. split; [|done]. unfold QofNat, Qdiv. simpl.
    assert (total_mass results + 0 * / inject_Z (Z.of_nat denominator) * weight
            == total_mass results) as -> by ring.
    apply Qle_refl.
  - cbn [foldl sum_counts foldr]. cbn [snd].
    assert (Hshare : 0 <= QofNat count / QofNat denominator * weight).
    { apply Qmult_le_0_compat; [|done].
      apply Qdiv_nonneg; apply QofNat_nonneg. }
    assert (Hsplit : QofNat (count + sum_counts entries) /
                     QofNat denominator * weight ==
                     QofNat count / QofNat denominator * weight +
                     QofNat (sum_counts entries) / QofNat denominator * weight).
    { rewrite QofNat_add. unfold Qdiv. ring. }
    change (foldr (λ p acc, (p.2 + acc)%nat) 0%nat entries)
      with (sum_counts entries).
    rewrite Hsplit.
    destruct (jsset_has excluded k) eqn:Hk.
    + destruct (IH results excluded Hr) as [IHm IHn]. split; [|done].
      lra.
    + set (finalProb := QofNat count / QofNat denominator * weight) in *.
      set (results1 := jsmap_set results k
                         (default 0 (jsmap_get results k) + finalProb)).
      assert (Hr1 : nonneg_scores results1).
      { apply nonneg_scores_set; [done|].
        assert (0 <= default 0 (jsmap_get results k)) as Hold.
        { destruct (jsmap_get results k) as [v|] eqn:Hget; simpl; [|done].
          clear -Hr Hget. induction Hr as [|[k' v'] r Hk' Hr IH];
            simpl in Hget; [done|].
          destruct (String.eqb k' k); [by injection Hget as <-|by apply IH]. }
        lra. }
      destruct (IH results1 (jsset_add excluded k) Hr1) as [IHm IHn].
      split; [|done].
      pose proof (total_mass_set results k
                    (default 0 (jsmap_get results k) + finalProb)) as Hset.
      fold results1 in Hset. lra.
Qed.

Lemma handleOrderMinusOne_nothing_left (m : t) (results : list (string * Q))
    (excluded : list string) (weight : Q) :
  (length (vocabulary m) ≤ length excluded)%nat →
  handleOrderMinusOne m results excluded weight = results.
Proof.
  intros Hlen. unfold handleOrderMinusOne.
  by rewrite (proj2 (Z.leb_le _ 0)) by lia.
Qed.

Lemma jsset_has_true (s : list string) (k : string) :
  jsset_has s k = true ↔ k ∈ s.
Proof.
  unfold jsset_has. rewrite existsb_exists. split.
  - intros (x & Hx & Heq). apply String.eqb_eq in Heq as ->.
    by apply list_elem_of_In.
  - intros Hk. exists k. split; [by apply list_elem_of_In|].
    apply String.eqb_refl.
Qed.

Lemma total_mass_perm (l l' : list (string * Q)) :
  l ≡ₚ l' → total_mass l == total_mass l'.
Proof.
  induction 1 as [|x l l' _ IH|x y l|l l' l'' _ IH1 _ IH2]; simpl.
  - reflexivity.
  - by rewrite IH.
  - ring.
  - by rewrite IH1.
Qed.

Lemma sort_desc_by_score (l : list (string * Q)) :
  sort_desc l = sort_by_score snd l.
Proof.
  unfold sort_desc, sort_by_score. induction l as [|x l IH]; simpl; [done|].
  rewrite IH. generalize (foldr (insert_by_score snd) [] l) as sorted.
  induction sorted as [|y sorted IHs]; simpl; [done|].
  by rewrite IHs.
Qed.

End mass_of_prediction.

Section mass_bound.
Import PPMModel.

Lemma countAt_train_by_end (m : t) (tokens ctx : list string) (tok : string) :
  countAt (root (train m tokens)) ctx tok =
  countAt (root m) ctx tok +
  length (filter (λ i, length ctx ≤ i ∧
                       take (length ctx) (drop (i - length ctx) tokens) = ctx ∧
                       tokens !! i = Some tok ∧
                       (Z.of_nat (length ctx) ≤ maxOrder m)%Z)
                 (seq 0 (length tokens))).
Proof.
  destruct tokens as [|t0 tokens'] eqn:Htokens; [simpl; lia|].
  rewrite <- Htokens.
  assert (root (train m tokens) =
          foldl (train_at (maxOrder m) tokens) (root m)
                (seq 0 (length tokens))) as -> by (by rewrite Htokens).
  apply (foldl_indicator (λ r, countAt r ctx tok)).
  intros r i Hin. apply elem_of_seq in Hin. apply countAt_train_at. lia.
Qed.

Lemma maxOrder_train (m : t) (tokens : list string) :
  maxOrder (train m tokens) = maxOrder m.
Proof. by destruct tokens. Qed.

Lemma vocabulary_train (m : t) (tokens : list string) :
  vocabulary (train m tokens) = foldl jsset_add (vocabulary m) tokens.
Proof. by destruct tokens. Qed.

Lemma vocab_counted_train (m : t) (tokens : list string) :
  (0 ≤ maxOrder m)%Z → vocab_counted m → vocab_counted (train m tokens).
Proof.
  intros Hord Hm tok Hin. rewrite vocabulary_train in Hin.
  apply elem_of_foldl_jsset_add in Hin as [Hin|Hin].
  - specialize (Hm tok Hin). rewrite countAt_train_by_end. lia.
  - rewrite countAt_train_by_end.
    apply list_elem_of_lookup in Hin as [i Hi].
    assert (i ∈ filter (λ i, length (@nil string) ≤ i ∧
                       take (length (@nil string))
                            (drop (i - length (@nil string)) tokens) = [] ∧
                       tokens !! i = Some tok ∧
                       (Z.of_nat (length (@nil string)) ≤ maxOrder m)%Z)
                 (seq 0 (length tokens))) as Hmem.
    { apply list_elem_of_filter. split.
      - simpl. split_and!; try done. lia.
      - apply elem_of_seq. apply lookup_lt_Some in Hi. lia. }
    destruct (filter _ _); [by apply elem_of_nil in Hmem|simpl; lia].
Qed.

Lemma ppm_trained_invariants (order : Z) (tokss : list (list string)) :
  (0 ≤ order)%Z →
  let m := ppm_trained order tokss in
  trie_ok (root m) ∧ vocab_counted m ∧ NoDup (vocabulary m).
Proof.
  intros Hord m. split; [apply trie_ok_trained|]. subst m.
  unfold ppm_trained.
  assert (Hnew : (0 ≤ maxOrder (new (Some order)))%Z ∧
                 vocab_counted (new (Some order)) ∧
                 NoDup (vocabulary (new (Some order)))).
  { split_and!; [done| |constructor]. intros tok Hin.
    by apply elem_of_nil in Hin. }
  revert Hnew. generalize (new (Some order)) as m.
  induction tokss as [|tokens tokss IH]; intros m (Ho & Hc & Hn); simpl;
    [done|].
  apply IH. split_and!.
  - by rewrite maxOrder_train.
  - by apply vocab_counted_train.
  - rewrite vocabulary_train. by apply NoDup_foldl_jsset_add.
Qed.

Local Open Scope Q_scope.

Lemma root_excludes_vocabulary (m : t) (weight : Q)
    (results : list (string * Q)) (excluded : list string) :
  vocab_counted m → NoDup (vocabulary m) →
  (length (vocabulary m) ≤
   length (distribute (root m) weight (results, excluded)).2)%nat.
Proof.
  intros Hc Hn. apply submseteq_length, NoDup_submseteq; [done|].
  intros tok Hin. apply jsset_has_true.
  destruct (distribute_spec (root m) weight results excluded) as [_ He].
  rewrite He. apply orb_true_iff. right. apply bool_decide_eq_true.
  specialize (Hc tok Hin). unfold countAt in Hc. simpl in Hc.
  destruct (jsmap_get (counts (root m)) tok); [done|simpl in Hc; lia].
Qed.

Lemma calculate_mass (cutoff : Q) (m : t) (ctx : list string)
    (results : list (string * Q)) (excluded : list string) (w : Q) :
  trie_ok (root m) → vocab_counted m → NoDup (vocabulary m) →
  0 <= w → nonneg_scores results →
  let out := calculateProbabilitiesRecursive cutoff m ctx results excluded w in
  total_mass out.1 <= total_mass results + w ∧ nonneg_scores out.1.
Proof.
  intros Hok Hc Hn. revert results excluded w.
  induction ctx as [|w0 ctx IH]; intros results excluded w Hw Hr;
    cbn [calculateProbabilitiesRecursive].
  - destruct (Qltb w cutoff); [simpl; split; [lra|done]|].
    cbn [findNode].
    pose proof (distribute_mass (root m) w results excluded Hw Hr) as Hd.
    pose proof (root_excludes_vocabulary m w results excluded Hc Hn) as Hlen.
    destruct (distribute (root m) w (results, excluded)) as [r' e'].
    simpl in Hd, Hlen. destruct Hd as [Hm Hnn].
    rewrite handleOrderMinusOne_nothing_left by done. simpl.
    split; [|done].
    rewrite <- (Hok [] (root m) eq_refl) in Hm.
    pose proof (share_and_escape (totalCount (root m))
                  (distinctCount (root m)) w Hw) as Hse.
    assert (0 <= w * (QofNat (distinctCount (root m)) /
                      QofNat (totalCount (root m) + distinctCount (root m)))).
    { apply Qmult_le_0_compat; [done|].
      apply Qdiv_nonneg; apply QofNat_nonneg. }
    lra.
  - destruct (Qltb w cutoff); [simpl; split; [lra|done]|].
    destruct (findNode (root m) (w0 :: ctx)) as [node|] eqn:Hnode.
    + pose proof (distribute_mass node w results excluded Hw Hr) as Hd.
      destruct (distribute node w (results, excluded)) as [r' e'].
      simpl in Hd. destruct Hd as [Hm Hnn].
      assert (Hesc : 0 <= w * escapeProb node).
      { apply Qmult_le_0_compat; [done|]. unfold escapeProb.
        apply Qdiv_nonneg; apply QofNat_nonneg. }
      destruct (IH r' e' (w * escapeProb node) Hesc Hnn) as [IHm IHn].
      split; [|done].
      rewrite <- (Hok _ node Hnode) in Hm.
      pose proof (share_and_escape (totalCount node) (distinctCount node)
                    w Hw) as Hse.
      unfold escapeProb in *. lra.
    + by apply IH.
Qed.

End mass_bound.

(** *** What a prediction contains *)

Section prediction_keys.
Import PPMModel.

Lemma hasAt_child (r : ContextNode) (w : string) (ctx : list string)
    (tok : string) :
  hasAt (default emptyNode (jsmap_get (children r) w)) ctx tok =
  hasAt r (w :: ctx) tok.
Proof.
  unfold hasAt; simpl. destruct (jsmap_get (children r) w); simpl; [done|].
  rewrite findNode_emptyNode. by destruct ctx.
Qed.

Lemma trie_within_emptyNode (V : list string) : trie_within V emptyNode.
Proof.
  intros ctx tok. unfold hasAt. rewrite findNode_emptyNode.
  by destruct ctx.
Qed.

Lemma trie_within_child (V : list string) (r : ContextNode) (w : string) :
  trie_within V r →
  trie_within V (default emptyNode (jsmap_get (children r) w)).
Proof.
  intros Hr ctx tok. rewrite hasAt_child. apply Hr.
Qed.

Lemma trie_within_updateTrie (V : list string) (c : list string)
    (tok : string) (r : ContextNode) :
  tok ∈ V → trie_within V r → trie_within V (updateTrie c tok r).
Proof.
  intros Htok. revert r. induction c as [|w0 c IH]; intros r Hr ctx tok'.
  - destruct ctx as [|w ctx]; unfold hasAt; simpl.
    + rewrite jsmap_get_set. destruct (decide (tok = tok')) as [<-|Hne];
        [done|]. intros H. apply (Hr [] tok'). by unfold hasAt.
    + intros H. apply (Hr (w :: ctx) tok'). by unfold hasAt.
  - destruct ctx as [|w ctx]; unfold hasAt; simpl.
    + intros H. apply (Hr [] tok'). by unfold hasAt.
    + rewrite jsmap_get_set. destruct (decide (w0 = w)) as [->|Hne].
      * intros H. apply (IH _ (trie_within_child V r w Hr) ctx tok').
        by unfold hasAt.
      * intros H. apply (Hr (w :: ctx) tok'). by unfold hasAt.
Qed.

Lemma trie_within_mono (V V' : list string) (r : ContextNode) :
  V ⊆ V' → trie_within V r → trie_within V' r.
Proof. intros Hsub Hr ctx tok H. apply Hsub, (Hr ctx tok H). Qed.

Lemma trie_within_train (m : t) (tokens : list string) :
  trie_within (vocabulary m) (root m) →
  trie_within (vocabulary (train m tokens)) (root (train m tokens)).
Proof.
  intros Hr. destruct tokens as [|t0 tokens'] eqn:Htokens; [exact Hr|].
  rewrite <- Htokens.
  set (V := foldl jsset_add (vocabulary m) tokens).
  assert (HV : trie_within V (root m)).
  { apply (trie_within_mono (vocabulary m)); [|done].
    intros tok Hin. apply elem_of_foldl_jsset_add. by left. }
  assert (Hgen : ∀ l r, trie_within V r →
            trie_within V (foldl (train_at (maxOrder m) tokens) r l)).
  { induction l as [|i l IH]; intros r Hok; simpl; [done|].
    apply IH. unfold train_at.
    destruct (tokens !! i) as [cur|] eqn:Hcur; [|done].
    assert (Hin : cur ∈ V).
    { apply elem_of_foldl_jsset_add. right.
      by apply list_elem_of_lookup_2 in Hcur. }
    generalize (seq 0 (Z.to_nat (maxOrder m + 1))) as orders.
    intros orders. revert r Hok.
    induction orders as [|o orders IHo]; intros r Hok; simpl; [done|].
    apply IHo. case_decide; [done|]. by apply trie_within_updateTrie. }
  assert (train m tokens =
          {| maxOrder := maxOrder m;
             root := foldl (train_at (maxOrder m) tokens) (root m)
                           (seq 0 (length tokens));
             vocabulary := V |}) as -> by (subst V; by rewrite Htokens).
  simpl. by apply Hgen.
Qed.

Lemma trie_within_trained (order : Z) (tokss : list (list string)) :
  trie_within (vocabulary (ppm_trained order tokss))
              (root (ppm_trained order tokss)).
Proof.
  unfold ppm_trained.
  assert (Hnew : trie_within (vocabulary (new (Some order)))
                             (root (new (Some order))))
    by apply trie_within_emptyNode.
  revert Hnew. generalize (new (Some order)) as m.
  induction tokss as [|tokens tokss IH]; intros m Hm; simpl; [done|].
  by apply IH, trie_within_train.
Qed.

(** The keys of a [Map] after [set]. *)
Lemma jsmap_set_keys {V} (m : list (string * V)) (k : string) (v : V) :
  (jsmap_set m k v).*1 = if bool_decide (k ∈ m.*1) then m.*1 else m.*1 ++ [k].
Proof.
  induction m as [|[k' v'] m IH]; [done|]. cbn [jsmap_set].
  destruct (String.eqb k' k) eqn:Hk; rewrite !fmap_cons; cbn [fst].
  - apply String.eqb_eq in Hk as ->.
    rewrite bool_decide_eq_true_2 by left. done.
  - apply String.eqb_neq in Hk. rewrite IH.
    destruct (bool_decide (k ∈ m.*1)) eqn:Hin.
    + apply bool_decide_eq_true in Hin.
      rewrite bool_decide_eq_true_2 by (by right). done.
    + apply bool_decide_eq_false in Hin.
      rewrite bool_decide_eq_false_2; [done|].
      intros [?|?]%elem_of_cons; congruence.
Qed.

Lemma jsmap_set_NoDup {V} (m : list (string * V)) (k : string) (v : V) :
  NoDup m.*1 → NoDup (jsmap_set m k v).*1.
Proof.
  intros Hn. rewrite jsmap_set_keys.
  destruct (bool_decide (k ∈ m.*1)) eqn:Hin; [done|].
  apply bool_decide_eq_false in Hin.
  apply NoDup_app. split_and!; [done| |apply NoDup_singleton].
  intros x Hx Hx'. apply list_elem_of_singleton in Hx'. by subst.
Qed.

Lemma jsmap_set_key_in {V} (m : list (string * V)) (k k' : string) (v : V) :
  k' ∈ (jsmap_set m k v).*1 → k' = k ∨ k' ∈ m.*1.
Proof.
  rewrite jsmap_set_keys. destruct (bool_decide (k ∈ m.*1)); [by right|].
  intros [?|Hk]%elem_of_app; [by right|].
  apply list_elem_of_singleton in Hk. by left.
Qed.

Lemma jsmap_key_in_get {V} (m : list (string * V)) (k : string) :
  k ∈ m.*1 → is_Some (jsmap_get m k).
Proof.
  induction m as [|[k' v'] m IH]; simpl; [by intros ?%elem_of_nil|].
  destruct (String.eqb k' k) eqn:Hk; [done|].
  apply String.eqb_neq in Hk. intros [?|?]%elem_of_cons; [congruence|auto].
Qed.

Lemma jsmap_get_key_in {V} (m : list (string * V)) (k : string) :
  is_Some (jsmap_get m k) → k ∈ m.*1.
Proof.
  induction m as [|[k' v'] m IH]; simpl; [by intros [? ?]|].
  destruct (String.eqb k' k) eqn:Hk.
  - apply String.eqb_eq in Hk as ->. left.
  - right. auto.
Qed.

Lemma keys_ok_set (V : list string) (r : list (string * Q)) (k : string)
    (v : Q) :
  k ∈ V → keys_ok V r → keys_ok V (jsmap_set r k v).
Proof.
  intros Hk [Hn Hin]. split; [by apply jsmap_set_NoDup|].
  intros k' [->|?]%jsmap_set_key_in; auto.
Qed.

Lemma distribute_keys (V : list string) (node : ContextNode) (weight : Q)
    (results : list (string * Q)) (excluded : list string) :
  (∀ tok, is_Some (jsmap_get (counts node) tok) → tok ∈ V) →
  keys_ok V results →
  keys_ok V (distribute node weight (results, excluded)).1.
Proof.
  unfold distribute. intros Hnode.
  assert (Hin : ∀ e, e ∈ counts node → e.1 ∈ V).
  { intros [k c] He. apply Hnode, jsmap_key_in_get.
    apply list_elem_of_fmap. by exists (k, c). }
  clear Hnode. revert results excluded.
  induction (counts node) as [|[k c] entries IH]; intros results excluded Hr;
    simpl; [done|].
  destruct (jsset_has excluded k).
  - apply IH; [|done]. intros e He. apply Hin. by right.
  - apply IH; [intros e He; apply Hin; by right|].
    apply keys_ok_set; [|done]. apply (Hin (k, c)). left.
Qed.

Lemma handleOrderMinusOne_keys (m : t) (results : list (string * Q))
    (excluded : list string) (weight : Q) :
  keys_ok (vocabulary m) results →
  keys_ok (vocabulary m) (handleOrderMinusOne m results excluded weight).
Proof.
  unfold handleOrderMinusOne. intros Hr.
  destruct (_ <=? 0)%Z; [done|].
  match goal with
  | |- keys_ok _ (foldl ?f _ _) =>
      assert (Hgen : ∀ l results, (∀ k, k ∈ l → k ∈ vocabulary m) →
                keys_ok (vocabulary m) results →
                keys_ok (vocabulary m) (foldl f results l))
  end.
  { induction l as [|k l IH]; intros res Hsub Hres; simpl; [done|].
    apply IH; [intros k' Hk'; apply Hsub; by right|].
    destruct (jsset_has excluded k); [done|].
    apply keys_ok_set; [|done]. apply Hsub. left. }
  by apply Hgen.
Qed.

Lemma calculate_keys (cutoff : Q) (m : t) (ctx : list string)
    (results : list (string * Q)) (excluded : list string) (w : Q) :
  trie_within (vocabulary m) (root m) →
  keys_ok (vocabulary m) results →
  keys_ok (vocabulary m)
    (calculateProbabilitiesRecursive cutoff m ctx results excluded w).1.
Proof.
  intros Hok. revert results excluded w.
  assert (Hnode : ∀ c node, findNode (root m) c = Some node →
            ∀ tok, is_Some (jsmap_get (counts node) tok) →
                   tok ∈ vocabulary m).
  { intros c node Hc tok Htok. apply (Hok c tok). unfold hasAt.
    rewrite Hc. by apply bool_decide_eq_true. }
  induction ctx as [|w0 ctx IH]; intros results excluded w Hr;
    cbn [calculateProbabilitiesRecursive].
  - destruct (Qltb w cutoff); [done|]. cbn [findNode].
    pose proof (distribute_keys _ (root m) w results excluded
                  (Hnode [] _ eq_refl) Hr) as Hd.
    destruct (distribute (root m) w (results, excluded)) as [r' e'].
    simpl in *. by apply handleOrderMinusOne_keys.
  - destruct (Qltb w cutoff); [done|].
    destruct (findNode (root m) (w0 :: ctx)) as [node|] eqn:Hfind.
    + pose proof (distribute_keys _ node w results excluded
                    (Hnode _ _ Hfind) Hr) as Hd.
      destruct (distribute node w (results, excluded)) as [r' e'].
      by apply IH.
    + by apply IH.
Qed.

End prediction_keys.

Section prediction_results.
Import PPMModel.

Lemma keys_ok_nil (V : list string) : keys_ok V [].
Proof. split; [constructor|]. by intros k ?%elem_of_nil. Qed.

(** X17: what [predict] returns for a trained model of order at least 0.
    The suggestions come in descending order of probability, no token is
    suggested twice, and every suggested token is a word of the training
    vocabulary.  (For a negative order no node of the trie has a count and
    the source divides 0 by 0; that case is left out.) *)
Theorem X17_predict_ranks_vocabulary (order : Z) (tokss : list (list string))
    (history : list string) :
  (0 ≤ order)%Z →
  let m := ppm_trained order tokss in
  let out := predict m history in
  StronglySorted (by_score_desc snd) out ∧
  NoDup out.*1 ∧
  ∀ p, p ∈ out → p.1 ∈ vocabulary m.
Proof.
  intros _ m out. subst out. unfold predict, predict_with.
  pose proof (calculate_keys WEIGHT_CUTOFF m
                (slice_from (- maxOrder m) history) [] [] 1%Q
                (trie_within_trained order tokss)
                (keys_ok_nil _)) as [Hn Hin].
  destruct (calculateProbabilitiesRecursive _ _ _ _ _ _) as [probs e].
  simpl in Hn, Hin. rewrite sort_desc_by_score.
  split_and!.
  - apply sort_by_score_sorted.
  - by rewrite (sort_by_score_perm snd probs).
  - intros p Hp. rewrite (sort_by_score_perm snd probs) in Hp.
    apply Hin, list_elem_of_fmap. by exists p.
Qed.

Local Open Scope Q_scope.

(** X18: the probabilities of a prediction.  For a model of order at least
    0 that was trained on any texts, every probability returned by
    [predict] is at least 0 and together they are at most 1. *)
Theorem X18_predicted_mass_at_most_one (order : Z)
    (tokss : list (list string)) (history : list string) :
  (0 ≤ order)%Z →
  let out := predict (ppm_trained order tokss) history in
  total_mass out <= 1 ∧ ∀ p, p ∈ out → 0 <= p.2.
Proof.
  intros Hord out. subst out. unfold predict, predict_with.
  destruct (ppm_trained_invariants order tokss Hord) as (Hok & Hc & Hn).
  set (m := ppm_trained order tokss) in *.
  assert (Hnil : nonneg_scores []) by constructor.
  pose proof (calculate_mass WEIGHT_CUTOFF m
                (slice_from (- maxOrder m) history) [] [] 1
                Hok Hc Hn ltac:(done) Hnil) as [Hm Hnn].
  destruct (calculateProbabilitiesRecursive _ _ _ _ _ _) as [probs e].
  simpl in Hm, Hnn. rewrite sort_desc_by_score.
  split.
  - rewrite (total_mass_perm _ _ (sort_by_score_perm snd probs)). lra.
  - intros p Hp. rewrite (sort_by_score_perm snd probs) in Hp.
    unfold nonneg_scores in Hnn. rewrite Forall_forall in Hnn. by apply Hnn.
Qed.

End prediction_results.

Lemma X17_predict_ranks_vocabulary_witness :
  let m := ppm_trained 2 [["a"; "b"; "a"; "c"]] in
  let out := PPMModel.predict m ["a"] in
  StronglySorted (by_score_desc snd) out ∧
  NoDup out.*1 ∧
  ∀ p, p ∈ out → p.1 ∈ PPMModel.vocabulary m.
Proof.
  apply (X17_predict_ranks_vocabulary 2 [["a"; "b"; "a"; "c"]] ["a"]). lia.
Defined.

Lemma X18_predicted_mass_at_most_one_witness :
  (0 ≤ 2)%Z ∧
  (PPMModel.total_mass
     (PPMModel.predict (ppm_trained 2 [["a"; "b"; "a"; "c"]]) ["a"]) <= 1)%Q.
Proof.
  split; [lia|].
  apply (X18_predicted_mass_at_most_one 2 [["a"; "b"; "a"; "c"]] ["a"]). lia.
Defined.

(** ** The weighted-blend model *)

Section map_updates.
Context {V : Type}.

Lemma jsmap_set_fresh (m : list (string * V)) (k : string) (v : V) :
  k ∉ m.*1 → jsmap_set m k v = m ++ [(k, v)].
Proof.
  induction m as [|[k' v'] m IH]; intros Hk; [done|]. cbn [jsmap_set].
  rewrite fmap_cons in Hk. cbn [fst] in Hk.
  apply not_elem_of_cons in Hk as [Hne Hk].
  destruct (String.eqb k' k) eqn:E.
  - apply String.eqb_eq in E. congruence.
  - by rewrite IH.
Qed.

Lemma jsmap_set_middle (l1 l2 : list (string * V)) (k : string) (v v' : V) :
  k ∉ l1.*1 →
  jsmap_set (l1 ++ (k, v) :: l2) k v' = l1 ++ (k, v') :: l2.
Proof.
  induction l1 as [|[k' w] l1 IH]; intros Hk; cbn [jsmap_set app].
  - by rewrite String.eqb_refl.
  - rewrite fmap_cons in Hk. cbn [fst] in Hk.
    apply not_elem_of_cons in Hk as [Hne Hk].
    destruct (String.eqb k' k) eqn:E.
    + apply String.eqb_eq in E. congruence.
    + by rewrite IH.
Qed.

(** Filling a [Map] from a list of distinct new keys. *)
Lemma foldl_set_new_keys (f : string → V) (l : list string)
    (acc : list (string * V)) :
  NoDup l → (∀ k, k ∈ l → k ∉ acc.*1) →
  foldl (λ m k, jsmap_set m k (f k)) acc l = acc ++ ((λ k, (k, f k)) <$> l).
Proof.
  revert acc. induction l as [|k l IH]; intros acc Hn Hacc; simpl.
  - by rewrite app_nil_r.
  - apply NoDup_cons in Hn as [Hk Hn].
    rewrite jsmap_set_fresh by (apply Hacc; left).
    rewrite IH; [by rewrite <- app_assoc|done|].
    intros k' Hk'. rewrite fmap_app. simpl.
    intros [Hin|Hin]%elem_of_app.
    + apply (Hacc k'); [by right|done].
    + apply list_elem_of_singleton in Hin. by subst.
Qed.

(** Rewriting every value of a [Map] while walking over its entries. *)
Lemma foldl_set_own_entries (g : V → V) (l1 l2 : list (string * V)) :
  NoDup (l1.*1 ++ l2.*1) →
  foldl (λ m '(k, v), jsmap_set m k (g v)) (l1 ++ l2) l2 =
  l1 ++ ((λ p, (p.1, g p.2)) <$> l2).
Proof.
  revert l1. induction l2 as [|[k v] l2 IH]; intros l1 Hn; simpl.
  - done.
  - rewrite jsmap_set_middle; last first.
    { apply NoDup_app in Hn as (_ & Hd & _). intros Hin.
      apply (Hd k Hin). left. }
    replace (l1 ++ (k, g v) :: l2) with ((l1 ++ [(k, g v)]) ++ l2)
      by (by rewrite <- app_assoc).
    rewrite IH; [by rewrite <- app_assoc|].
    rewrite fmap_app. simpl. rewrite <- app_assoc. simpl.
    by rewrite fmap_cons in Hn.
Qed.

Lemma foldl_set_own_keys (u : V) (l1 l2 : list (string * V)) :
  NoDup (l1.*1 ++ l2.*1) →
  foldl (λ m k, jsmap_set m k u) (l1 ++ l2) l2.*1 =
  l1 ++ ((λ p, (p.1, u)) <$> l2).
Proof.
  revert l1. induction l2 as [|[k v] l2 IH]; intros l1 Hn; simpl.
  - done.
  - rewrite jsmap_set_middle; last first.
    { apply NoDup_app in Hn as (_ & Hd & _). intros Hin.
      apply (Hd k Hin). left. }
    replace (l1 ++ (k, u) :: l2) with ((l1 ++ [(k, u)]) ++ l2)
      by (by rewrite <- app_assoc).
    rewrite IH; [by rewrite <- app_assoc|].
    rewrite fmap_app. simpl. rewrite <- app_assoc. simpl.
    by rewrite fmap_cons in Hn.
Qed.

Lemma jsmap_get_NoDup (m : list (string * V)) (k : string) (v : V) :
  NoDup m.*1 → (k, v) ∈ m → jsmap_get m k = Some v.
Proof.
  induction m as [|[k' v'] m IH]; intros Hn Hin;
    [by apply elem_of_nil in Hin|].
  rewrite fmap_cons in Hn. cbn [fst] in Hn.
  apply NoDup_cons in Hn as [Hk Hn]. cbn [jsmap_get].
  apply elem_of_cons in Hin as [[= <- <-]|Hin].
  - by rewrite String.eqb_refl.
  - destruct (String.eqb k' k) eqn:E; [|by apply IH].
    apply String.eqb_eq in E as ->. exfalso. apply Hk.
    apply list_elem_of_fmap. by exists (k, v).
Qed.

End map_updates.

Section blend_distribution.
Import BlendedPPM.
Local Open Scope Q_scope.

Lemma pow2_pos (order : nat) : 0 < inject_Z (2 ^ Z.of_nat order).
Proof.
  change 0 with (inject_Z 0). rewrite <- Zlt_Qlt.
  apply Z.pow_pos_nonneg; lia.
Qed.

Lemma blend_nonneg (m : t) (context : list string) (token : string) :
  0 <= (blend m context token).1 ∧ 0 <= (blend m context token).2.
Proof.
  unfold blend.
  generalize (rev (seq 0 (Z.to_nat
                (Z.min (Z.of_nat (length context)) (maxOrder m) + 1)))).
  intros orders.
  assert (Hstart : 0 <= (0, 0).1 ∧ 0 <= (0, 0).2) by (simpl; split; lra).
  revert Hstart. generalize (0, 0) as acc.
  induction orders as [|order orders IH]; intros [p ws] Hacc; simpl; [done|].
  apply IH. simpl in Hacc.
  destruct (PPMModel.Qltb 0 _) eqn:E; [|done].
  apply Qltb_true in E. pose proof (pow2_pos order) as Hw. simpl.
  split; [|lra].
  assert (0 <= inject_Z (2 ^ Z.of_nat order) *
               getConditionalProbability (root m)
                 (drop (length context - order) context) token).
  { apply Qmult_le_0_compat; lra. }
  lra.
Qed.

Lemma smoothed_pos (m : t) (context : list string) (token : string) :
  vocabulary m ≠ [] → 0 < smoothed m context token.
Proof.
  intros Hv. unfold smoothed.
  pose proof (blend_nonneg m context token) as [Hp Hws].
  destruct (blend m context token) as [p ws]. simpl in Hp, Hws.
  assert (Hsize : 0 < QofNat (length (vocabulary m))).
  { apply QofNat_pos. destruct (vocabulary m); [done|simpl; lia]. }
  assert (Hinv : 0 < / QofNat (length (vocabulary m)))
    by (by apply Qinv_lt_0_compat).
  destruct (PPMModel.Qltb 0 ws) eqn:E.
  - assert (0 <= p / ws) by (by apply Qdiv_nonneg).
    unfold alpha, Qdiv in *.
    assert (0 <= (1 - (1 # 10)) * (p * / ws)).
    { apply Qmult_le_0_compat; [lra|done]. }
    assert (0 < (1 # 10) * / QofNat (length (vocabulary m))).
    { apply Qmult_lt_0_compat; [lra|done]. }
    lra.
  - unfold Qdiv. lra.
Qed.

Lemma foldl_sum_scores (l : list (string * Q)) (a : Q) :
  foldl (λ sum p, sum + p.2) a l == a + PPMModel.total_mass l.
Proof.
  revert a. induction l as [|p l IH]; intros a; simpl; [ring|].
  rewrite IH. ring.
Qed.

Lemma total_mass_pos (l : list (string * Q)) :
  l ≠ [] → (∀ p, p ∈ l → 0 < p.2) → 0 < PPMModel.total_mass l.
Proof.
  intros Hl Hpos.
  assert (Hnn : ∀ l', (∀ p, p ∈ l' → 0 < p.2) → 0 <= PPMModel.total_mass l').
  { induction l' as [|p l' IH]; intros Hp; simpl; [lra|].
    assert (0 < p.2) by (apply Hp; left).
    assert (0 <= PPMModel.total_mass l')
      by (apply IH; intros q Hq; apply Hp; by right).
    lra. }
  destruct l as [|p l]; [done|]. simpl.
  assert (0 < p.2) by (apply Hpos; left).
  assert (0 <= PPMModel.total_mass l)
    by (apply Hnn; intros q Hq; apply Hpos; by right).
  lra.
Qed.

Lemma total_mass_scaled (s : Q) (l : list (string * Q)) :
  PPMModel.total_mass ((λ p, (p.1, p.2 / s)) <$> l) ==
  PPMModel.total_mass l / s.
Proof.
  induction l as [|p l IH]; simpl.
  - unfold Qdiv. ring.
  - rewrite IH. unfold Qdiv. ring.
Qed.

Lemma normalizeProbabilities_positive (l : list (string * Q)) :
  NoDup l.*1 → l ≠ [] → (∀ p, p ∈ l → 0 < p.2) →
  normalizeProbabilities l =
  (λ p, (p.1, p.2 / foldl (λ sum p, sum + p.2) 0 l)) <$> l.
Proof.
  intros Hn Hl Hpos. unfold normalizeProbabilities.
  set (s := foldl (λ sum p, sum + p.2) 0 l).
  assert (Hs : 0 < s).
  { subst s. rewrite foldl_sum_scores.
    pose proof (total_mass_pos l Hl Hpos). lra. }
  destruct (Qeq_bool s 0) eqn:E.
  { apply Qeq_bool_iff in E. rewrite E in Hs. by apply Qlt_irrefl in Hs. }
  pose proof (foldl_set_own_entries (λ v, v / s) [] l) as Hown.
  simpl in Hown. apply Hown. done.
Qed.

Lemma normalizeProbabilities_nil : normalizeProbabilities [] = [].
Proof. done. Qed.

Lemma blend_trained_vocabulary_NoDup (order : Z) (tokss : list (list string)) :
  NoDup (vocabulary (blend_trained order tokss)).
Proof.
  unfold blend_trained.
  assert (Hnew : NoDup (vocabulary (new (Some order)))) by constructor.
  revert Hnew. generalize (new (Some order)) as m.
  induction tokss as [|tokens tokss IH]; intros m Hm; simpl; [done|].
  apply IH. destruct tokens as [|t0 tokens]; [done|].
  cbn [train vocabulary]. by apply NoDup_foldl_jsset_add.
Qed.

Lemma smoothed_map (m : t) (context : list string) :
  NoDup (vocabulary m) →
  foldl (λ probabilities token,
           jsmap_set probabilities token (smoothed m context token))
        [] (vocabulary m) =
  (λ k, (k, smoothed m context k)) <$> vocabulary m.
Proof.
  intros Hn.
  rewrite (foldl_set_new_keys (smoothed m context) (vocabulary m) [] Hn);
    [done|].
  intros k _ Hin. by apply elem_of_nil in Hin.
Qed.

(** [predictProbabilities] in closed form. *)
Lemma predictProbabilities_spec (m : t) (context : list string) :
  NoDup (vocabulary m) →
  ∃ s, (vocabulary m ≠ [] → 0 < s) ∧
       s == PPMModel.total_mass
              ((λ k, (k, smoothed m context k)) <$> vocabulary m) ∧
       predictProbabilities m context =
       (λ k, (k, smoothed m context k / s)) <$> vocabulary m.
Proof.
  intros Hn. unfold predictProbabilities. rewrite smoothed_map by done.
  set (raw := (λ k, (k, smoothed m context k)) <$> vocabulary m).
  exists (foldl (λ sum p, sum + p.2) 0 raw).
  assert (Hsum : foldl (λ sum p, sum + p.2) 0 raw == PPMModel.total_mass raw).
  { rewrite foldl_sum_scores. ring. }
  destruct (decide (vocabulary m = [])) as [Hv|Hv].
  - split_and!; [done|done|]. subst raw. by rewrite Hv.
  - assert (Hpos : ∀ p, p ∈ raw → 0 < p.2).
    { intros p Hp. subst raw. apply list_elem_of_fmap in Hp as (k & -> & _).
      simpl. by apply smoothed_pos. }
    assert (Hne : raw ≠ []).
    { subst raw. destruct (vocabulary m); [done|discriminate]. }
    split_and!.
    + intros _. rewrite Hsum. by apply total_mass_pos.
    + done.
    + rewrite normalizeProbabilities_positive; try done.
      * subst raw. rewrite <- list_fmap_compose. done.
      * subst raw. rewrite <- list_fmap_compose. simpl.
        by rewrite list_fmap_id.
Qed.

End blend_distribution.

Section blend_predictions.
Import BlendedPPM.
Local Open Scope Q_scope.

Lemma predictProbabilities_keys (m : t) (context : list string) :
  NoDup (vocabulary m) → (predictProbabilities m context).*1 = vocabulary m.
Proof.
  intros Hn. destruct (predictProbabilities_spec m context Hn)
    as (s & _ & _ & ->).
  rewrite <- list_fmap_compose. simpl. by rewrite list_fmap_id.
Qed.

Lemma predictProbabilities_positive (m : t) (context : list string) p :
  NoDup (vocabulary m) → p ∈ predictProbabilities m context → 0 < p.2.
Proof.
  intros Hn. destruct (predictProbabilities_spec m context Hn)
    as (s & Hs & _ & ->).
  intros (k & -> & Hk)%list_elem_of_fmap. simpl.
  assert (Hv : vocabulary m ≠ []).
  { intros Hv. rewrite Hv in Hk. by apply elem_of_nil in Hk. }
  unfold Qdiv. apply Qmult_lt_0_compat; [by apply smoothed_pos|].
  apply Qinv_lt_0_compat. by apply Hs.
Qed.

Lemma getTokenProbability_entry (m : t) (context : list string)
    (token : string) (p : Q) :
  NoDup (vocabulary m) →
  (token, p) ∈ predictProbabilities m context →
  getTokenProbability m context token = p.
Proof.
  intros Hn Hin. unfold getTokenProbability.
  rewrite (jsmap_get_NoDup _ token p); [done| |done].
  by rewrite predictProbabilities_keys.
Qed.

(** X19: [predictProbabilities] returns a probability distribution.  For a
    model of order at most [MAX_BLEND_ORDER] that has seen at least one
    token, the returned map has exactly the words of the vocabulary as
    keys, in the order in which they were first seen, every probability is
    greater than 0, and (in exact arithmetic) the probabilities sum to 1.
    (The bound keeps the weights [Math.pow(2, order)] and their sums
    inside the range of a double, where they are the exact powers of two
    of this development.) *)
Theorem X19_blend_is_a_distribution (order : Z) (tokss : list (list string))
    (context : list string) :
  (order ≤ MAX_BLEND_ORDER)%Z →
  let m := blend_trained order tokss in
  let out := predictProbabilities m context in
  vocabulary m ≠ [] →
  out.*1 = vocabulary m ∧
  (∀ p, p ∈ out → 0 < p.2) ∧
  PPMModel.total_mass out == 1.
Proof.
  intros _ m out Hv. subst out.
  pose proof (blend_trained_vocabulary_NoDup order tokss) as Hn.
  fold m in Hn. split_and!.
  - by apply predictProbabilities_keys.
  - intros p. by apply predictProbabilities_positive.
  - destruct (predictProbabilities_spec m context Hn) as (s & Hs & Hsum & ->).
    specialize (Hs Hv).
    transitivity
      (PPMModel.total_mass
         ((λ p, (p.1, p.2 / s)) <$>
          ((λ k, (k, smoothed m context k)) <$> vocabulary m))).
    { by rewrite <- list_fmap_compose. }
    rewrite total_mass_scaled, <- Hsum.
    unfold Qdiv. apply Qmult_inv_r. intros Hz. rewrite Hz in Hs.
    by apply Qlt_irrefl in Hs.
Qed.

(** X20: [getTopPredictions], for a model of order at most
    [MAX_BLEND_ORDER].  The list is in descending order of probability,
    has at most [topN] entries when [topN] is not negative (5 when it is
    left out), and every entry is a word of the vocabulary paired with the
    probability that [getTokenProbability] gives for it. *)
Theorem X20_top_predictions (order : Z) (tokss : list (list string))
    (context : list string) (topN : option Z) :
  (order ≤ MAX_BLEND_ORDER)%Z →
  let m := blend_trained order tokss in
  let out := getTopPredictions m context topN in
  StronglySorted (by_score_desc snd) out ∧
  ((default 5 topN < 0)%Z ∨
   (length out ≤ Z.to_nat (default 5%Z topN))%nat) ∧
  ∀ token p, (token, p) ∈ out →
    token ∈ vocabulary m ∧ getTokenProbability m context token = p.
Proof.
  intros _ m out. subst out. unfold getTopPredictions.
  pose proof (blend_trained_vocabulary_NoDup order tokss) as Hn.
  fold m in Hn.
  destruct (js_slice_to_is_take (default 5%Z topN)
              (sort_by_score snd (predictProbabilities m context)))
    as [k Hk].
  split_and!.
  - rewrite Hk. apply StronglySorted_take, sort_by_score_sorted.
  - destruct (decide (default 5 topN < 0)%Z) as [Hneg|Hpos]; [by left|].
    right. apply js_slice_to_length. lia.
  - intros token p Hin. rewrite Hk in Hin.
    assert (Hin' : (token, p) ∈ predictProbabilities m context).
    { rewrite <- (sort_by_score_perm snd).
      rewrite <- (take_drop k (sort_by_score snd _)).
      apply elem_of_app. by left. }
    split; [|by apply getTokenProbability_entry].
    rewrite <- (predictProbabilities_keys m context Hn).
    apply list_elem_of_fmap. by exists (token, p).
Qed.

(** X21: [getTokenProbability] separates known from unknown tokens.  For
    a model of order at most [MAX_BLEND_ORDER], the probability of a token
    is greater than 0 exactly when the token is in the vocabulary, and it
    is 0 for every other token. *)
Theorem X21_token_probability_support (order : Z)
    (tokss : list (list string)) (context : list string) (token : string) :
  (order ≤ MAX_BLEND_ORDER)%Z →
  let m := blend_trained order tokss in
  (0 < getTokenProbability m context token ↔ token ∈ vocabulary m) ∧
  (token ∉ vocabulary m → getTokenProbability m context token = 0).
Proof.
  intros _ m.
  pose proof (blend_trained_vocabulary_NoDup order tokss) as Hn.
  fold m in Hn.
  assert (Hout : token ∉ vocabulary m →
                 getTokenProbability m context token = 0).
  { intros Hnot. unfold getTokenProbability.
    destruct (jsmap_get (predictProbabilities m context) token) as [v|] eqn:E;
      [|done].
    exfalso. apply Hnot.
    rewrite <- (predictProbabilities_keys m context Hn).
    apply jsmap_get_key_in. by rewrite E. }
  split; [|done]. split.
  - intros Hpos. destruct (decide (token ∈ vocabulary m)) as [|Hnot]; [done|].
    rewrite (Hout Hnot) in Hpos. by apply Qlt_irrefl in Hpos.
  - intros Hin.
    rewrite <- (predictProbabilities_keys m context Hn) in Hin.
    apply list_elem_of_fmap in Hin as ([k v] & -> & Hin). simpl.
    rewrite (getTokenProbability_entry m context k v Hn Hin).
    apply (predictProbabilities_positive m context (k, v) Hn Hin).
Qed.

End blend_predictions.

Lemma X19_blend_is_a_distribution_witness :
  let m := blend_trained 2 [["a"; "b"; "a"; "c"]] in
  (BlendedPPM.predictProbabilities m ["a"]).*1 = BlendedPPM.vocabulary m ∧
  (∀ p, p ∈ BlendedPPM.predictProbabilities m ["a"] → (0 < p.2)%Q) ∧
  (PPMModel.total_mass (BlendedPPM.predictProbabilities m ["a"]) == 1)%Q.
Proof.
  apply (X19_blend_is_a_distribution 2 [["a"; "b"; "a"; "c"]] ["a"]).
  - unfold MAX_BLEND_ORDER. lia.
  - vm_compute. discriminate.
Defined.

Lemma X20_top_predictions_witness :
  let m := blend_trained 2 [["a"; "b"; "a"; "c"]] in
  let out := BlendedPPM.getTopPredictions m ["a"] (Some 2%Z) in
  StronglySorted (by_score_desc snd) out ∧
  ((default 5 (Some 2) < 0)%Z ∨
   (length out ≤ Z.to_nat (default 5%Z (Some 2%Z)))%nat) ∧
  ∀ token p, (token, p) ∈ out →
    token ∈ BlendedPPM.vocabulary m ∧
    BlendedPPM.getTokenProbability m ["a"] token = p.
Proof.
  apply (X20_top_predictions 2 [["a"; "b"; "a"; "c"]] ["a"] (Some 2%Z)).
  unfold MAX_BLEND_ORDER. lia.
Defined.

Lemma X21_token_probability_support_witness :
  BlendedPPM.getTokenProbability (blend_trained 2 [["a"; "b"; "a"; "c"]])
    ["a"] "z" = 0%Q.
Proof.
  apply (proj2 (X21_token_probability_support 2 [["a"; "b"; "a"; "c"]]
                  ["a"] "z" ltac:(unfold MAX_BLEND_ORDER; lia))).
  vm_compute. intros Hin. repeat (apply elem_of_cons in Hin as [Hin|Hin];
    [discriminate Hin|]). by apply elem_of_nil in Hin.
Defined.

(** *** The trie of the weighted-blend model *)

Section blend_trie.
Import BlendedPPM.

Lemma nodeAt_emptyNode (path : list string) :
  nodeAt emptyNode path = match path with [] => Some emptyNode | _ => None end.
Proof. by destruct path. Qed.

Lemma cntAt_child (r : PPMNode) (w : string) (path : list string) :
  path ≠ [] →
  cntAt (default emptyNode (jsmap_get (children r) w)) path =
  cntAt r (w :: path).
Proof.
  intros Hp. unfold cntAt; simpl.
  destruct (jsmap_get (children r) w); simpl; [done|].
  rewrite nodeAt_emptyNode. by destruct path.
Qed.

Lemma totAt_child (r : PPMNode) (w : string) (path : list string) :
  totAt (default emptyNode (jsmap_get (children r) w)) path =
  totAt r (w :: path).
Proof.
  unfold totAt; simpl. destruct (jsmap_get (children r) w); simpl; [done|].
  rewrite nodeAt_emptyNode. by destruct path.
Qed.

Lemma cntAt_single (r : PPMNode) (w : string) :
  cntAt r [w] = count (default emptyNode (jsmap_get (children r) w)).
Proof. unfold cntAt; simpl. by destruct (jsmap_get (children r) w). Qed.

Lemma totAt_single (r : PPMNode) (w : string) :
  totAt r [w] = total (default emptyNode (jsmap_get (children r) w)).
Proof. unfold totAt; simpl. by destruct (jsmap_get (children r) w). Qed.

Lemma nodeAt_same_children (n n' : PPMNode) (path : list string) :
  children n = children n' → path ≠ [] → nodeAt n path = nodeAt n' path.
Proof. intros Hc Hp. destruct path; [done|]. simpl. by rewrite Hc. Qed.

Lemma cntAt_updateModel (c : list string) (tok : string) (r : PPMNode)
    (path : list string) :
  cntAt (updateModel c tok r) path =
  cntAt r path + (if decide (path = c ++ [tok]) then 1 else 0).
Proof.
  revert r path. induction c as [|w0 c IH]; intros r path.
  - destruct path as [|w path].
    + rewrite decide_False by done. unfold cntAt; simpl. lia.
    + unfold cntAt at 1. cbn [nodeAt updateModel children].
      rewrite jsmap_get_set.
      destruct (decide (tok = w)) as [->|Hne].
      * destruct path as [|w' path].
        -- rewrite decide_True by done. simpl. rewrite cntAt_single. lia.
        -- rewrite decide_False by done.
           rewrite (nodeAt_same_children _
                      (default emptyNode (jsmap_get (children r) w)))
             by done.
           fold (cntAt (default emptyNode (jsmap_get (children r) w))
                       (w' :: path)).
           rewrite cntAt_child by done. lia.
      * rewrite decide_False by (intros [= ? ?]; done).
        unfold cntAt; simpl. lia.
  - destruct path as [|w path].
    + rewrite decide_False by done. unfold cntAt; simpl. lia.
    + unfold cntAt at 1. cbn [nodeAt updateModel children].
      rewrite jsmap_get_set.
      destruct (decide (w0 = w)) as [->|Hne].
      * fold (cntAt (updateModel c tok
                       (default emptyNode (jsmap_get (children r) w))) path).
        rewrite IH.
        destruct (decide (path = c ++ [tok])) as [->|Hp].
        -- rewrite decide_True by done.
           rewrite cntAt_child by (by destruct c). done.
        -- rewrite decide_False by (intros [= ?]; done).
           destruct path as [|w' path].
           ++ by rewrite cntAt_single.
           ++ rewrite cntAt_child by done. done.
      * rewrite decide_False by (intros [= ? ?]; done).
        unfold cntAt; simpl. lia.
Qed.

Lemma totAt_updateModel (c : list string) (tok : string) (r : PPMNode)
    (path : list string) :
  totAt (updateModel c tok r) path =
  totAt r path + (if decide (path = c) then 1 else 0).
Proof.
  revert r path. induction c as [|w0 c IH]; intros r path.
  - destruct path as [|w path].
    + rewrite decide_True by done. unfold totAt; simpl. lia.
    + rewrite decide_False by done.
      unfold totAt at 1. cbn [nodeAt updateModel children].
      rewrite jsmap_get_set.
      destruct (decide (tok = w)) as [->|Hne].
      * destruct path as [|w' path].
        -- simpl. rewrite totAt_single. lia.
        -- rewrite (nodeAt_same_children _
                      (default emptyNode (jsmap_get (children r) w)))
             by done.
           fold (totAt (default emptyNode (jsmap_get (children r) w))
                       (w' :: path)).
           rewrite totAt_child. lia.
      * unfold totAt; simpl. lia.
  - destruct path as [|w path].
    + rewrite decide_False by done. unfold totAt; simpl. lia.
    + unfold totAt at 1. cbn [nodeAt updateModel children].
      rewrite jsmap_get_set.
      destruct (decide (w0 = w)) as [->|Hne].
      * fold (totAt (updateModel c tok
                       (default emptyNode (jsmap_get (children r) w))) path).
        rewrite IH, totAt_child. f_equal. apply decide_ext.
        split; [intros ->; done|intros [= ->]; done].
      * rewrite decide_False by (intros [= ? ?]; done).
        unfold totAt; simpl. lia.
Qed.

(** The conditional probability is the ratio of the two counters. *)
Lemma getConditionalProbability_ratio (r : PPMNode) (context : list string)
    (token : string) :
  (getConditionalProbability r context token ==
   QofNat (cntAt r (context ++ [token])) / QofNat (totAt r context))%Q.
Proof.
  revert r. induction context as [|w context IH]; intros r.
  - cbn [getConditionalProbability app]. rewrite cntAt_single.
    unfold totAt. cbn [nodeAt from_option].
    destruct (jsmap_get (children r) token) as [n|]; cbn [default].
    + case_decide as Ht; [reflexivity|].
      assert (total r = 0) as -> by lia. unfold Qdiv.
      change (/ QofNat 0)%Q with 0%Q. ring.
    + unfold Qdiv. change (QofNat (count emptyNode)) with 0%Q. ring.
  - cbn [getConditionalProbability app].
    destruct (jsmap_get (children r) w) as [child|] eqn:E.
    + rewrite IH. unfold cntAt, totAt. cbn [nodeAt]. rewrite E. reflexivity.
    + unfold cntAt, totAt. cbn [nodeAt]. rewrite E. cbn [from_option].
      unfold Qdiv. change (QofNat 0) with 0%Q. ring.
Qed.

End blend_trie.

Section blend_training.
Import BlendedPPM.

Lemma foldl_two_indicators {R I : Type} (F : R → nat) (f : R → I → R)
    (P P' : I → Prop) `{!∀ i, Decision (P i)} `{!∀ i, Decision (P' i)}
    (l : list I) (r : R) :
  (∀ r i, i ∈ l → F (f r i) = F r + (if decide (P i) then 1 else 0)
                                  + (if decide (P' i) then 1 else 0)) →
  F (foldl f r l) = F r + length (filter P l) + length (filter P' l).
Proof.
  revert r. induction l as [|i l IH]; intros r Hf; simpl; [lia|].
  rewrite IH by (intros r' j Hj; apply Hf; by right).
  rewrite Hf by (by left). rewrite !filter_cons.
  repeat case_decide; simpl; lia.
Qed.

Lemma cntAt_train_at (maxOrder : Z) (tokens : list string) (r : PPMNode)
    (i : nat) (ctx : list string) (tok : string) :
  i < length tokens →
  cntAt (train_at maxOrder tokens r i) (ctx ++ [tok]) =
  cntAt r (ctx ++ [tok]) +
  (if decide (length ctx ≤ i ∧
              take (length ctx) (drop (i - length ctx) tokens) = ctx ∧
              tokens !! i = Some tok ∧
              (Z.of_nat (length ctx) + 1 ≤ maxOrder)%Z)
   then 1 else 0) +
  (if decide (ctx = [] ∧ tokens !! i = Some tok) then 1 else 0).
Proof.
  intros Hi. unfold train_at.
  destruct (tokens !! i) as [cur|] eqn:Hcur; last first.
  { apply lookup_ge_None in Hcur. lia. }
  rewrite cntAt_updateModel.
  assert (Hgen : ∀ bound,
    cntAt
      (foldl (λ r order,
                if decide (order - 1 ≤ i)
                then updateModel
                       (take (order - 1) (drop (i + 1 - order) tokens)) cur r
                else r)
             r (seq 1 bound)) (ctx ++ [tok]) =
    cntAt r (ctx ++ [tok]) +
    (if decide (length ctx ≤ i ∧
                take (length ctx) (drop (i - length ctx) tokens) = ctx ∧
                Some cur = Some tok ∧ length ctx + 1 ≤ bound)
     then 1 else 0)).
  { induction bound as [|bound IH].
    - simpl. rewrite decide_False by (intros (_ & _ & _ & ?); lia). lia.
    - rewrite seq_S, foldl_app. cbn [foldl].
      replace (1 + bound - 1) with bound by lia.
      replace (i + 1 - (1 + bound)) with (i - bound) by lia.
      destruct (decide (bound ≤ i)) as [Hle|Hgt].
      + rewrite cntAt_updateModel, IH. rewrite <- Nat.add_assoc. f_equal.
        assert (Hlen : length (take bound (drop (i - bound) tokens)) = bound).
        { rewrite length_take, length_drop. lia. }
        destruct (decide (ctx ++ [tok] =
                          take bound (drop (i - bound) tokens) ++ [cur]))
          as [Heq|Hno].
        * apply app_inj_tail in Heq as [Hc ->].
          assert (length ctx = bound) as Hb by (by rewrite Hc).
          rewrite decide_False by (intros (_ & _ & _ & ?); lia).
          rewrite decide_True; [done|]. rewrite Hb.
          split_and!; (done || lia).
        * rewrite Nat.add_0_r. apply decide_ext.
          split; [intuition lia|]. intros (Hl & Htake & [= ->] & Hb).
          split_and!; try done.
          destruct (decide (length ctx = bound)) as [Heq|Hne]; [|lia].
          destruct Hno. by rewrite <- Heq, Htake.
      + rewrite IH. f_equal. apply decide_ext. intuition lia. }
  rewrite Hgen. rewrite <- !Nat.add_assoc. f_equal. f_equal.
  - apply decide_ext. split.
    + intros (? & ? & [= ->] & ?). split_and!; (done || lia).
    + intros (? & ? & [= ->] & ?). split_and!; (done || lia).
  - apply decide_ext. split.
    + intros Heq. change [cur] with ([] ++ [cur]) in Heq.
      apply app_inj_tail in Heq as [-> ->]. done.
    + intros [-> [= ->]]. done.
Qed.

Lemma totAt_train_at (maxOrder : Z) (tokens : list string) (r : PPMNode)
    (i : nat) (ctx : list string) :
  i < length tokens →
  totAt (train_at maxOrder tokens r i) ctx =
  totAt r ctx +
  (if decide (length ctx ≤ i ∧
              take (length ctx) (drop (i - length ctx) tokens) = ctx ∧
              (Z.of_nat (length ctx) + 1 ≤ maxOrder)%Z)
   then 1 else 0) +
  (if decide (ctx = []) then 1 else 0).
Proof.
  intros Hi. unfold train_at.
  destruct (tokens !! i) as [cur|] eqn:Hcur; last first.
  { apply lookup_ge_None in Hcur. lia. }
  rewrite totAt_updateModel.
  assert (Hgen : ∀ bound,
    totAt
      (foldl (λ r order,
                if decide (order - 1 ≤ i)
                then updateModel
                       (take (order - 1) (drop (i + 1 - order) tokens)) cur r
                else r)
             r (seq 1 bound)) ctx =
    totAt r ctx +
    (if decide (length ctx ≤ i ∧
                take (length ctx) (drop (i - length ctx) tokens) = ctx ∧
                length ctx + 1 ≤ bound)
     then 1 else 0)).
  { induction bound as [|bound IH].
    - simpl. rewrite decide_False by (intros (_ & _ & ?); lia). lia.
    - rewrite seq_S, foldl_app. cbn [foldl].
      replace (1 + bound - 1) with bound by lia.
      replace (i + 1 - (1 + bound)) with (i - bound) by lia.
      destruct (decide (bound ≤ i)) as [Hle|Hgt].
      + rewrite totAt_updateModel, IH. rewrite <- Nat.add_assoc. f_equal.
        assert (Hlen : length (take bound (drop (i - bound) tokens)) = bound).
        { rewrite length_take, length_drop. lia. }
        destruct (decide (ctx = take bound (drop (i - bound) tokens)))
          as [Heq|Hno].
        * assert (length ctx = bound) as Hb by (by rewrite Heq).
          rewrite decide_False by (intros (_ & _ & ?); lia).
          rewrite decide_True; [done|]. rewrite Hb.
          split_and!; (done || lia).
        * rewrite Nat.add_0_r. apply decide_ext.
          split; [intuition lia|]. intros (Hl & Htake & Hb).
          split_and!; try done.
          destruct (decide (length ctx = bound)) as [Heq|Hne]; [|lia].
          destruct Hno. by rewrite <- Heq, Htake.
      + rewrite IH. f_equal. apply decide_ext. intuition lia. }
  rewrite Hgen. rewrite <- !Nat.add_assoc. f_equal. f_equal.
  - apply decide_ext. split.
    + intros (? & ? & ?). split_and!; (done || lia).
    + intros (? & ? & ?). split_and!; (done || lia).
  - by apply decide_ext.
Qed.

Lemma train_root (m : t) (tokens : list string) :
  root (train m tokens) =
  foldl (train_at (maxOrder m) tokens) (root m) (seq 0 (length tokens)).
Proof. by destruct tokens. Qed.

Lemma cntAt_train (m : t) (tokens ctx : list string) (tok : string) :
  cntAt (root (train m tokens)) (ctx ++ [tok]) =
  cntAt (root m) (ctx ++ [tok]) +
  (if decide (Z.of_nat (length ctx) + 1 ≤ maxOrder m)%Z
   then token_window_count (ctx ++ [tok]) tokens else 0) +
  (if decide (ctx = []) then token_window_count (ctx ++ [tok]) tokens else 0).
Proof.
  rewrite train_root.
  rewrite (foldl_two_indicators (λ r, cntAt r (ctx ++ [tok])) _
    (λ i, length ctx ≤ i ∧
          take (length ctx) (drop (i - length ctx) tokens) = ctx ∧
          tokens !! i = Some tok ∧
          (Z.of_nat (length ctx) + 1 ≤ maxOrder m)%Z)
    (λ i, ctx = [] ∧ tokens !! i = Some tok)).
  - f_equal; [f_equal|].
    + case_decide as Hord.
      * rewrite <- windows_by_end. f_equal.
        apply list_filter_iff. intros i. tauto.
      * rewrite filter_seq_none; [done|]. intros i _ (_ & _ & _ & ?). done.
    + case_decide as Hctx.
      * subst ctx. rewrite <- windows_by_end. f_equal.
        apply list_filter_iff. intros i. simpl. split.
        -- intros [_ ?]. split_and!; (done || lia).
        -- intros (_ & _ & ?). done.
      * rewrite filter_seq_none; [done|]. intros i _ [? _]. done.
  - intros r i Hin. apply elem_of_seq in Hin.
    apply cntAt_train_at. lia.
Qed.

Lemma totAt_train (m : t) (tokens ctx : list string) :
  totAt (root (train m tokens)) ctx =
  totAt (root m) ctx +
  (if decide (Z.of_nat (length ctx) + 1 ≤ maxOrder m)%Z
   then followed_count ctx tokens else 0) +
  (if decide (ctx = []) then followed_count ctx tokens else 0).
Proof.
  rewrite train_root.
  rewrite (foldl_two_indicators (λ r, totAt r ctx) _
    (λ i, length ctx ≤ i ∧
          take (length ctx) (drop (i - length ctx) tokens) = ctx ∧
          (Z.of_nat (length ctx) + 1 ≤ maxOrder m)%Z)
    (λ i, ctx = [])).
  - f_equal; [f_equal|].
    + case_decide as Hord.
      * unfold followed_count. f_equal.
        apply list_filter_iff. intros i. tauto.
      * rewrite filter_seq_none; [done|]. intros i _ (_ & _ & ?). done.
    + case_decide as Hctx.
      * subst ctx. unfold followed_count. f_equal.
        apply list_filter_iff. intros i. simpl. split; [|done].
        intros _. split; [lia|done].
      * rewrite filter_seq_none; [done|]. intros i _ ?. done.
  - intros r i Hin. apply elem_of_seq in Hin.
    apply totAt_train_at. lia.
Qed.

(** X22: what [train] records in the trie.  Training on [tokens] raises
    the counter of the path [ctx ++ [tok]] by the number of places where
    that sequence occurs in [tokens], once if its length is at most
    [maxOrder] and once more if it is a single token; the total of the
    node of [ctx] grows in the same way by the number of tokens that
    follow an occurrence of [ctx].  A single token is therefore counted
    twice when [maxOrder] is at least 1. *)
Theorem X22_blend_train_counts (m : t) (tokens ctx : list string)
    (tok : string) :
  cntAt (root (train m tokens)) (ctx ++ [tok]) =
    cntAt (root m) (ctx ++ [tok]) +
    (if decide (Z.of_nat (length ctx) + 1 ≤ maxOrder m)%Z
     then token_window_count (ctx ++ [tok]) tokens else 0) +
    (if decide (ctx = [])
     then token_window_count (ctx ++ [tok]) tokens else 0) ∧
  totAt (root (train m tokens)) ctx =
    totAt (root m) ctx +
    (if decide (Z.of_nat (length ctx) + 1 ≤ maxOrder m)%Z
     then followed_count ctx tokens else 0) +
    (if decide (ctx = []) then followed_count ctx tokens else 0).
Proof. split; [apply cntAt_train|apply totAt_train]. Qed.

Local Open Scope Q_scope.

Lemma QofNat_double_ratio (a b : nat) :
  QofNat (a + a) / QofNat (b + b) == QofNat a / QofNat b.
Proof.
  rewrite !QofNat_add.
  destruct (decide (b = 0%nat)) as [->|Hb].
  - unfold Qdiv. change (/ (QofNat 0 + QofNat 0)) with 0.
    change (/ QofNat 0) with 0. ring.
  - assert (0 < QofNat b) by (apply QofNat_pos; lia).
    field. lra.
Qed.

(** X23: after one training of a new model, the conditional probability
    is a relative frequency.  For the empty context, and for every context
    shorter than [maxOrder], the probability of [tok] after [ctx] is the
    number of occurrences of [ctx] followed by [tok] divided by the number
    of occurrences of [ctx] followed by any token. *)
Theorem X23_conditional_probability_is_frequency (order : Z)
    (tokens ctx : list string) (tok : string) :
  ctx = [] ∨ (Z.of_nat (length ctx) + 1 ≤ order)%Z →
  getConditionalProbability (root (train (new (Some order)) tokens)) ctx tok
  == QofNat (token_window_count (ctx ++ [tok]) tokens) /
     QofNat (followed_count ctx tokens).
Proof.
  intros Hctx. rewrite getConditionalProbability_ratio.
  rewrite cntAt_train, totAt_train.
  change (maxOrder (new (Some order))) with order.
  change (root (new (Some order))) with emptyNode.
  assert (cntAt emptyNode (ctx ++ [tok]) = 0%nat) as ->.
  { unfold cntAt. rewrite nodeAt_emptyNode. by destruct ctx. }
  assert (totAt emptyNode ctx = 0%nat) as ->.
  { unfold totAt. rewrite nodeAt_emptyNode. by destruct ctx. }
  rewrite !Nat.add_0_l.
  destruct (decide (Z.of_nat (length ctx) + 1 ≤ order)%Z) as [Ho|Ho];
    destruct (decide (ctx = [])) as [Hc|Hc].
  - apply QofNat_double_ratio.
  - rewrite !Nat.add_0_r. reflexivity.
  - rewrite !Nat.add_0_l. reflexivity.
  - by destruct Hctx.
Qed.

End blend_training.

Lemma X23_conditional_probability_is_frequency_witness :
  (BlendedPPM.getConditionalProbability
     (BlendedPPM.root
        (BlendedPPM.train (BlendedPPM.new (Some 2%Z)) ["a"; "b"; "a"; "c"]))
     ["a"] "b"
   == QofNat (token_window_count (["a"] ++ ["b"]) ["a"; "b"; "a"; "c"]) /
      QofNat (followed_count ["a"] ["a"; "b"; "a"; "c"]))%Q.
Proof.
  apply (X23_conditional_probability_is_frequency 2 ["a"; "b"; "a"; "c"]
           ["a"] "b").
  right. simpl. lia.
Defined.

(* ===================================================================== *)
(** * Properties of [WordTokenizer] *)
(* ===================================================================== *)

Section word_tokenizer.
Context {U : UnicodeTables} {R : StringRuntime}.
Import WordTokenizer.

Lemma wordRest_spec (s : text) :
  (wordRest s).1 ++ (wordRest s).2 = s ∧
  ∀ c, last (wordRest s).1 = Some c → isWordChar c = true.
Proof.
  assert (Hgen : ∀ n s, length s ≤ n →
            (wordRest s).1 ++ (wordRest s).2 = s ∧
            ∀ c, last (wordRest s).1 = Some c → isWordChar c = true).
  { induction n as [|n IH]; intros [|c s'] Hn; simpl in *; try lia;
      try (split; [done|intros ? [=]]).
    destruct (isWordChar c) eqn:Hc.
    - destruct (IH s' ltac:(lia)) as [Happ Hlast].
      destruct (wordRest s') as [m r]; simpl in *. split; [by rewrite Happ|].
      intros c0. destruct m as [|c1 m]; [by intros [= <-]|].
      rewrite last_cons_cons. apply Hlast.
    - destruct (isJoiner c); [|simpl; split; [done|intros ? [=]]].
      destruct s' as [|c' s'']; [simpl; split; [done|intros ? [=]]|].
      destruct (isWordChar c') eqn:Hc'; [|simpl; split; [done|intros ? [=]]].
      destruct (IH s'' ltac:(simpl in *; lia)) as [Happ Hlast].
      destruct (wordRest s'') as [m r]; simpl in *. split; [by rewrite Happ|].
      intros c0. destruct m as [|c1 m]; [by intros [= <-]|].
      rewrite !last_cons_cons. apply Hlast. }
  by apply (Hgen (length s)).
Qed.

Lemma wordAt_spec (s w r : text) :
  wordAt s = Some (w, r) → s = w ++ r ∧ word_token w.
Proof.
  destruct s as [|c s]; simpl; [done|].
  destruct (isWordChar c) eqn:Hc; [|done].
  destruct (wordRest_spec s) as [Happ Hlast].
  destruct (wordRest s) as [m r']. simpl in *. intros [= <- <-].
  split; [by rewrite <- Happ|].
  exists c. split_and!; [done|done|].
  destruct m as [|c1 m]; [by exists c|].
  destruct (last (c1 :: m)) as [c'|] eqn:Hl.
  - exists c'. rewrite last_cons_cons. split; [done|]. by apply Hlast.
  - by apply last_None in Hl.
Qed.

Lemma wordAt_None (c : N) (s : text) :
  wordAt (c :: s) = None → isWordChar c = false.
Proof.
  simpl. destruct (isWordChar c); [|done]. by destruct (wordRest s).
Qed.

(** The matches and the text between them make up the text; the text
    between the matches has no letter and no number. *)
Lemma execWords_spec (s before : text) :
  Forall (λ c, isWordChar c = false) before →
  let out := execWords s before in
  concat ((λ p, p.1 ++ p.2) <$> out.1) ++ out.2 = before ++ s ∧
  Forall (λ p, Forall (λ c, isWordChar c = false) p.1 ∧ word_token p.2) out.1 ∧
  Forall (λ c, isWordChar c = false) out.2.
Proof.
  funelim (execWords s before); intros Hb.
  - simpl. rewrite app_nil_r. split_and!; [done|constructor|done].
  - destruct (wordAt_spec _ _ _ Hm) as [Hs Hw].
    destruct (H ltac:(constructor)) as (Hc & Hf & Ht). simpl in *.
    split_and!.
    + rewrite Hs, <- !app_assoc. do 2 f_equal. exact Hc.
    + constructor; [done|done].
    + done.
  - pose proof (wordAt_None _ _ e) as Hnone.
    destruct H as (Hc & Hf & Ht).
    { apply Forall_app. split; [done|]. by constructor. }
    simpl in *. split_and!; [|done|done].
    rewrite Hc, <- app_assoc. done.
Qed.

Lemma pushPunctTokens_app (tk : t) (chunk : text) (output : list text) :
  pushPunctTokens tk chunk output = output ++ punct_of tk chunk.
Proof.
  unfold pushPunctTokens, punct_of.
  destruct (keepPunctuation tk); [|by rewrite app_nil_r].
  revert output. induction chunk as [|c chunk IH]; intros output; simpl.
  - by rewrite app_nil_r.
  - rewrite IH. destruct (trimsToEmpty c) eqn:E; simpl.
    + rewrite filter_cons_False by congruence. done.
    + rewrite filter_cons_True by done. by rewrite fmap_cons, <- app_assoc.
Qed.

Lemma handleExceptions_id (tk : t) (word : text) :
  handleExceptions tk word = word.
Proof. unfold handleExceptions. by destruct (bool_decide _). Qed.

Lemma tokens_foldl (tk : t) (matches : list (text * text))
    (acc : list text) :
  foldl (λ tokens '(before, word),
           pushPunctTokens tk before tokens ++ [handleExceptions tk word])
        acc matches =
  acc ++ concat ((λ p, punct_of tk p.1 ++ [p.2]) <$> matches).
Proof.
  revert acc. induction matches as [|[b w] matches IH]; intros acc; simpl.
  - by rewrite app_nil_r.
  - rewrite IH, pushPunctTokens_app, handleExceptions_id.
    by rewrite <- !app_assoc.
Qed.

Lemma tokenize_body (tk : t) (s : text) :
  tokenize tk s = token_body tk s ++ eos_part tk.
Proof.
  unfold tokenize, token_body, eos_part.
  destruct (execWords (normalise tk s) []) as [matches tail].
  rewrite tokens_foldl, pushPunctTokens_app. simpl.
  destruct (bool_decide (eosToken tk = [])); [by rewrite app_nil_r|done].
Qed.

Lemma execWords_match (s before w r : text) :
  wordAt s = Some (w, r) →
  execWords s before =
  ((before, w) :: (execWords r []).1, (execWords r []).2).
Proof.
  revert w r. funelim (execWords s before); intros w0 r0 Hw.
  - done.
  - assert (Heq : Some (word, r) = Some (w0, r0)) by (by rewrite <- Hw).
    injection Heq as <- <-. done.
  - assert (Heq : Some (w0, r0) = None) by (rewrite <- Hw; exact e).
    done.
Qed.

Lemma execWords_nil (before : text) : execWords [] before = ([], before).
Proof. by simp execWords. Qed.

Lemma punct_of_shape (tk : t) (chunk : text) :
  Forall (λ c, isWordChar c = false) chunk →
  Forall (λ tok, keepPunctuation tk = true ∧ punct_token tok)
         (punct_of tk chunk).
Proof.
  intros Hchunk. unfold punct_of.
  destruct (keepPunctuation tk) eqn:Hk; [|constructor].
  apply Forall_fmap, Forall_forall. intros c Hc.
  apply list_elem_of_filter in Hc as [Hws Hc].
  rewrite Forall_forall in Hchunk. split; [done|].
  exists c. split_and!; [done|by apply Hchunk|done].
Qed.

Lemma punct_of_concat (tk : t) (chunk : text) :
  concat (punct_of tk chunk) =
  if keepPunctuation tk then filter (λ c, trimsToEmpty c = false) chunk
  else [].
Proof.
  unfold punct_of. destruct (keepPunctuation tk); [|done].
  induction (filter _ chunk) as [|c l IH]; [done|].
  rewrite fmap_cons. cbn [concat app]. by rewrite IH.
Qed.

Lemma punct_of_sublist (tk : t) (chunk : text) :
  concat (punct_of tk chunk) `sublist_of` chunk.
Proof.
  rewrite punct_of_concat. destruct (keepPunctuation tk).
  - apply sublist_filter.
  - apply sublist_nil_l.
Qed.

Lemma word_token_nonempty (w : text) : word_token w → w ≠ [].
Proof. intros (c & Hh & _) ->. done. Qed.

(** X24: the shape of the tokens.  [tokenize] returns the tokens of the
    text followed by the end-of-sentence token, if one is configured.
    Every token of the text is a word that starts and ends with a letter
    or a number, or (only when punctuation is kept) one single code point
    that is neither a letter, a number nor white space.  No token is the
    empty string. *)
Theorem X24_word_tokens_shape (tk : t) (s : text) :
  ∃ body, tokenize tk s = body ++ eos_part tk ∧
    Forall (λ tok, word_token tok ∨
                   (keepPunctuation tk = true ∧ punct_token tok)) body ∧
    ∀ tok, tok ∈ tokenize tk s → tok ≠ [].
Proof.
  exists (token_body tk s).
  assert (Hshape : Forall (λ tok, word_token tok ∨
                     (keepPunctuation tk = true ∧ punct_token tok))
                     (token_body tk s)).
  { unfold token_body.
    pose proof (execWords_spec (normalise tk s) [] ltac:(constructor))
      as (_ & Hms & Htail).
    destruct (execWords (normalise tk s) []) as [matches tail].
    simpl in Hms, Htail. apply Forall_app. split.
    - induction Hms as [|[b w] ms [Hb Hw] _ IH]; simpl; [constructor|].
      apply Forall_app. split; [|done]. apply Forall_app. split.
      + eapply Forall_impl; [by apply punct_of_shape|]. intros tok ?.
        by right.
      + constructor; [by left|constructor].
    - eapply Forall_impl; [by apply punct_of_shape|]. intros tok ?.
      by right. }
  split_and!; [apply tokenize_body|done|].
  intros tok. rewrite tokenize_body. intros [Hin|Hin]%elem_of_app.
  - rewrite Forall_forall in Hshape.
    destruct (Hshape tok Hin) as [Hw|[_ (c & -> & _)]]; [|done].
    by apply word_token_nonempty.
  - unfold eos_part in Hin. case_bool_decide as Heos;
      [by apply elem_of_nil in Hin|].
    apply list_elem_of_singleton in Hin. by subst.
Qed.

Lemma body_sublist (tk : t) (matches : list (text * text)) :
  concat (concat ((λ p, punct_of tk p.1 ++ [p.2]) <$> matches))
    `sublist_of` concat ((λ p, p.1 ++ p.2) <$> matches).
Proof.
  induction matches as [|[b w] matches IH]; simpl; [done|].
  rewrite !concat_app. simpl. rewrite app_nil_r, <- !app_assoc.
  apply sublist_app; [apply punct_of_sublist|].
  by apply sublist_app.
Qed.

Lemma body_filter (tk : t) (matches : list (text * text)) :
  keepPunctuation tk = true →
  filter (λ c, trimsToEmpty c = false)
    (concat (concat ((λ p, punct_of tk p.1 ++ [p.2]) <$> matches))) =
  filter (λ c, trimsToEmpty c = false)
    (concat ((λ p, p.1 ++ p.2) <$> matches)).
Proof.
  intros Hk.
  induction matches as [|[b w] matches IH]; simpl; [done|].
  rewrite !concat_app. simpl. rewrite app_nil_r, <- !app_assoc.
  rewrite !filter_app. f_equal; [|f_equal; exact IH].
  rewrite punct_of_concat, Hk. apply list_filter_filter_l. done.
Qed.

(** X25: nothing but white space is lost.  The tokens of the text, put
    one after the other, are what remains of the lower-cased text after
    some characters were dropped; and when punctuation is kept, exactly
    the white space outside words was dropped: the tokens and the text
    agree on every character that is not white space. *)
Theorem X25_only_white_space_is_dropped (tk : t) (s : text) :
  ∃ body, tokenize tk s = body ++ eos_part tk ∧
    concat body `sublist_of` normalise tk s ∧
    (keepPunctuation tk = true →
     filter (λ c, trimsToEmpty c = false) (concat body) =
     filter (λ c, trimsToEmpty c = false) (normalise tk s)).
Proof.
  exists (token_body tk s). split; [apply tokenize_body|].
  unfold token_body.
  pose proof (execWords_spec (normalise tk s) [] ltac:(constructor))
    as (Htext & _ & _).
  destruct (execWords (normalise tk s) []) as [matches tail].
  simpl in Htext. rewrite <- Htext, concat_app. split.
  - apply sublist_app; [apply body_sublist|apply punct_of_sublist].
  - intros Hk. rewrite !filter_app, body_filter by done. f_equal.
    rewrite punct_of_concat, Hk. apply list_filter_filter_l. done.
Qed.

Lemma wordRest_run (u s : text) :
  Forall (λ c, isWordChar c = true) u →
  wordRest (u ++ s) = (u ++ (wordRest s).1, (wordRest s).2).
Proof.
  induction 1 as [|c u Hc _ IH]; simpl; [by destruct (wordRest s)|].
  rewrite Hc, IH. done.
Qed.

Lemma wordRest_all (v : text) :
  Forall (λ c, isWordChar c = true) v → wordRest v = (v, []).
Proof.
  intros Hv. rewrite <- (app_nil_r v) at 1.
  rewrite wordRest_run by done. simpl. by rewrite app_nil_r.
Qed.

(** X26: what joins two words.  A letter-or-number run, one joiner and
    another letter-or-number run form a single token.  The joiner may be
    any code point from U+002D to U+2013 (hyphen, full stop, slash, colon,
    at sign, ...), U+2014, the apostrophe or U+2019. *)
Theorem X26_joined_runs_are_one_token (tk : t) (s u v : text) (j : N) :
  normalise tk s = u ++ j :: v →
  u ≠ [] → v ≠ [] →
  Forall (λ c, isWordChar c = true) u →
  Forall (λ c, isWordChar c = true) v →
  isJoiner j = true →
  tokenize tk s = (u ++ j :: v) :: eos_part tk.
Proof.
  intros Hs Hu Hv Hfu Hfv Hj. rewrite tokenize_body. unfold token_body.
  rewrite Hs.
  destruct u as [|c u]; [done|]. destruct v as [|c' v]; [done|].
  apply Forall_cons in Hfu as [Hc Hfu]. apply Forall_cons in Hfv as [Hc' Hfv].
  assert (Hrest : wordRest (u ++ j :: c' :: v) = (u ++ j :: c' :: v, [])).
  { rewrite wordRest_run by done.
    assert (wordRest (j :: c' :: v) = (j :: c' :: v, [])) as ->; [|done].
    destruct (isWordChar j) eqn:Hwj.
    - apply wordRest_all. repeat constructor; done.
    - simpl. rewrite Hwj, Hj, Hc', (wordRest_all v Hfv). done. }
  assert (Hat : wordAt ((c :: u) ++ j :: c' :: v) =
                Some ((c :: u) ++ j :: c' :: v, [])).
  { simpl. by rewrite Hc, Hrest. }
  rewrite (execWords_match _ [] _ _ Hat), execWords_nil. simpl.
  unfold punct_of. by destruct (keepPunctuation tk).
Qed.

(** X27: the exception words change nothing.  Whatever list of exception
    words a tokenizer is built with, [tokenize] returns the same tokens as
    the tokenizer built without one. *)
Theorem X27_exception_words_change_nothing (options : TokenizerOptions)
    (s : text) :
  tokenize (new options) s =
  tokenize (new {| o_lowercase := o_lowercase options;
                   o_keepPunctuation := o_keepPunctuation options;
                   o_eosToken := o_eosToken options;
                   o_normalizeYo := o_normalizeYo options;
                   o_exceptionWords := None |}) s.
Proof. by rewrite !tokenize_body. Qed.

End word_tokenizer.

Lemma X25_only_white_space_is_dropped_witness :
  let tk := WordTokenizer.new no_options in
  let s := text_of_string "Hi, you!" in
  ∃ body,
    WordTokenizer.tokenize (U := AsciiTables) (R := AsciiRuntime) tk s =
      body ++ eos_part tk ∧
    concat body `sublist_of`
      WordTokenizer.normalise (R := AsciiRuntime) tk s ∧
    filter (λ c, trimsToEmpty (StringRuntime := AsciiRuntime) c = false)
           (concat body) =
    filter (λ c, trimsToEmpty (StringRuntime := AsciiRuntime) c = false)
           (WordTokenizer.normalise (R := AsciiRuntime) tk s).
Proof.
  intros tk s.
  destruct (X25_only_white_space_is_dropped (U := AsciiTables)
              (R := AsciiRuntime) tk s) as (body & Hbody & Hsub & Hkeep).
  exists body. split_and!; [exact Hbody|exact Hsub|].
  apply Hkeep. reflexivity.
Defined.

Lemma X26_joined_runs_are_one_token_witness :
  let tk := WordTokenizer.new no_options in
  WordTokenizer.tokenize (U := AsciiTables) (R := AsciiRuntime) tk
    (text_of_string "3.14") =
  (text_of_string "3" ++ 46%N :: text_of_string "14") :: eos_part tk.
Proof.
  apply (X26_joined_runs_are_one_token (U := AsciiTables)
           (R := AsciiRuntime) (WordTokenizer.new no_options)
           (text_of_string "3.14") (text_of_string "3")
           (text_of_string "14") 46%N).
  - reflexivity.
  - vm_compute. discriminate.
  - vm_compute. discriminate.
  - vm_compute. repeat constructor.
  - vm_compute. repeat constructor.
  - reflexivity.
Defined.
